(** * Mapillary street-view simulator: route sampling and image selection

    A shallow embedding of the TypeScript sources

    - [src/utils/polyline.ts]      (polyline decoder),
    - [src/utils/calculations.ts]  (great-circle geodesy, route sampler),
    - [src/services/api.ts]        (Mapillary image lookup and selector),
    - [src/App.tsx]                (coordinate input, batch orchestration,
                                    submit handler),
    - [src/components/ImageSlideshow.tsx]  (slideshow index),
    - [src/components/MapTile.tsx]         (map tiles under the marker),

    together with the properties the specification states about them
    and further properties read off the code.

    Number model.  JavaScript numbers are IEEE-754 doubles.  The 32-bit
    integer arithmetic of the decoder is modelled in [Z] with the
    wrap-around written out; decimal input parsing is modelled in [Q];
    the trigonometric code (geodesy, sampler, selector, de-duplication)
    is modelled over the real numbers [R], i.e. in exact arithmetic, with
    [NaN] and the infinities represented explicitly where the code can
    produce them ([option], [jsnum]).  Rounding error is outside the
    model, with one exception: [Binary64] carries out the sampler's
    division of the spacing by 1000 on binary64 numbers, where a
    positive spacing can underflow to 0.  [sqrt] and [asin] are the total functions of the Standard
    Library; they agree with [Math.sqrt] and [Math.asin] on the domain of
    the latter, which the haversine formula leaves only for a latitude
    outside [-90, 90]. *)

From stdpp Require Import base option list gmap sets strings.
From Stdlib Require Import ZArith QArith Qpower Reals Lra Lia Psatz.
From Stdlib Require Floats.
From Stdlib Require Import String Ascii.

#[local] Open Scope Z_scope.

(** ** Outcomes of running a piece of JavaScript

    A call either returns a value, throws, or -- for the fuel-indexed loop
    models below -- has not finished within the given number of
    iterations. *)

Inductive outcome (A : Type) : Type :=
| Returns (a : A)
| Throws (e : string)
| OutOfFuel.

Arguments Returns {A} a.
Arguments Throws {A} e.
Arguments OutOfFuel {A}.

#[global] Instance outcome_ret : MRet outcome := fun A a => Returns a.
#[global] Instance outcome_bind : MBind outcome := fun A B k m =>
  match m with
  | Returns a => k a
  | Throws e => Throws e
  | OutOfFuel => OutOfFuel
  end.

(** [try { body } catch (error) { handler }] *)
Definition tryCatch {A} (body : outcome A) (handler : string -> outcome A)
  : outcome A :=
  match body with
  | Throws e => handler e
  | other => other
  end.

(** ** Polyline decoder ([src/utils/polyline.ts]) *)

Module Polyline.

(** [ToInt32]: the wrap-around every JavaScript bitwise operator applies
    to its operands and result. *)
Definition toInt32 (z : Z) : Z := (z + 2 ^ 31) mod 2 ^ 32 - 2 ^ 31.

(** [a & b], [a | b], [a << s], [a >> s], [~a] on numbers. *)
Definition jsAnd (a b : Z) : Z := Z.land (toInt32 a) (toInt32 b).
Definition jsOr (a b : Z) : Z := Z.lor (toInt32 a) (toInt32 b).
Definition jsShl (a s : Z) : Z := toInt32 (Z.shiftl (toInt32 a) (s mod 32)).
Definition jsShr (a s : Z) : Z := Z.shiftr (toInt32 a) (s mod 32).
Definition jsNot (a : Z) : Z := Z.lnot (toInt32 a).

(** [str.charCodeAt(i)]: the code unit at [i], or [NaN] ([None]) when [i]
    is past the end of the string. *)
Definition charCodeAt (str : string) (i : nat) : option Z :=
  (fun c => Z.of_nat (nat_of_ascii c)) <$> String.get i str.

(** [ToInt32] of a number that may be [NaN]: [NaN] converts to 0. *)
Definition toInt32_num (byte : option Z) : Z :=
  match byte with Some b => toInt32 b | None => 0 end.

(** [byte >= 0x20]; any comparison with [NaN] is false. *)
Definition geNum (byte : option Z) (k : Z) : bool :=
  match byte with Some b => k <=? b | None => false end.

(** The inner loop
<<
    do {
      byte = str.charCodeAt(index++) - 63;
      result |= (byte & 0x1f) << shift;
      shift += 5;
    } while (byte >= 0x20);
>>
    returning the advanced [index] and the accumulated [result]. *)
Fixpoint readGroup (fuel : nat) (str : string) (index : nat)
    (shift result : Z) : outcome (nat * Z) :=
  match fuel with
  | O => OutOfFuel
  | S fuel' =>
      let byte := (fun c => c - 63) <$> charCodeAt str index in
      let index := S index in
      let result := jsOr result (jsShl (jsAnd (toInt32_num byte) 31) shift) in
      let shift := shift + 5 in
      if geNum byte 32 then readGroup fuel' str index shift result
      else Returns (index, result)
  end.

(** [result & 1 ? ~(result >> 1) : result >> 1] *)
Definition unfold_sign (result : Z) : Z :=
  if negb (jsAnd result 1 =? 0) then jsNot (jsShr result 1)
  else jsShr result 1.

(** The outer loop [while (index < str.length) { ... }]; [coordinates]
    is kept in emission order. *)
Fixpoint decodeLoop (fuel : nat) (str : string) (factor : Q)
    (index : nat) (lat lng : Z) (coordinates : list (Q * Q))
    : outcome (list (Q * Q)) :=
  match fuel with
  | O => OutOfFuel
  | S fuel' =>
      if (index <? String.length str)%nat then
        '(index, result) ← readGroup (S (String.length str)) str index 0 0;
        let latitudeChange := unfold_sign result in
        '(index, result) ← readGroup (S (String.length str)) str index 0 0;
        let longitudeChange := unfold_sign result in
        let lat := lat + latitudeChange in
        let lng := lng + longitudeChange in
        decodeLoop fuel' str factor index lat lng
          (coordinates ++ [((inject_Z lat / factor)%Q,
                            (inject_Z lng / factor)%Q)])
      else Returns coordinates
  end.

(** [decode(str, precision = 5)].  Every iteration of the outer loop
    advances [index] by at least two, so [str.length] iterations (plus
    the final test) are enough; [decode_total] below shows the fuel is
    never exhausted. *)
Definition decode (str : string) (precision : Z) : outcome (list (Q * Q)) :=
  let factor := Qpower (10 # 1) precision in
  decodeLoop (S (String.length str)) str factor 0 0 0 [].

(** An input that "ends in the middle of a variable-length byte group":
    its last character carries the continuation bit. *)
Definition endsMidGroup (str : string) : Prop :=
  exists c, charCodeAt str (Nat.pred (String.length str)) = Some c /\
            32 <= c - 63.

End Polyline.

(** ** Real-number primitives of [Math] and of the [%] operator *)

#[global] Instance Rlt_decision : RelDecision Rlt := Rlt_dec.
#[global] Instance Rle_decision : RelDecision Rle := Rle_dec.
#[global] Instance Rgt_decision : RelDecision Rgt := Rgt_dec.
#[global] Instance Rge_decision : RelDecision Rge := Rge_dec.
#[global] Instance Req_decision : EqDecision R := Req_dec_T.

Module JsMath.
#[local] Open Scope R_scope.

(** [Math.atan2(y, x)]: the angle in (-PI, PI] of the point [(x, y)];
    [Math.atan2(0, 0)] is [0]. *)
Definition atan2 (y x : R) : R :=
  if decide (0 < x) then atan (y / x)
  else if decide (x < 0) then
    if decide (0 <= y) then atan (y / x) + PI else atan (y / x) - PI
  else if decide (0 < y) then PI / 2
  else if decide (y < 0) then - (PI / 2)
  else 0.

(** Truncation toward zero, as used by the remainder operator. *)
Definition truncate (x : R) : Z :=
  if decide (0 <= x) then Int_part x else (- Int_part (- x))%Z.

(** [a % b] on numbers: the remainder has the sign of the dividend. *)
Definition rem (a b : R) : R := a - b * IZR (truncate (a / b)).

End JsMath.

(** ** Geodesy ([src/utils/calculations.ts]) *)

Module Geodesy.
#[local] Open Scope R_scope.

(** A point is the pair [[lat, lon]] in decimal degrees. *)
Definition Point : Type := R * R.

Definition toRadians (degrees : R) : R := degrees * (PI / 180).
Definition toDegrees (radians : R) : R := radians * (180 / PI).

Definition calculateInitialCompassBearing (pointA pointB : Point) : R :=
  let lat1 := toRadians (fst pointA) in
  let lat2 := toRadians (fst pointB) in
  let diffLong := toRadians (snd pointB - snd pointA) in
  let x := sin diffLong * cos lat2 in
  let y := cos lat1 * sin lat2 - sin lat1 * cos lat2 * cos diffLong in
  let initialBearing := JsMath.atan2 x y in
  let compassBearing := JsMath.rem (toDegrees initialBearing + 360) 360 in
  compassBearing.

(** Haversine distance in km. *)
Definition distance (origin destination : Point) : R :=
  let '(lat1, lon1) := origin in
  let '(lat2, lon2) := destination in
  let radius := 6371 in
  let dlat := toRadians (lat2 - lat1) in
  let dlon := toRadians (lon2 - lon1) in
  let a :=
    sin (dlat / 2) * sin (dlat / 2) +
    cos (toRadians lat1) * cos (toRadians lat2) *
      sin (dlon / 2) * sin (dlon / 2) in
  let c := 2 * JsMath.atan2 (sqrt a) (sqrt (1 - a)) in
  let d := radius * c in
  d.

Definition calculateDestinationPoint (point : Point) (bearing distanceKm : R)
  : Point :=
  let radius := 6371 in
  let lat1 := toRadians (fst point) in
  let lon1 := toRadians (snd point) in
  let bearingRad := toRadians bearing in
  let lat2 := asin (sin lat1 * cos (distanceKm / radius) +
                    cos lat1 * sin (distanceKm / radius) * cos bearingRad) in
  let lon2 := lon1 + JsMath.atan2
                (sin bearingRad * sin (distanceKm / radius) * cos lat1)
                (cos (distanceKm / radius) - sin lat1 * sin lat2) in
  (toDegrees lat2, toDegrees lon2).

End Geodesy.

(** ** Route sampler ([generateEvenlySpacedPoints]) *)

Module Sampler.
Import Geodesy.
#[local] Open Scope R_scope.

Record Waypoint : Type := { coord : Point; bearing : R }.

(** The first loop:
<<
    for (let i = 0; i < routeCoords.length - 1; i++) {
      const segmentLength = distance(routeCoords[i], routeCoords[i + 1]);
      segmentLengths.push(segmentLength);
      totalDistance += segmentLength;
    }
>>
    [segmentLengthsOf] is the array it fills and [sumFrom] the running
    sum it keeps, in the order of the additions. *)
Fixpoint segmentLengthsOf (routeCoords : list Point) : list R :=
  match routeCoords with
  | p :: (q :: _) as rest => distance p q :: segmentLengthsOf rest
  | _ => []
  end.

Definition sumFrom (start : R) (lengths : list R) : R :=
  fold_left Rplus lengths start.

(** The variables the [while] loop updates. *)
Record LoopState : Type := {
  result : list Waypoint;
  accumulatedDistance : R;
  currentSegmentIndex : nat;
  distanceIntoSegment : R;
  nextPointDistance : R
}.

Section Loop.
Variable routeCoords : list Point.
Variable segmentLengths : list R.
Variable totalDistance : R.
Variable targetSpacingKm : R.

(** [nextPointDistance < totalDistance &&
     currentSegmentIndex < routeCoords.length - 1] *)
Definition loopGuard (st : LoopState) : bool :=
  bool_decide (nextPointDistance st < totalDistance)
  && (currentSegmentIndex st <? List.length routeCoords - 1)%nat.

(** [nextPointDistance - accumulatedDistance <= remainingInSegment] *)
Definition pointInCurrentSegment (st : LoopState) (segmentLength : R)
  : bool :=
  let remainingInSegment := segmentLength - distanceIntoSegment st in
  bool_decide (nextPointDistance st - accumulatedDistance st
               <= remainingInSegment).

(** One execution of the loop body.  The three array reads are in
    range whenever the guard holds; a read out of range is reported
    as a thrown [TypeError], which [SamplerFacts.body_step] shows never
    to happen. *)
Definition loopBody (st : LoopState) : outcome LoopState :=
  match segmentLengths !! currentSegmentIndex st,
        routeCoords !! currentSegmentIndex st,
        routeCoords !! S (currentSegmentIndex st) with
  | Some segmentLength, Some segmentStart, Some segmentEnd =>
      let remainingInSegment := segmentLength - distanceIntoSegment st in
      if pointInCurrentSegment st segmentLength then
        let distanceAlongSegment :=
          distanceIntoSegment st
          + (nextPointDistance st - accumulatedDistance st) in
        let fraction := distanceAlongSegment / segmentLength in
        let bearing :=
          calculateInitialCompassBearing segmentStart segmentEnd in
        let interpolatedCoord :=
          calculateDestinationPoint segmentStart bearing
            distanceAlongSegment in
        Returns {|
          result := result st ++
                    [{| coord := interpolatedCoord; bearing := bearing |}];
          accumulatedDistance := accumulatedDistance st;
          currentSegmentIndex := currentSegmentIndex st;
          distanceIntoSegment := distanceIntoSegment st;
          nextPointDistance := nextPointDistance st + targetSpacingKm |}
      else
        Returns {|
          result := result st;
          accumulatedDistance :=
            accumulatedDistance st + remainingInSegment;
          currentSegmentIndex := S (currentSegmentIndex st);
          distanceIntoSegment := 0;
          nextPointDistance := nextPointDistance st |}
  | _, _, _ => Throws "TypeError"
  end.

(** [while (guard) { body }], at most [fuel] iterations. *)
Fixpoint whileLoop (fuel : nat) (st : LoopState) : outcome LoopState :=
  match fuel with
  | O => OutOfFuel
  | S fuel' =>
      if loopGuard st then st' ← loopBody st; whileLoop fuel' st'
      else Returns st
  end.

(** The state after exactly [k] iterations, each entered with the
    guard true. *)
Fixpoint iterations (k : nat) (st : LoopState) : outcome LoopState :=
  match k with
  | O => Returns st
  | S k' =>
      if loopGuard st then st' ← loopBody st; iterations k' st'
      else Throws "loop already left"
  end.

End Loop.

(** The loop variables as initialised before the [while] loop, with the
    first point already pushed. *)
Definition initialState (p0 p1 : Point) (targetSpacingKm : R) : LoopState :=
  {| result := [{| coord := p0;
                   bearing := calculateInitialCompassBearing p0 p1 |}];
     accumulatedDistance := 0;
     currentSegmentIndex := 0;
     distanceIntoSegment := 0;
     nextPointDistance := targetSpacingKm |}.

(** The function from line 117 on, for the spacing in kilometres that
    line 116 has computed; the [while] loop is bounded by [fuel]. *)
Definition samplePoints (fuel : nat) (routeCoords : list Point)
    (targetSpacingKm : R) : outcome (list Waypoint) :=
  let segmentLengths := segmentLengthsOf routeCoords in
  let totalDistance := sumFrom 0 segmentLengths in
  match routeCoords !! 0%nat, routeCoords !! 1%nat with
  | Some p0, Some p1 =>
      st ← whileLoop routeCoords segmentLengths totalDistance
             targetSpacingKm fuel (initialState p0 p1 targetSpacingKm);
      Returns (result st)
  | _, _ => Throws "TypeError"
  end.

(** [generateEvenlySpacedPoints(routeCoords, targetSpacingMeters)], in
    exact real arithmetic: the division by 1000 and the running sum
    [nextPointDistance += targetSpacingKm] neither round nor
    underflow. *)
Definition generateEvenlySpacedPoints (fuel : nat)
    (routeCoords : list Point) (targetSpacingMeters : R)
  : outcome (list Waypoint) :=
  if (List.length routeCoords <? 2)%nat then Returns []
  else
    let targetSpacingKm := targetSpacingMeters / 1000 in
    samplePoints fuel routeCoords targetSpacingKm.

(** Total great-circle length of a route, as the sampler computes it. *)
Definition routeLength (routeCoords : list Point) : R :=
  sumFrom 0 (segmentLengthsOf routeCoords).

End Sampler.

(** ** The spacing as a binary64 number

    The caller passes [targetSpacingMeters] as a binary64 number, and
    the quotient [targetSpacingMeters / 1000] of line 116 is the
    binary64 quotient: it is rounded, and for a small enough positive
    spacing it underflows to 0. *)

Module Binary64.
Import Floats.
Import Sampler.

(** The real number a binary64 value stands for; none for the
    infinities and for [NaN]. *)
Definition realOf (x : float) : option R :=
  match Prim2SF x with
  | S754_zero _ => Some 0%R
  | S754_finite negative m e =>
      Some ((if negative then -1 else 1) * IZR (Zpos m) * powerRZ 2 e)%R
  | S754_infinity _ | S754_nan => None
  end.

(** [targetSpacingMeters / 1000] *)
Definition kilometres (targetSpacingMeters : float) : float :=
  (targetSpacingMeters / 1000)%float.

(** [generateEvenlySpacedPoints] with the division of line 116 done in
    binary64 and everything after it taken exactly.  A quotient that
    is not a finite number takes the loop out of the real numbers; no
    result is given for it. *)
Definition generateEvenlySpacedPoints (fuel : nat)
    (routeCoords : list Geodesy.Point) (targetSpacingMeters : float)
  : option (outcome (list Waypoint)) :=
  if (List.length routeCoords <? 2)%nat then Some (Returns [])
  else
    let targetSpacingKm := kilometres targetSpacingMeters in
    km ← realOf targetSpacingKm;
    Some (samplePoints fuel routeCoords km).

(** [x > 0] on binary64 numbers. *)
Definition positive (x : float) : bool := (0 <? x)%float.

(** The smallest positive binary64 number, [2 ^ -1074], about
    4.9e-324. *)
Definition smallestPositive : float := 0x1p-1074%float.

End Binary64.

(** ** Image lookup and selection ([getMapillaryImage]) *)

Module Selector.
#[local] Open Scope R_scope.

(** A settled promise. *)
Inductive settled (A : Type) : Type :=
| Fulfilled (a : A)
| Rejected (e : string).
Arguments Fulfilled {A} a.
Arguments Rejected {A} e.

(** [await p] *)
Definition await {A} (p : settled A) : outcome A :=
  match p with Fulfilled a => Returns a | Rejected e => Throws e end.

(** An image record of the provider's response, with the fields the
    code reads.  A field the record lacks is [None]. *)
Record Geometry : Type := { coordinates : option (R * R) }.

Record ApiImage : Type := {
  id : string;
  is_pano : bool;
  thumb_2048_url : option string;
  geometry : option Geometry;
  computed_compass_angle : option R
}.

(** The value [getMapillaryImage] resolves to. *)
Record MapillaryImage : Type := {
  image_id : string;
  thumbUrl : option string;
  computedCompassAngle : option R;
  image_geometry : option Geometry
}.

Record ResponseBody : Type := { data : option (list ApiImage) }.

Record Response : Type := {
  ok : bool;
  statusText : string;
  json : settled ResponseBody
}.

(** The bounding box of the query: west, south, east, north. *)
Definition Bbox : Type := (R * R * R * R)%type.

(** The imagery provider as seen through [fetch]. *)
Definition Provider : Type := Bbox -> settled Response.

(** JavaScript truthiness of an optional string and of an optional
    number: the empty string and the number 0 are falsy, like a missing
    value. *)
Definition truthy_string (s : option string) : bool :=
  match s with Some s => negb (String.eqb s "") | None => false end.

Definition truthy_number (x : option R) : bool :=
  match x with Some x => bool_decide (x <> 0) | None => false end.

(** [image.geometry?.coordinates] *)
Definition geometry_coordinates (image : ApiImage) : option (R * R) :=
  g ← geometry image; coordinates g.

(** [bestScore], which starts at [Infinity]. *)
Inductive score_bound : Type := Infinity | Finite (r : R).

Definition below (score : R) (bestScore : score_bound) : bool :=
  match bestScore with
  | Infinity => true
  | Finite b => bool_decide (score < b)
  end.

Section Scan.
Variables (lat lon heading : R).

(** The distance stage of the loop body: [None] stands for the
    [continue] of the threshold test. *)
Definition distanceStage (image : ApiImage) : option R :=
  let distance := 0.0001 in
  match geometry_coordinates image with
  | Some (imgLon, imgLat) =>
      let distance := sqrt ((imgLat - lat) ^ 2 + (imgLon - lon) ^ 2) in
      if bool_decide (distance > 0.0002) then None else Some distance
  | None => Some distance
  end.

(** [if (!image.computed_compass_angle) continue;] *)
Definition rejectedByCompassCheck (image : ApiImage) : bool :=
  negb (truthy_number (computed_compass_angle image)).

(** The heading stage: [None] stands for either [continue]. *)
Definition headingStage (image : ApiImage) : option R :=
  if rejectedByCompassCheck image then None
  else
    match computed_compass_angle image with
    | Some angle =>
        let angleDiff := Rabs (angle - heading) in
        let angleDiff :=
          if bool_decide (angleDiff > 180) then 360 - angleDiff
          else angleDiff in
        if bool_decide (angleDiff > 45) then None else Some angleDiff
    | None => None
    end.

(** The score the loop body computes for [image], or [None] when the
    body leaves through one of its [continue]s. *)
Definition candidateScore (image : ApiImage) : option R :=
  if is_pano image || negb (truthy_string (thumb_2048_url image))
  then None
  else
    distance ← distanceStage image;
    angleDiff ← headingStage image;
    Some (angleDiff * 3 + distance * 10000).

(** One iteration of [for (const image of data.data)]. *)
Definition scanStep (st : option ApiImage * score_bound)
    (image : ApiImage) : option ApiImage * score_bound :=
  let '(bestImage, bestScore) := st in
  match candidateScore image with
  | None => (bestImage, bestScore)
  | Some score =>
      if below score bestScore then (Some image, Finite score)
      else (bestImage, bestScore)
  end.

(** The whole loop, from [bestImage = null], [bestScore = Infinity]. *)
Definition scanCandidates (candidates : list ApiImage)
  : option ApiImage * score_bound :=
  fold_left scanStep candidates (None, Infinity).

Definition selectBestImage (candidates : list ApiImage)
  : option ApiImage :=
  fst (scanCandidates candidates).

End Scan.

Definition toMapillaryImage (bestImage : ApiImage) : MapillaryImage :=
  {| image_id := id bestImage;
     thumbUrl := thumb_2048_url bestImage;
     computedCompassAngle := computed_compass_angle bestImage;
     image_geometry := geometry bestImage |}.

Definition bboxOf (coord : R * R) : Bbox :=
  let '(lat, lon) := coord in
  (lon - 0.0002, lat - 0.0002, lon + 0.0002, lat + 0.0002).

(** The body of the [try] block. *)
Definition lookupBody (fetch : Provider) (coord : R * R) (heading : R)
  : outcome (option MapillaryImage) :=
  let '(lat, lon) := coord in
  response ← await (fetch (bboxOf coord));
  if negb (ok response)
  then Throws ("Mapillary API error: " +:+ statusText response)
  else
    data ← await (json response);
    match data.(Selector.data) with
    | Some ((_ :: _) as candidates) =>
        match selectBestImage lat lon heading candidates with
        | Some bestImage => Returns (Some (toMapillaryImage bestImage))
        | None => Returns None
        end
    | _ => Returns None
    end.

(** [getMapillaryImage(coord, heading)] *)
Definition getMapillaryImage (fetch : Provider) (coord : R * R)
    (heading : R) : outcome (option MapillaryImage) :=
  tryCatch (lookupBody fetch coord heading) (fun _ => Returns None).

(** The lookup fails at the transport or provider level: the request is
    rejected, the response is not [ok], or its body cannot be read. *)
Definition lookupFails (fetch : Provider) (coord : R * R) : Prop :=
  match fetch (bboxOf coord) with
  | Rejected _ => True
  | Fulfilled response =>
      ok response = false \/ exists e, json response = Rejected e
  end.

Record LookupPoint : Type := { point_coord : R * R; point_heading : R }.

(** [points.slice(i, j)] *)
Definition slice {A} (l : list A) (i j : nat) : list A :=
  take (j - i) (drop i l).

(** [Promise.all(batch.map(f))]: the results in order, or the first
    rejection. *)
Fixpoint promiseAll {A B} (f : A -> outcome B) (batch : list A)
  : outcome (list B) :=
  match batch with
  | [] => Returns []
  | x :: rest => y ← f x; ys ← promiseAll f rest; Returns (y :: ys)
  end.

(** The loop of [getMapillaryImagesBatch]; the pause between batches
    has no effect on the values. *)
Fixpoint batchesFrom (fuel : nat) (fetch : Provider)
    (points : list LookupPoint) (batchSize i : nat)
    (results : list (option MapillaryImage))
  : outcome (list (option MapillaryImage)) :=
  match fuel with
  | O => OutOfFuel
  | S fuel' =>
      if (i <? List.length points)%nat then
        let batch := slice points i (i + batchSize) in
        batchResults ←
          promiseAll (fun point =>
            getMapillaryImage fetch (point_coord point)
              (point_heading point)) batch;
        batchesFrom fuel' fetch points batchSize (i + batchSize)
          (results ++ batchResults)
      else Returns results
  end.

Definition getMapillaryImagesBatch (fetch : Provider)
    (points : list LookupPoint) (batchSize : nat)
  : outcome (list (option MapillaryImage)) :=
  batchesFrom (S (List.length points)) fetch points batchSize 0 [].

End Selector.

(** ** Batch orchestration and de-duplication ([handleFormSubmit]) *)

Module Orchestrator.
Import Geodesy Selector.
#[local] Open Scope R_scope.

Definition minImageDistanceKm : R := 0.03.
Definition batchSize : nat := 10.

(** The local accumulators of the image phase. *)
Record Accumulators : Type := {
  fetchedImages : list (option string);
  fetchedCoordinates : list Point;
  usedImageIds : gset string;
  usedImageLocations : list Point
}.

Definition emptyAccumulators : Accumulators :=
  {| fetchedImages := []; fetchedCoordinates := [];
     usedImageIds := ∅; usedImageLocations := [] |}.

(** The component state [images], [coordinates] that the slideshow
    reads. *)
Record Snapshot : Type := {
  images : list (option string);
  coordinates_shown : list Point
}.

Definition publish (acc : Accumulators) : Snapshot :=
  {| images := fetchedImages acc;
     coordinates_shown := fetchedCoordinates acc |}.

(** The inner [for (const usedLocation of usedImageLocations)] with its
    [break]. *)
Definition tooClose (imageCoord : Point) (usedLocations : list Point)
  : bool :=
  existsb (fun usedLocation =>
             bool_decide (distance imageCoord usedLocation
                          < minImageDistanceKm)) usedLocations.

(** The callback of [batchResults.forEach].  Reading
    [imageData.geometry.coordinates] of an image without geometry
    throws. *)
Definition processResult (acc : Accumulators)
    (imageData : option MapillaryImage) : outcome Accumulators :=
  match imageData with
  | Some imageData =>
      if bool_decide (image_id imageData ∈ usedImageIds acc)
      then Returns acc
      else
        match g ← image_geometry imageData; coordinates g with
        | None => Throws "TypeError"
        | Some (imgLon, imgLat) =>
            let imageCoord := (imgLat, imgLon) in
            if negb (tooClose imageCoord (usedImageLocations acc)) then
              Returns {|
                fetchedImages := fetchedImages acc ++ [thumbUrl imageData];
                fetchedCoordinates := fetchedCoordinates acc ++ [imageCoord];
                usedImageIds := usedImageIds acc ∪ {[ image_id imageData ]};
                usedImageLocations :=
                  usedImageLocations acc ++ [imageCoord] |}
            else Returns acc
        end
  | None => Returns acc
  end.

Fixpoint processBatch (acc : Accumulators)
    (batchResults : list (option MapillaryImage)) : outcome Accumulators :=
  match batchResults with
  | [] => Returns acc
  | imageData :: rest =>
      acc' ← processResult acc imageData; processBatch acc' rest
  end.

(** The batch loop of [handleFormSubmit].  [cancelled i] is the value of
    [cancelDownloadRef.current] read before the batch starting at [i].
    The result is the last published snapshot together with the way the
    loop was left; an exception leaves the state at the snapshot of the
    last completed batch. *)
Fixpoint batchLoop (fuel : nat) (fetch : Provider) (cancelled : nat -> bool)
    (pointsToFetch : list LookupPoint) (i : nat) (acc : Accumulators)
    (shown : Snapshot) : Snapshot * outcome unit :=
  match fuel with
  | O => (shown, OutOfFuel)
  | S fuel' =>
      if (i <? List.length pointsToFetch)%nat then
        if cancelled i then (shown, Returns tt)
        else
          let batch := slice pointsToFetch i (i + batchSize) in
          match
            batchResults ← getMapillaryImagesBatch fetch batch batchSize;
            processBatch acc batchResults
          with
          | Returns acc' =>
              batchLoop fuel' fetch cancelled pointsToFetch (i + batchSize)
                acc' (publish acc')
          | Throws e => (shown, Throws e)
          | OutOfFuel => (shown, OutOfFuel)
          end
      else (shown, Returns tt)
  end.

(** The image phase of [handleFormSubmit] for the sampled waypoints. *)
Definition fetchImages (fetch : Provider) (cancelled : nat -> bool)
    (spacedPoints : list Sampler.Waypoint) : Snapshot * outcome unit :=
  let pointsToFetch :=
    (fun w => {| point_coord := Sampler.coord w;
                 point_heading := Sampler.bearing w |}) <$> spacedPoints in
  batchLoop (S (List.length pointsToFetch)) fetch cancelled pointsToFetch 0
    emptyAccumulators (publish emptyAccumulators).

End Orchestrator.

(** ** Coordinate input ([parseCoordinateInput], [isCoordinates]) *)

Module CoordInput.
#[local] Open Scope Q_scope.

(** A number produced by [parseFloat]: [NaN], a decimal value (kept
    exactly, as a rational), or a signed infinity. *)
Inductive jsnum : Type :=
| NaN
| Num (q : Q)
| Inf (negative : bool).

Definition isNaN (x : jsnum) : bool :=
  match x with NaN => true | _ => false end.

(** [x >= k] and [x <= k] for a finite constant [k]. *)
Definition geq (x : jsnum) (k : Q) : bool :=
  match x with
  | NaN => false
  | Num q => Qle_bool k q
  | Inf negative => negb negative
  end.

Definition leq (x : jsnum) (k : Q) : bool :=
  match x with
  | NaN => false
  | Num q => Qle_bool q k
  | Inf negative => negative
  end.

(** White space as [trim] and [parseFloat] skip it (the code units up
    to 255 among [WhiteSpace] and [LineTerminator]). *)
Definition isWhiteSpace (c : ascii) : bool :=
  let n := nat_of_ascii c in
  ((9 <=? n) && (n <=? 13) || (n =? 32) || (n =? 160))%nat.

Fixpoint skipWhiteSpace (s : list ascii) : list ascii :=
  match s with
  | c :: rest => if isWhiteSpace c then skipWhiteSpace rest else s
  | [] => []
  end.

(** [s.trim()] *)
Definition trim (s : string) : string :=
  string_of_list_ascii
    (rev (skipWhiteSpace (rev (skipWhiteSpace (list_ascii_of_string s))))).

(** [s.includes(',')] *)
Definition includesComma (s : string) : bool :=
  existsb (Ascii.eqb ",") (list_ascii_of_string s).

(** [s.split(',')] *)
Fixpoint splitFrom (current : list ascii) (s : list ascii) : list string :=
  match s with
  | [] => [string_of_list_ascii (rev current)]
  | c :: rest =>
      if Ascii.eqb c "," then
        string_of_list_ascii (rev current) :: splitFrom [] rest
      else splitFrom (c :: current) rest
  end.

Definition splitComma (s : string) : list string :=
  splitFrom [] (list_ascii_of_string s).

(** *** [parseFloat]: the longest prefix that is a [StrDecimalLiteral] *)

Definition digitValue (c : ascii) : option Z :=
  let n := nat_of_ascii c in
  if ((48 <=? n) && (n <=? 57))%nat then Some (Z.of_nat n - 48)%Z else None.

Fixpoint takeDigits (s : list ascii) : list Z * list ascii :=
  match s with
  | c :: rest =>
      match digitValue c with
      | Some d => let '(ds, r) := takeDigits rest in (d :: ds, r)
      | None => ([], s)
      end
  | [] => ([], [])
  end.

Definition digitsValue (ds : list Z) : Z :=
  fold_left (fun acc d => (10 * acc + d)%Z) ds 0%Z.

(** The optional [ExponentPart]; a malformed one is not part of the
    prefix and counts as absent. *)
Definition exponentOf (s : list ascii) : Z :=
  match s with
  | c :: rest =>
      if Ascii.eqb c "e" || Ascii.eqb c "E" then
        let '(sign, rest) :=
          match rest with
          | d :: r => if Ascii.eqb d "+" then (1%Z, r)
                      else if Ascii.eqb d "-" then ((-1)%Z, r)
                      else (1%Z, rest)
          | [] => (1%Z, rest)
          end in
        let '(ds, _) := takeDigits rest in
        match ds with
        | [] => 0%Z
        | _ => (sign * digitsValue ds)%Z
        end
      else 0%Z
  | [] => 0%Z
  end.

Definition startsWith (p s : list ascii) : bool :=
  bool_decide (take (List.length p) s = p).

Definition parseUnsigned (negative : bool) (s : list ascii) : jsnum :=
  if startsWith (list_ascii_of_string "Infinity") s then Inf negative
  else
    let '(ip, r1) := takeDigits s in
    let '(fp, r2, wellFormed) :=
      match r1 with
      | c :: r =>
          if Ascii.eqb c "." then
            let '(fp, r2) := takeDigits r in
            (fp, r2, negb (bool_decide (ip = []))
                     || negb (bool_decide (fp = [])))
          else ([], r1, negb (bool_decide (ip = [])))
      | [] => ([], r1, negb (bool_decide (ip = [])))
      end in
    if wellFormed then
      let mantissa :=
        inject_Z (digitsValue (ip ++ fp))
        / inject_Z (10 ^ Z.of_nat (List.length fp)) in
      let value := mantissa * Qpower (10 # 1) (exponentOf r2) in
      Num (if negative then - value else value)
    else NaN.

Definition parseFloat (s : string) : jsnum :=
  match skipWhiteSpace (list_ascii_of_string s) with
  | c :: rest =>
      if Ascii.eqb c "+" then parseUnsigned false rest
      else if Ascii.eqb c "-" then parseUnsigned true rest
      else parseUnsigned false (c :: rest)
  | [] => NaN
  end.

(** The text [parseCoordinateInput] returns: either the template string
    [`${lon},${lat}`], kept as its two numbers, or the input itself.  The
    message of the error it throws is kept without the two numbers the
    code appends to it. *)
Inductive CoordText : Type :=
| LonLat (lon lat : jsnum)
| Unchanged (input : string).

Definition parseCoordinateInput (input : string) : outcome CoordText :=
  let trimmed := trim input in
  if includesComma trimmed then
    let parts := map trim (splitComma trimmed) in
    match parts with
    | [part0; part1] =>
        let lat := parseFloat part0 in
        let lon := parseFloat part1 in
        if negb (isNaN lat) && negb (isNaN lon) then
          if geq lat (-90) && leq lat 90 && geq lon (-180) && leq lon 180
          then Returns (LonLat lon lat)
          else Throws "Invalid coordinates: lat must be -90 to 90, lon must be -180 to 180"
        else Returns (Unchanged input)
    | _ => Returns (Unchanged input)
    end
  else Returns (Unchanged input).

Definition isCoordinates (input : string) : bool :=
  let trimmed := trim input in
  let parts := splitComma trimmed in
  match parts with
  | [part0; part1] =>
      let first := parseFloat (trim part0) in
      let second := parseFloat (trim part1) in
      if isNaN first || isNaN second then false
      else
        let isLatLon :=
          geq first (-90) && leq first 90
          && geq second (-180) && leq second 180 in
        let isLonLat :=
          geq second (-90) && leq second 90
          && geq first (-180) && leq first 180 in
        isLatLon || isLonLat
  | _ => false
  end.

(** The origin step of [handleFormSubmit]: coordinates are parsed,
    anything else goes to the geocoder. *)
Definition resolveLocation (geocodeAddress : string -> outcome CoordText)
    (input : string) : outcome CoordText :=
  if isCoordinates input then parseCoordinateInput input
  else geocodeAddress input.

End CoordInput.

(** ** Pitch angle ([calculatePitch]) *)

Module Pitch.
Import Geodesy.
#[local] Open Scope R_scope.


End Pitch.

(** ** Geocoding, routing and the submit handler
       ([geocodeAddress], [getRouteCoordinates], [handleFormSubmit]) *)

Module Pipeline.
Import Selector CoordInput Orchestrator.

(** One entry of the geocoder's answer, with the two fields the code
    inserts into the template string. *)
Record GeocodeHit : Type := { hit_lon : string; hit_lat : string }.

(** The geocoder's response; a body that is [null] or has no [length]
    is [None]. *)
Record GeocodeResponse : Type := {
  geocode_ok : bool;
  geocode_statusText : string;
  geocode_json : settled (option (list GeocodeHit))
}.

(** The geocoder as seen through [fetch], keyed by the address. *)
Definition Geocoder : Type := string -> settled GeocodeResponse.

(** [geocodeAddress(address)]; the string it returns is not one of the
    two-number templates of [parseCoordinateInput] and is kept as
    text. *)
Definition geocodeAddress (fetch : Geocoder) (address : string)
  : outcome CoordText :=
  response ← await (fetch address);
  if negb (geocode_ok response)
  then Throws ("Geocoding failed: " +:+ geocode_statusText response)
  else
    result ← await (geocode_json response);
    match result with
    | Some (hit :: _) =>
        Returns (Unchanged (hit_lon hit +:+ "," +:+ hit_lat hit))
    | _ => Throws ("Could not geocode address: " +:+ address)
    end.

(** The routing service's body, with the fields the code reads;
    [routes] holds the [geometry] of each route. *)
Record RouteBody : Type := {
  code : option string;
  message : option string;
  routes : option (list (option string))
}.

Record RouteResponse : Type := {
  route_ok : bool;
  route_statusText : string;
  route_text : settled string;
  route_json : settled (option RouteBody)
}.

(** The routing service as seen through [fetch], keyed by the two
    coordinate strings of the URL. *)
Definition Router : Type := CoordText -> CoordText -> settled RouteResponse.

(** [getRouteCoordinates(origin, destination)].  Reading a field of a
    [null] body, or the length of a missing geometry, throws. *)
Definition getRouteCoordinates (fetch : Router)
    (origin destination : CoordText) : outcome (list (Q * Q)) :=
  response ← await (fetch origin destination);
  if negb (route_ok response) then
    errorText ← await (route_text response);
    Throws ("Route request failed: " +:+ route_statusText response
            +:+ ". Please check coordinates format.")
  else
    data ← await (route_json response);
    match data with
    | None => Throws "TypeError"
    | Some data =>
        if negb (bool_decide (code data = Some "Ok"%string)) then
          Throws ("OSRM Error: " +:+
                  (if truthy_string (message data)
                   then default ""%string (message data)
                   else "Unknown routing error"))
        else
          match routes data with
          | Some (geometry :: _) =>
              match geometry with
              | Some encodedPolyline => Polyline.decode encodedPolyline 5
              | None => Throws "TypeError"
              end
          | _ => Returns []
          end
    end.

Record RouteFormData : Type := { origin : string; destination : string }.

(** The component state as the handler writes it -- [images] and
    [coordinates] as one snapshot, and [showSlideshow], which is [true]
    once the handler has opened the slideshow (closing it again is the
    user's [handleCloseSlideshow], which also sets the flag that
    [cancelled] reads) -- and the message of the [alert] the handler
    raised, if any. *)
Record AppState : Type := {
  shown : Snapshot;
  showSlideshow : bool;
  alert : option string
}.

(** A decoded [[lat, lng]] pair as a point of the geodesy code. *)
Definition toPoint (c : Q * Q) : Geodesy.Point := (Q2R (fst c), Q2R (snd c)).

Section Handler.
Variables (geocoder : Geocoder) (router : Router) (provider : Provider).
Variable cancelled : nat -> bool.

(** The steps of the [try] block up to the route. *)
Definition routePhase (formData : RouteFormData) : outcome (list (Q * Q)) :=
  originCoords ← resolveLocation (geocodeAddress geocoder) (origin formData);
  destCoords ←
    resolveLocation (geocodeAddress geocoder) (destination formData);
  getRouteCoordinates router originCoords destCoords.

(** [handleFormSubmit(formData)]: the state is cleared, the route is
    fetched and sampled every 50 metres, the slideshow is opened and the
    image phase runs; an exception anywhere is caught and shown as an
    alert.  [fuel] bounds the loop of the sampler. *)
Definition handleFormSubmit (fuel : nat) (formData : RouteFormData)
  : outcome AppState :=
  let cleared := publish emptyAccumulators in
  match routePhase formData with
  | Throws e =>
      Returns {| shown := cleared; showSlideshow := false;
                 alert := Some ("Error: " +:+ e) |}
  | OutOfFuel => OutOfFuel
  | Returns routeCoords =>
      if (List.length routeCoords =? 0)%nat then
        Returns {| shown := cleared; showSlideshow := false;
                   alert := Some "No route found between these locations"%string |}
      else
        match
          Sampler.generateEvenlySpacedPoints fuel (toPoint <$> routeCoords) 50
        with
        | Throws e =>
            Returns {| shown := cleared; showSlideshow := false;
                       alert := Some ("Error: " +:+ e) |}
        | OutOfFuel => OutOfFuel
        | Returns spacedPoints =>
            match fetchImages provider cancelled spacedPoints with
            | (snapshot, Returns _) =>
                Returns {| shown := snapshot; showSlideshow := true;
                           alert := None |}
            | (snapshot, Throws e) =>
                Returns {| shown := snapshot; showSlideshow := true;
                           alert := Some ("Error: " +:+ e) |}
            | (_, OutOfFuel) => OutOfFuel
            end
        end
  end.

End Handler.

End Pipeline.

(** ** Slideshow index ([src/components/ImageSlideshow.tsx]) *)

Module Slideshow.
#[local] Open Scope Z_scope.

(** [currentIndex] is a number that is an integer or, after a remainder
    by zero, [NaN] ([None]).  [imagesLength] is [images.length] as the
    closure at hand sees it. *)

(** [a % b] on integers: the remainder has the sign of the dividend, and
    is [NaN] for a zero divisor. *)
Definition jsRem (a : option Z) (b : Z) : option Z :=
  match a with
  | Some a => if b =? 0 then None else Some (Z.rem a b)
  | None => None
  end.

(** The updater of the playback interval. *)
Definition playbackTick (imagesLength : Z) (isLoading : bool)
    (prev : option Z) : option Z :=
  let currentLength := imagesLength in
  if currentLength =? 0 then prev
  else
    let nextIndex := (fun p => p + 1) <$> prev in
    if Polyline.geNum nextIndex currentLength then
      if isLoading then prev else Some 0
    else nextIndex.

(** The effect that keeps [currentIndex] in bounds. *)
Definition keepInBounds (imagesLength : Z) (currentIndex : option Z)
  : option Z :=
  if (0 <? imagesLength) && Polyline.geNum currentIndex imagesLength
  then Some (imagesLength - 1)
  else currentIndex.

Definition handlePrevious (imagesLength : Z) (prev : option Z) : option Z :=
  jsRem ((fun p => p - 1 + imagesLength) <$> prev) imagesLength.

Definition handleNext (imagesLength : Z) (prev : option Z) : option Z :=
  jsRem ((fun p => p + 1) <$> prev) imagesLength.

(** [images[currentIndex]]: [undefined] for [NaN] and for an index
    outside the array. *)
Definition imageAt {A} (images : list A) (currentIndex : option Z)
  : option A :=
  match currentIndex with
  | Some i => if 0 <=? i then images !! Z.to_nat i else None
  | None => None
  end.

End Slideshow.

(** ** Map tiles under the position marker ([MapTile]) *)

Module MapTile.
#[local] Open Scope R_scope.







End MapTile.

(** ** Properties of the polyline decoder *)

Module PolylineFacts.
Import Polyline.

Lemma charCodeAt_past_end str i :
  (String.length str <= i)%nat -> charCodeAt str i = None.
Proof.
  unfold charCodeAt. revert i.
  induction str as [|a str IH]; intros i Hi; simpl in *.
  - reflexivity.
  - destruct i as [|i]; [lia|]. apply IH. lia.
Qed.

(** The inner loop always finishes: it stops at the latest when it
    reads past the end of the string. *)
Lemma readGroup_returns str : forall fuel index shift result,
  (String.length str <= index + fuel)%nat ->
  exists index' result',
    readGroup (S fuel) str index shift result = Returns (index', result')
    /\ (index < index')%nat.
Proof.
  induction fuel as [|fuel IH]; intros index shift result Hlen.
  - cbn [readGroup]. rewrite charCodeAt_past_end by lia.
    cbn. eexists _, _. split; [reflexivity | lia].
  - cbn [readGroup].
    destruct (geNum _ 32).
    + destruct (IH (S index) (shift + 5)
        (jsOr result (jsShl (jsAnd (toInt32_num
           ((fun c => c - 63) <$> charCodeAt str index)) 31) shift)))
        as (i' & r' & Hrun & Hlt); [lia|].
      exists i', r'. split; [exact Hrun | lia].
    + eexists _, _. split; [reflexivity | lia].
Qed.

(** The outer loop always finishes, and each iteration it starts adds
    one coordinate pair. *)
Lemma decodeLoop_returns str factor : forall fuel index lat lng coords,
  (String.length str <= index + fuel)%nat ->
  exists cs,
    decodeLoop (S fuel) str factor index lat lng coords = Returns cs
    /\ (List.length coords <= List.length cs)%nat
    /\ ((index < String.length str)%nat ->
        (List.length coords < List.length cs)%nat).
Proof.
  induction fuel as [|fuel IH]; intros index lat lng coords Hlen.
  - cbn [decodeLoop].
    destruct (Nat.ltb_spec index (String.length str)) as [Hlt|Hge]; [lia|].
    exists coords. repeat split; [lia | lia].
  - remember (S fuel) as fuel1 eqn:Hfuel1.
    cbn [decodeLoop]. subst fuel1.
    destruct (Nat.ltb_spec index (String.length str)) as [Hlt|Hge].
    + destruct (readGroup_returns str (String.length str) index 0 0)
        as (i1 & r1 & Hrun1 & Hlt1); [lia|].
      rewrite Hrun1. cbn [mbind outcome_bind].
      destruct (readGroup_returns str (String.length str) i1 0 0)
        as (i2 & r2 & Hrun2 & Hlt2); [lia|].
      rewrite Hrun2. cbn [mbind outcome_bind].
      match goal with
      | |- context [decodeLoop (S fuel) str factor i2 ?la ?ln ?cs'] =>
          destruct (IH i2 la ln cs') as (cs & Hrun & Hle & _); [lia|]
      end.
      exists cs. rewrite length_app in Hle. cbn in Hle.
      repeat split; [exact Hrun | lia | lia].
    + exists coords. repeat split; [lia | lia].
Qed.

Lemma decode_total str precision :
  exists cs, decode str precision = Returns cs.
Proof.
  unfold decode.
  destruct (decodeLoop_returns str (Qpower (10 # 1) precision)
              (String.length str) 0%nat 0 0 []) as (cs & Hrun & _); [lia|].
  exists cs. exact Hrun.
Qed.

(** The canonical example of the encoding: three points at precision 5. *)
Example decode_reference_vector :
  decode "_p~iF~ps|U_ulLnnqC_mqNvxq`@" 5 =
  Returns [((3850000 # 100000)%Q, (-12020000 # 100000)%Q);
           ((4070000 # 100000)%Q, (-12095000 # 100000)%Q);
           ((4325200 # 100000)%Q, (-12645300 # 100000)%Q)].
Proof. vm_compute. reflexivity. Qed.

(** The one-character string ["_"] (code 95, i.e. chunk [0x20]: a
    continuation bit and nothing after it) ends mid-group. *)
Lemma underscore_endsMidGroup : endsMidGroup "_".
Proof. exists 95. split; [reflexivity | lia]. Qed.

Example decode_underscore :
  decode "_" 5 = Returns [((0 # 100000)%Q, (0 # 100000)%Q)].
Proof. vm_compute. reflexivity. Qed.

(** C4, as stated, fails: on a string that ends in the middle of a byte
    group the decoder does not raise; [charCodeAt] past the end yields
    [NaN], which contributes a zero chunk and ends the group, so
    [decode "_"] returns the one-point sequence [[0, 0]]. *)
Lemma C4_truncated_input_does_not_raise :
  ~ (forall str precision,
        endsMidGroup str -> exists e, decode str precision = Throws e).
Proof.
  intros Hclaim.
  destruct (Hclaim "_"%string 5 underscore_endsMidGroup) as [e He].
  vm_compute in He. discriminate He.
Qed.

(** C4 (amended): [decode] never raises.  For every input string --
    also one that ends in the middle of a byte group -- it returns a
    coordinate sequence; the sequence is empty for the empty string and
    non-empty for a string that ends mid-group. *)
Theorem C4_decode_returns_on_every_input :
  forall str precision,
    exists cs, decode str precision = Returns cs
               /\ (str = ""%string -> cs = [])
               /\ (endsMidGroup str -> cs <> []).
Proof.
  intros str precision. unfold decode.
  destruct (decodeLoop_returns str (Qpower (10 # 1) precision)
              (String.length str) 0%nat 0 0 [])
    as (cs & Hrun & _ & Hgrow); [lia|].
  exists cs. split; [exact Hrun|]. split.
  - intros ->. cbn in Hrun. congruence.
  - intros (c & Hc & _) ->.
    destruct str as [|a str]; [discriminate Hc|].
    cbn in Hgrow. lia.
Qed.

End PolylineFacts.

(** ** Properties of the coordinate input *)

Module CoordInputFacts.
Import CoordInput.

(** Both functions test the same range predicate on the two numbers,
    [isCoordinates] in either order. *)
Definition inLatLonRange (lat lon : jsnum) : bool :=
  geq lat (-90) && leq lat 90 && geq lon (-180) && leq lon 180.

Lemma splitFrom_without_comma : forall s current,
  existsb (Ascii.eqb ",") s = false ->
  exists part, splitFrom current s = [part].
Proof.
  induction s as [|c s IH]; intros current Hno;
    cbn [existsb splitFrom] in *.
  - eexists. reflexivity.
  - apply orb_false_iff in Hno as [Hc Hs].
    rewrite Ascii.eqb_sym, Hc. apply (IH (c :: current) Hs).
Qed.

Lemma two_parts_include_comma s p0 p1 :
  splitComma s = [p0; p1] -> includesComma s = true.
Proof.
  unfold splitComma, includesComma. intros Hsplit.
  destruct (existsb (Ascii.eqb ",") (list_ascii_of_string s)) eqn:Hex;
    [reflexivity|].
  destruct (splitFrom_without_comma _ [] Hex) as [part Hpart].
  rewrite Hpart in Hsplit. discriminate Hsplit.
Qed.

(** The input ["120,45"] is classified as coordinates (it fits as
    lon,lat), yet parsing it raises. *)
Example lon_lat_input_classified : isCoordinates "120,45" = true.
Proof. vm_compute. reflexivity. Qed.

Example lon_lat_input_rejected :
  exists e, parseCoordinateInput "120,45" = Throws e.
Proof. eexists. vm_compute. reflexivity. Qed.

(** C7, as stated, fails: an input classified as already-coordinates
    need not parse; ["120,45"] is accepted by [isCoordinates] in the
    lon,lat reading and rejected by [parseCoordinateInput] with the
    invalid-coordinates error. *)
Lemma C7_classified_input_can_fail_to_parse :
  ~ (forall input, isCoordinates input = true ->
       exists lon lat, parseCoordinateInput input = Returns (LonLat lon lat)).
Proof.
  intros Hclaim.
  destruct (Hclaim "120,45"%string lon_lat_input_classified)
    as (lon & lat & Hparse).
  vm_compute in Hparse. discriminate Hparse.
Qed.

(** C7 (amended): an input classified as already-coordinates consists
    of two numeric parts [first], [second].  When they are in range as
    lat,lon, parsing succeeds and yields them swapped into the lon,lat
    order used downstream; otherwise they are in range only as lon,lat
    and parsing raises the invalid-coordinates error. *)
Theorem C7_parse_of_classified_input :
  forall input, isCoordinates input = true ->
    exists part0 part1,
      splitComma (trim input) = [part0; part1] /\
      let first := parseFloat (trim part0) in
      let second := parseFloat (trim part1) in
      isNaN first = false /\ isNaN second = false /\
      ((inLatLonRange first second = true /\
        parseCoordinateInput input = Returns (LonLat second first))
       \/
       (inLatLonRange first second = false /\
        inLatLonRange second first = true /\
        exists e, parseCoordinateInput input = Throws e)).
Proof.
  intros input Hclass. unfold isCoordinates in Hclass.
  destruct (splitComma (trim input)) as [|part0 [|part1 [|? ?]]] eqn:Hsplit;
    try discriminate Hclass.
  exists part0, part1. split; [reflexivity|]. cbn zeta.
  destruct (isNaN (parseFloat (trim part0))) eqn:Hn0;
    [discriminate Hclass|].
  destruct (isNaN (parseFloat (trim part1))) eqn:Hn1;
    [discriminate Hclass|].
  cbn [orb] in Hclass.
  split; [reflexivity|]. split; [reflexivity|].
  unfold parseCoordinateInput.
  rewrite (two_parts_include_comma _ _ _ Hsplit), Hsplit.
  cbn [map]. rewrite Hn0, Hn1. cbn [negb andb].
  fold (inLatLonRange (parseFloat (trim part0)) (parseFloat (trim part1))).
  fold (inLatLonRange (parseFloat (trim part0)) (parseFloat (trim part1)))
    in Hclass.
  destruct (inLatLonRange (parseFloat (trim part0))
              (parseFloat (trim part1))) eqn:Hrange.
  - left. split; reflexivity.
  - right. split; [reflexivity|]. split; [|eexists; reflexivity].
    cbn [orb] in Hclass. unfold inLatLonRange.
    rewrite <- Hclass.
    destruct (geq (parseFloat (trim part1)) (-90)),
             (leq (parseFloat (trim part1)) 90),
             (geq (parseFloat (trim part0)) (-180)),
             (leq (parseFloat (trim part0)) 180); reflexivity.
Qed.

Lemma C7_parse_of_classified_input_witness :
  exists part0 part1,
    splitComma (trim "38.5,-120.2") = [part0; part1] /\
    let first := parseFloat (trim part0) in
    let second := parseFloat (trim part1) in
    isNaN first = false /\ isNaN second = false /\
    ((inLatLonRange first second = true /\
      parseCoordinateInput "38.5,-120.2" = Returns (LonLat second first))
     \/
     (inLatLonRange first second = false /\
      inLatLonRange second first = true /\
      exists e, parseCoordinateInput "38.5,-120.2" = Throws e)).
Proof.
  apply (C7_parse_of_classified_input "38.5,-120.2"%string).
  vm_compute. reflexivity.
Defined.

End CoordInputFacts.

(** ** Properties of the image selector *)

Module SelectorFacts.
Import Selector.
#[local] Open Scope R_scope.

Section ScanInvariant.
Variables (lat lon heading : R).

#[local] Abbreviation score_of := (candidateScore lat lon heading).

(** What the loop variables say about the candidates seen so far. *)
Definition scanned (seen : list ApiImage)
    (st : option ApiImage * score_bound) : Prop :=
  match st with
  | (None, bound) =>
      bound = Infinity /\ forall c, c ∈ seen -> score_of c = None
  | (Some best, bound) =>
      exists pre post score,
        seen = pre ++ best :: post /\
        bound = Finite score /\
        score_of best = Some score /\
        (forall c sc, c ∈ pre -> score_of c = Some sc -> score < sc) /\
        (forall c sc, c ∈ post -> score_of c = Some sc -> score <= sc)
  end.

Lemma scanned_step seen st image :
  scanned seen st ->
  scanned (seen ++ [image]) (scanStep lat lon heading st image).
Proof.
  destruct st as [[best|] bound]; cbn [scanned scanStep].
  - intros (pre & post & score & -> & -> & Hbest & Hpre & Hpost).
    destruct (score_of image) as [sc|] eqn:Hsc.
    + cbn [below]. case_bool_decide as Hlt.
      * exists (pre ++ best :: post), [], sc.
        repeat split; [done | |].
        -- intros c sc' Hin Hc.
           apply elem_of_app in Hin as [Hin|Hin].
           ++ specialize (Hpre c sc' Hin Hc). lra.
           ++ apply elem_of_cons in Hin as [->|Hin].
              ** rewrite Hbest in Hc. injection Hc as <-. lra.
              ** specialize (Hpost c sc' Hin Hc). lra.
        -- intros c sc' Hin. apply elem_of_nil in Hin. contradiction.
      * exists pre, (post ++ [image]), score.
        rewrite <- app_assoc. repeat split; [done | |]; [exact Hpre|].
        intros c sc' Hin Hc.
        apply elem_of_app in Hin as [Hin|Hin].
        -- exact (Hpost c sc' Hin Hc).
        -- apply list_elem_of_singleton in Hin as ->.
           rewrite Hsc in Hc. injection Hc as <-. lra.
    + exists pre, (post ++ [image]), score.
      rewrite <- app_assoc. repeat split; [done | |]; [exact Hpre|].
      intros c sc' Hin Hc.
      apply elem_of_app in Hin as [Hin|Hin].
      * exact (Hpost c sc' Hin Hc).
      * apply list_elem_of_singleton in Hin as ->. congruence.
  - intros [-> Hnone].
    destruct (score_of image) as [sc|] eqn:Hsc.
    + cbn [below]. exists seen, [], sc.
      repeat split; [done | |].
      * intros c sc' Hin Hc. rewrite (Hnone c Hin) in Hc. discriminate.
      * intros c sc' Hin. apply elem_of_nil in Hin. contradiction.
    + split; [reflexivity|]. intros c Hin.
      apply elem_of_app in Hin as [Hin|Hin]; [exact (Hnone c Hin)|].
      apply list_elem_of_singleton in Hin as ->. exact Hsc.
Qed.

Lemma scanned_fold : forall rest seen st,
  scanned seen st ->
  scanned (seen ++ rest) (fold_left (scanStep lat lon heading) rest st).
Proof.
  induction rest as [|image rest IH]; intros seen st Hst; cbn [fold_left].
  - rewrite app_nil_r. exact Hst.
  - replace (seen ++ image :: rest) with ((seen ++ [image]) ++ rest)
      by (rewrite <- app_assoc; reflexivity).
    apply IH, scanned_step, Hst.
Qed.

Lemma scanned_all candidates :
  scanned candidates (scanCandidates lat lon heading candidates).
Proof.
  apply (scanned_fold candidates [] (None, Infinity)).
  split; [reflexivity|]. intros c Hin.
  apply elem_of_nil in Hin. contradiction.
Qed.

End ScanInvariant.


(** The two candidates of the scoring example: [A] is 0.00015 degrees
    north of the target and 10 degrees off the heading, [B] 0.00019
    degrees north and 5 degrees off. *)
Definition candidateA : ApiImage :=
  {| id := "A";
     is_pano := false;
     thumb_2048_url := Some "https://example.org/a.jpg"%string;
     geometry := Some {| coordinates := Some (0, 0.00015) |};
     computed_compass_angle := Some 10 |}.

Definition candidateB : ApiImage :=
  {| id := "B";
     is_pano := false;
     thumb_2048_url := Some "https://example.org/b.jpg"%string;
     geometry := Some {| coordinates := Some (0, 0.00019) |};
     computed_compass_angle := Some 5 |}.

Lemma score_north_of_target d angle url name :
  0 <= d <= 0.0002 -> 0 < angle <= 45 -> url <> ""%string ->
  candidateScore 0 0 0
    {| id := name; is_pano := false; thumb_2048_url := Some url;
       geometry := Some {| coordinates := Some (0, d) |};
       computed_compass_angle := Some angle |}
  = Some (angle * 3 + d * 10000).
Proof.
  intros Hd Hangle Hurl. unfold candidateScore. cbn [is_pano thumb_2048_url].
  unfold truthy_string. rewrite (proj2 (String.eqb_neq url "") Hurl).
  cbn [negb orb].
  unfold distanceStage, geometry_coordinates. cbn [geometry coordinates mbind option_bind].
  replace ((d - 0) ^ 2 + (0 - 0) ^ 2) with (d ^ 2) by ring.
  rewrite sqrt_pow2 by lra.
  rewrite bool_decide_eq_false_2 by lra. cbn [mbind option_bind].
  unfold headingStage, rejectedByCompassCheck, truthy_number.
  cbn [computed_compass_angle].
  rewrite bool_decide_eq_true_2 by (intros H; lra). cbn [negb].
  replace (angle - 0) with angle by ring.
  rewrite Rabs_pos_eq by lra.
  rewrite (bool_decide_eq_false_2 (angle > 180)) by lra.
  rewrite (bool_decide_eq_false_2 (angle > 45)) by lra.
  reflexivity.
Qed.

Example scoring_example :
  candidateScore 0 0 0 candidateA = Some 31.5 /\
  candidateScore 0 0 0 candidateB = Some 16.9 /\
  selectBestImage 0 0 0 [candidateA; candidateB] = Some candidateB.
Proof.
  assert (HA : candidateScore 0 0 0 candidateA = Some (10 * 3 + 0.00015 * 10000)).
  { apply score_north_of_target; [lra | lra | discriminate]. }
  assert (HB : candidateScore 0 0 0 candidateB = Some (5 * 3 + 0.00019 * 10000)).
  { apply score_north_of_target; [lra | lra | discriminate]. }
  split; [rewrite HA; f_equal; lra|].
  split; [rewrite HB; f_equal; lra|].
  unfold selectBestImage, scanCandidates. cbn [fold_left].
  replace (scanStep 0 0 0 (None, Infinity) candidateA)
    with (Some candidateA, Finite (10 * 3 + 0.00015 * 10000))
    by (unfold scanStep; rewrite HA; reflexivity).
  unfold scanStep. rewrite HB. cbn [below].
  rewrite bool_decide_eq_true_2 by lra. reflexivity.
Qed.

(** *** The compass-angle check *)

(** [!image.computed_compass_angle] is true for a missing angle and for
    the angle 0. *)
Lemma compass_check_rejects image :
  rejectedByCompassCheck image = true <->
  computed_compass_angle image = None \/
  computed_compass_angle image = Some 0.
Proof.
  unfold rejectedByCompassCheck, truthy_number.
  destruct (computed_compass_angle image) as [angle|].
  - case_bool_decide as Hnz; cbn [negb]; split.
    + discriminate.
    + intros [Hnone|Hzero]; [discriminate Hnone|].
      injection Hzero as ->. contradiction Hnz. reflexivity.
    + intros _. right. f_equal.
      destruct (decide (angle = 0)) as [->|Hne]; [reflexivity|].
      contradiction.
    + reflexivity.
  - cbn. split; [intros _; left; reflexivity | reflexivity].
Qed.

Lemma rejected_candidate_has_no_score lat lon heading image :
  rejectedByCompassCheck image = true ->
  candidateScore lat lon heading image = None.
Proof.
  intros Hrej. unfold candidateScore.
  destruct (is_pano image || negb (truthy_string (thumb_2048_url image)));
    [reflexivity|].
  destruct (distanceStage lat lon image); [|reflexivity].
  cbn. unfold headingStage. rewrite Hrej. reflexivity.
Qed.

(** A well-formed candidate taken exactly at the target and facing due
    north, reported as compass angle 0. *)
Definition northFacing : ApiImage :=
  {| id := "north";
     is_pano := false;
     thumb_2048_url := Some "https://example.org/north.jpg"%string;
     geometry := Some {| coordinates := Some (0, 0) |};
     computed_compass_angle := Some 0 |}.

(** C8 (the code at the failing input): a candidate that does report a
    compass angle, namely exactly 0 degrees, is rejected by
    [if (!image.computed_compass_angle) continue;] -- the number 0 is
    falsy -- so a lookup for heading 0 whose only candidate is that
    image finds nothing. *)
Theorem C8_zero_compass_angle_is_rejected :
  computed_compass_angle northFacing = Some 0 /\
  rejectedByCompassCheck northFacing = true /\
  selectBestImage 0 0 0 [northFacing] = None.
Proof.
  assert (Hrej : rejectedByCompassCheck northFacing = true).
  { apply compass_check_rejects. right. reflexivity. }
  split; [reflexivity|]. split; [exact Hrej|].
  unfold selectBestImage, scanCandidates. cbn [fold_left scanStep].
  rewrite (rejected_candidate_has_no_score 0 0 0 northFacing Hrej).
  reflexivity.
Qed.

(** *** Candidates without geometry *)

(** C10: a candidate whose record lacks geometry coordinates passes the
    distance stage with the default planar distance 0.0001 (the
    threshold test is not applied to it), is scored with that value,
    and -- when it passes the other filters -- is selected. *)
Theorem C10_missing_geometry_uses_default_distance :
  forall lat lon heading image,
    geometry_coordinates image = None ->
    distanceStage lat lon image = Some 0.0001 /\
    forall headingDiff,
      is_pano image = false ->
      truthy_string (thumb_2048_url image) = true ->
      headingStage heading image = Some headingDiff ->
      candidateScore lat lon heading image
        = Some (headingDiff * 3 + 0.0001 * 10000) /\
      selectBestImage lat lon heading [image] = Some image.
Proof.
  intros lat lon heading image Hnogeo.
  assert (Hdist : distanceStage lat lon image = Some 0.0001).
  { unfold distanceStage. rewrite Hnogeo. reflexivity. }
  split; [exact Hdist|].
  intros headingDiff Hpano Hthumb Hheading.
  assert (Hscore : candidateScore lat lon heading image
                   = Some (headingDiff * 3 + 0.0001 * 10000)).
  { unfold candidateScore. rewrite Hpano, Hthumb, Hdist, Hheading.
    reflexivity. }
  split; [exact Hscore|].
  unfold selectBestImage, scanCandidates. cbn [fold_left scanStep].
  rewrite Hscore. reflexivity.
Qed.

(** A candidate without geometry, facing east. *)
Definition noGeometry : ApiImage :=
  {| id := "nogeo";
     is_pano := false;
     thumb_2048_url := Some "https://example.org/east.jpg"%string;
     geometry := None;
     computed_compass_angle := Some 90 |}.

Lemma C10_missing_geometry_uses_default_distance_witness :
  geometry_coordinates noGeometry = None /\
  distanceStage 0 0 noGeometry = Some 0.0001 /\
  forall headingDiff,
    is_pano noGeometry = false ->
    truthy_string (thumb_2048_url noGeometry) = true ->
    headingStage 90 noGeometry = Some headingDiff ->
    candidateScore 0 0 90 noGeometry
      = Some (headingDiff * 3 + 0.0001 * 10000) /\
    selectBestImage 0 0 90 [noGeometry] = Some noGeometry.
Proof.
  split; [reflexivity|].
  apply (C10_missing_geometry_uses_default_distance 0 0 90 noGeometry).
  reflexivity.
Defined.

(** The hypotheses of the second part are satisfiable: for heading 90
    the candidate above survives with heading difference 0. *)
Example noGeometry_heading : headingStage 90 noGeometry = Some 0.
Proof.
  unfold headingStage, rejectedByCompassCheck, truthy_number.
  cbn [computed_compass_angle noGeometry].
  rewrite bool_decide_eq_true_2 by (intros H; lra). cbn [negb].
  replace (90 - 90) with 0 by lra. rewrite Rabs_R0.
  rewrite (bool_decide_eq_false_2 (0 > 180)) by lra.
  rewrite (bool_decide_eq_false_2 (0 > 45)) by lra. reflexivity.
Qed.

End SelectorFacts.

(** ** Facts about [atan2] and the remainder operator *)

Module TrigFacts.
Import JsMath.
#[local] Open Scope R_scope.

(** Settle the comparisons of a piecewise definition by arithmetic. *)
Ltac settle_cases :=
  repeat match goal with
         | |- context [decide ?P] =>
             destruct (decide P); try (exfalso; nra)
         end.

Lemma tan_shift_PI t : cos t <> 0 -> tan (t + PI) = tan t.
Proof.
  intros Hc. unfold tan. rewrite neg_sin, neg_cos. field. exact Hc.
Qed.

Lemma scaled_ratio r s c : 0 < r -> c <> 0 -> r * s / (r * c) = s / c.
Proof. intros Hr Hc. field. split; lra. Qed.

(** [atan2] recovers the angle of a point given in polar form. *)
Lemma atan2_polar r t :
  0 < r -> - PI < t <= PI -> atan2 (r * sin t) (r * cos t) = t.
Proof.
  intros Hr [Hlo Hhi]. pose proof PI_RGT_0 as Hpi. unfold atan2.
  destruct (Rtotal_order t (- (PI / 2))) as [Ht|[Ht|Ht]].
  - (* third quadrant *)
    assert (Hc : cos t < 0).
    { assert (0 < cos (t + PI)) by (apply cos_gt_0; lra).
      rewrite neg_cos in H. lra. }
    assert (Hs : sin t < 0) by (apply sin_lt_0_var; lra).
    destruct (decide (0 < r * cos t)); [exfalso; nra|].
    destruct (decide (r * cos t < 0)); [|exfalso; nra].
    destruct (decide (0 <= r * sin t)); [exfalso; nra|].
    rewrite scaled_ratio by lra. fold (tan t).
    rewrite <- tan_shift_PI by lra.
    rewrite atan_tan by lra. lra.
  - (* straight down *)
    subst t. rewrite cos_neg, sin_neg, cos_PI2, sin_PI2.
    replace (r * 0) with 0 by ring.
    settle_cases. reflexivity.
  - destruct (Rtotal_order t (PI / 2)) as [Ht'|[Ht'|Ht']].
    + (* right half-plane *)
      assert (Hc : 0 < cos t) by (apply cos_gt_0; lra).
      destruct (decide (0 < r * cos t)); [|exfalso; nra].
      rewrite scaled_ratio by lra. fold (tan t).
      apply atan_tan. lra.
    + (* straight up *)
      subst t. rewrite cos_PI2, sin_PI2.
      replace (r * 0) with 0 by ring.
      settle_cases. reflexivity.
    + (* second quadrant *)
      assert (Hc : cos t < 0) by (apply cos_lt_0; lra).
      assert (Hs : 0 <= sin t) by (apply sin_ge_0; lra).
      destruct (decide (0 < r * cos t)); [exfalso; nra|].
      destruct (decide (r * cos t < 0)); [|exfalso; nra].
      destruct (decide (0 <= r * sin t)); [|exfalso; nra].
      rewrite scaled_ratio by lra. fold (tan t).
      replace t with ((t - PI) + PI) at 1 by ring.
      rewrite tan_shift_PI.
      * rewrite atan_tan by lra. lra.
      * replace (t - PI) with (- (PI - t)) by ring. rewrite cos_neg.
        rewrite Rtrigo_facts.cos_pi_minus. lra.
Qed.

Lemma atan2_scale k y x : 0 < k -> atan2 (k * y) (k * x) = atan2 y x.
Proof.
  intros Hk. unfold atan2.
  destruct (Rtotal_order x 0) as [Hx|[Hx|Hx]].
  - rewrite (scaled_ratio k y x) by lra. settle_cases; reflexivity.
  - subst x. replace (k * 0) with 0 by ring. settle_cases; reflexivity.
  - rewrite (scaled_ratio k y x) by lra. settle_cases; reflexivity.
Qed.

(** Every point other than the origin has a polar form with its angle
    in (-PI, PI]. *)
Lemma polar_form x y :
  0 < x * x + y * y ->
  exists t, - PI < t <= PI /\
            x = sqrt (x * x + y * y) * cos t /\
            y = sqrt (x * x + y * y) * sin t.
Proof.
  intros Hpos. pose proof PI_RGT_0 as Hpi.
  set (rho := sqrt (x * x + y * y)).
  assert (Hrho : 0 < rho) by (apply sqrt_lt_R0; exact Hpos).
  assert (Hsq : rho * rho = x * x + y * y) by (apply sqrt_sqrt; lra).
  set (u := x / rho).
  assert (Hu2 : u * u + (y / rho) * (y / rho) = 1).
  { unfold u. field_simplify_eq; [|lra]. nra. }
  assert (Hu : -1 <= u <= 1) by nra.
  assert (Hsin : sin (acos u) = Rabs y / rho).
  { rewrite sin_acos by exact Hu.
    replace (1 - u²) with ((y / rho)²) by (unfold Rsqr; lra).
    rewrite sqrt_Rsqr_abs. unfold Rdiv. rewrite Rabs_mult.
    rewrite (Rabs_pos_eq (/ rho)); [reflexivity|].
    left. apply Rinv_0_lt_compat. exact Hrho. }
  assert (Hcos : cos (acos u) = u) by (apply cos_acos; exact Hu).
  destruct (Rle_lt_dec 0 y) as [Hy|Hy].
  - exists (acos u). pose proof (acos_bound u) as Hb.
    split; [lra|]. rewrite Hcos, Hsin. rewrite Rabs_pos_eq by exact Hy.
    unfold u. split; field; lra.
  - exists (- acos u).
    assert (Hlt : -1 < u < 1).
    { assert (0 < (y / rho) * (y / rho)).
      { assert (y / rho < 0).
        { assert (0 < / rho) by (apply Rinv_0_lt_compat; exact Hrho).
          unfold Rdiv. nra. }
        nra. }
      nra. }
    pose proof (acos_bound_lt u Hlt) as Hb.
    split; [lra|]. rewrite cos_neg, sin_neg, Hcos, Hsin.
    rewrite Rabs_left by exact Hy.
    unfold u. split; field; lra.
Qed.

(** Sine and cosine of the angle [atan2] returns. *)
Lemma sin_cos_atan2 y x :
  0 < x * x + y * y ->
  sin (atan2 y x) = y / sqrt (x * x + y * y) /\
  cos (atan2 y x) = x / sqrt (x * x + y * y) /\
  - PI < atan2 y x <= PI.
Proof.
  intros Hpos.
  destruct (polar_form x y Hpos) as (t & Ht & Hx & Hy).
  assert (Hrho : 0 < sqrt (x * x + y * y))
    by (apply sqrt_lt_R0; exact Hpos).
  remember (sqrt (x * x + y * y)) as rho eqn:Heq. clear Heq Hpos.
  assert (Hatan : atan2 y x = t).
  { rewrite Hx, Hy. apply atan2_polar; assumption. }
  rewrite Hatan. repeat split; try lra.
  - rewrite Hy. field. lra.
  - rewrite Hx. field. lra.
Qed.

(** *** The remainder operator on small arguments *)

Lemma Int_part_small x : 0 <= x < 1 -> Int_part x = 0%Z.
Proof. intros Hx. symmetry. apply Int_part_spec. cbn. lra. Qed.

Lemma Int_part_spec_2 : Int_part 2 = 2%Z.
Proof. symmetry. apply Int_part_spec. cbn. lra. Qed.

Lemma Int_part_one x : 1 <= x < 2 -> Int_part x = 1%Z.
Proof. intros Hx. symmetry. apply Int_part_spec. cbn. lra. Qed.

Lemma div_between a b lo hi :
  0 < b -> lo * b <= a < hi * b -> lo <= a / b < hi.
Proof.
  intros Hb Ha. assert (Hq : a = a / b * b) by (field; lra).
  remember (a / b) as q eqn:Heq. clear Heq. nra.
Qed.

Lemma rem_small a b : 0 <= a < b -> rem a b = a.
Proof.
  intros Ha. unfold rem, truncate.
  assert (Hq : 0 <= a / b < 1) by (apply div_between; lra).
  destruct (decide (0 <= a / b)); [|exfalso; lra].
  rewrite Int_part_small by exact Hq. cbn. lra.
Qed.

Lemma rem_once a b : 0 < b -> b <= a < 2 * b -> rem a b = a - b.
Proof.
  intros Hb Ha. unfold rem, truncate.
  assert (Hq : 1 <= a / b < 2) by (apply div_between; lra).
  destruct (decide (0 <= a / b)); [|exfalso; lra].
  rewrite Int_part_one by exact Hq. cbn. lra.
Qed.

End TrigFacts.

(** ** Basic facts about the great-circle functions *)

Module GeodesyFacts.
Import JsMath Geodesy TrigFacts.
#[local] Open Scope R_scope.

(** The haversine distance does not depend on the order of its
    arguments. *)
Lemma distance_sym p q : distance p q = distance q p.
Proof.
  destruct p as [lat1 lon1], q as [lat2 lon2]. unfold distance.
  cbn zeta.
  replace (toRadians (lat1 - lat2) / 2)
    with (- (toRadians (lat2 - lat1) / 2)) by (unfold toRadians; field).
  replace (toRadians (lon1 - lon2) / 2)
    with (- (toRadians (lon2 - lon1) / 2)) by (unfold toRadians; field).
  rewrite !sin_neg.
  set (u := sin (toRadians (lat2 - lat1) / 2)).
  set (v := sin (toRadians (lon2 - lon1) / 2)).
  replace (- u * - u + cos (toRadians lat2) * cos (toRadians lat1) * - v * - v)
    with (u * u + cos (toRadians lat1) * cos (toRadians lat2) * v * v)
    by ring.
  reflexivity.
Qed.

Lemma toRadians_toDegrees x : toRadians (toDegrees x) = x.
Proof. unfold toRadians, toDegrees. field. apply PI_neq0. Qed.

Lemma toDegrees_toRadians x : toDegrees (toRadians x) = x.
Proof. unfold toRadians, toDegrees. field. apply PI_neq0. Qed.

(** In polar form: the radius times the sine and cosine of the angle
    [atan2] returns give back the point, the origin included. *)
Lemma radius_sin_cos_atan2 y x :
  sqrt (x * x + y * y) * sin (atan2 y x) = y /\
  sqrt (x * x + y * y) * cos (atan2 y x) = x.
Proof.
  destruct (Rle_lt_dec (x * x + y * y) 0) as [Hzero|Hpos].
  - assert (Hx : x = 0) by nra. assert (Hy : y = 0) by nra. subst.
    replace (0 * 0 + 0 * 0) with 0 by ring. rewrite sqrt_0. lra.
  - destruct (sin_cos_atan2 y x Hpos) as (-> & -> & _).
    assert (0 < sqrt (x * x + y * y)) by (apply sqrt_lt_R0; exact Hpos).
    split; field; lra.
Qed.

Section RoundTrip.
Variables (lat lon b d : R).
Hypothesis not_a_pole : -90 < lat < 90.
Hypothesis bearing_range : 0 <= b < 360.
Hypothesis distance_range : 0 < d < PI * 6371.

Lemma round_trip_exact :
  calculateInitialCompassBearing (lat, lon)
    (calculateDestinationPoint (lat, lon) b d) = b.
Proof.
  pose proof PI_RGT_0 as Hpi.
  unfold calculateInitialCompassBearing, calculateDestinationPoint.
  cbn [fst snd].
  rewrite !toRadians_toDegrees.
  replace (toRadians (toDegrees (toRadians lon + _) - lon))
    with (atan2 (sin (toRadians b) * sin (d / 6371) * cos (toRadians lat))
            (cos (d / 6371) - sin (toRadians lat) *
               sin (asin (sin (toRadians lat) * cos (d / 6371) +
                   cos (toRadians lat) * sin (d / 6371) * cos (toRadians b)))))
    by (unfold toRadians, toDegrees; field; apply PI_neq0).
  set (phi := toRadians lat). set (theta := toRadians b).
  set (delta := d / 6371).
  assert (Hphi : - (PI / 2) < phi < PI / 2)
    by (unfold phi, toRadians; split; nra).
  assert (Htheta : 0 <= theta < 2 * PI)
    by (unfold theta, toRadians; split; nra).
  assert (Hdelta : 0 < delta < PI) by (unfold delta; split; lra).
  assert (Hc1 : 0 < cos phi) by (apply cos_gt_0; lra).
  assert (Hsd : 0 < sin delta) by (apply sin_gt_0; lra).
  pose proof (sin2_cos2 phi) as H1. unfold Rsqr in H1.
  pose proof (sin2_cos2 theta) as H2. unfold Rsqr in H2.
  pose proof (sin2_cos2 delta) as H3. unfold Rsqr in H3.
  set (s1 := sin phi) in *. set (c1 := cos phi) in *.
  set (st := sin theta) in *. set (ct := cos theta) in *.
  set (sd := sin delta) in *. set (cd := cos delta) in *.
  set (s2 := s1 * cd + c1 * sd * ct).
  set (A' := sd * st). set (B' := c1 * cd - s1 * sd * ct).
  assert (Hid : A' * A' + B' * B' = 1 - s2 * s2).
  { assert (E : A' * A' + B' * B' - (1 - s2 * s2)
                = (s1 * s1 + c1 * c1 - 1) * (cd * cd + sd * sd * ct * ct)
                  + (st * st + ct * ct - 1) * (sd * sd)
                  + (sd * sd + cd * cd - 1))
      by (unfold A', B', s2; ring).
    rewrite H1, H2, H3 in E. lra. }
  assert (Hs2 : -1 <= s2 <= 1).
  { assert (0 <= A' * A' + B' * B') by nra. split; nra. }
  rewrite sin_asin by exact Hs2. rewrite cos_asin by exact Hs2.
  replace (st * sd * c1) with (c1 * A') by (unfold A'; ring).
  replace (cd - s1 * s2) with (c1 * B').
  2:{ assert (E : cd - s1 * s2 - c1 * B'
                  = cd * (1 - (s1 * s1 + c1 * c1)))
        by (unfold B', s2; ring).
      rewrite H1 in E. lra. }
  rewrite atan2_scale by exact Hc1.
  replace (1 - s2²) with (B' * B' + A' * A') by (unfold Rsqr; lra).
  destruct (radius_sin_cos_atan2 A' B') as [Hsin Hcos].
  rewrite (Rmult_comm (sin (atan2 A' B'))), Hsin.
  replace (c1 * s2 - s1 * sqrt (B' * B' + A' * A') * cos (atan2 A' B'))
    with (c1 * s2 - s1 * (sqrt (B' * B' + A' * A') * cos (atan2 A' B')))
    by ring.
  rewrite Hcos.
  replace (c1 * s2 - s1 * B') with (sd * ct).
  2:{ assert (E : c1 * s2 - s1 * B' - sd * ct
                  = (s1 * s1 + c1 * c1 - 1) * (sd * ct))
        by (unfold B', s2; ring).
      rewrite H1 in E. lra. }
  unfold A'.
  destruct (Rle_lt_dec theta PI) as [Hle|Hgt].
  - unfold st, ct. rewrite atan2_polar by lra.
    unfold theta. rewrite toDegrees_toRadians.
    rewrite rem_once by lra. lra.
  - unfold st, ct.
    replace (sin theta) with (sin (theta - 2 * PI))
      by (rewrite <- (sin_period (theta - 2 * PI) 1); f_equal; cbn; ring).
    replace (cos theta) with (cos (theta - 2 * PI))
      by (rewrite <- (cos_period (theta - 2 * PI) 1); f_equal; cbn; ring).
    rewrite atan2_polar by lra.
    replace (toDegrees (theta - 2 * PI) + 360) with b.
    + apply rem_small. exact bearing_range.
    + unfold theta, toRadians, toDegrees. field. apply PI_neq0.
Qed.
End RoundTrip.


Lemma atan2_down : atan2 (-1) 0 = - (PI / 2).
Proof. unfold atan2. settle_cases. reflexivity. Qed.

(** Starting on the equator at longitude 0 and going east for three
    quarters of the circumference, the destination is (0, -90); the
    initial bearing towards it is 270, not 90. *)
Lemma long_way_round :
  calculateInitialCompassBearing (0, 0)
    (calculateDestinationPoint (0, 0) 90 (3 * (PI / 2) * 6371)) = 270.
Proof.
  pose proof PI_RGT_0 as Hpi.
  unfold calculateInitialCompassBearing, calculateDestinationPoint.
  cbn [fst snd].
  replace (3 * (PI / 2) * 6371 / 6371) with (3 * (PI / 2)) by field.
  replace (toRadians 0) with 0 by (unfold toRadians; ring).
  replace (toRadians 90) with (PI / 2) by (unfold toRadians; field).
  rewrite sin_0, cos_0, sin_3PI2, cos_3PI2, sin_PI2, cos_PI2.
  replace (0 * 0 + 1 * -1 * 0) with 0 by ring.
  rewrite asin_0, toRadians_toDegrees, sin_0, cos_0.
  replace (1 * -1 * 1) with (-1) by ring.
  replace (0 - 0 * 0) with 0 by ring.
  rewrite atan2_down.
  replace (toRadians (toDegrees (0 + - (PI / 2)) - 0)) with (- (PI / 2))
    by (unfold toRadians, toDegrees; field; apply PI_neq0).
  rewrite sin_neg, cos_neg, sin_PI2, cos_PI2.
  replace (- (1) * 1) with (-1) by ring.
  replace (1 * 0 - 0 * 1 * 0) with 0 by ring.
  rewrite atan2_down.
  replace (toDegrees (- (PI / 2)) + 360) with 270
    by (unfold toDegrees; field; apply PI_neq0).
  apply rem_small. lra.
Qed.

(** C5, as stated, fails: for a distance of more than half the
    circumference the initial bearing back-computed from the projected
    point is that of the shorter way round.  From (0, 0) with bearing 90
    and distance 3/2 * PI * 6371 km the projected point is (0, -90) and
    the bearing towards it is 270. *)
Lemma C5_round_trip_fails_beyond_half_circumference :
  ~ (forall lat lon b d,
        -90 <= lat <= 90 -> -180 <= lon <= 180 ->
        0 <= b < 360 -> 0 < d ->
        Rabs (calculateInitialCompassBearing (lat, lon)
                (calculateDestinationPoint (lat, lon) b d) - b)
        <= 0.001).
Proof.
  intros Hclaim. pose proof PI_RGT_0 as Hpi.
  specialize (Hclaim 0 0 90 (3 * (PI / 2) * 6371)).
  rewrite long_way_round in Hclaim.
  replace (270 - 90) with 180 in Hclaim by lra.
  rewrite Rabs_pos_eq in Hclaim by lra.
  assert (180 <= 0.001) by (apply Hclaim; lra). lra.
Qed.

(** C5 (amended): for every point that is not a pole, every bearing in
    [0, 360) and every distance [d] with [0 < d < PI * 6371] (less than
    half the circumference of the sphere), the initial compass bearing
    from the point to [calculateDestinationPoint] of it equals the
    bearing -- exactly in real arithmetic, hence within 1e-3 degrees. *)
Theorem C5_round_trip_below_half_circumference :
  forall lat lon b d,
    -90 < lat < 90 -> 0 <= b < 360 -> 0 < d < PI * 6371 ->
    calculateInitialCompassBearing (lat, lon)
      (calculateDestinationPoint (lat, lon) b d) = b /\
    Rabs (calculateInitialCompassBearing (lat, lon)
            (calculateDestinationPoint (lat, lon) b d) - b) <= 0.001.
Proof.
  intros lat lon b d Hlat Hb Hd.
  rewrite (round_trip_exact lat lon b d Hlat Hb Hd).
  split; [reflexivity|].
  replace (b - b) with 0 by ring. rewrite Rabs_R0. lra.
Qed.

Lemma C5_round_trip_below_half_circumference_witness :
  calculateInitialCompassBearing (38.5, -120.2)
    (calculateDestinationPoint (38.5, -120.2) 45 1) = 45 /\
  Rabs (calculateInitialCompassBearing (38.5, -120.2)
          (calculateDestinationPoint (38.5, -120.2) 45 1) - 45) <= 0.001.
Proof.
  apply (C5_round_trip_below_half_circumference 38.5 (-120.2) 45 1).
  - lra.
  - lra.
  - pose proof PI2_3_2. lra.
Defined.

(** *** Distances *)

Lemma atan2_nonneg y x : 0 <= y -> 0 <= x -> 0 <= atan2 y x.
Proof.
  intros Hy Hx. pose proof PI_RGT_0 as Hpi. unfold atan2.
  destruct (decide (0 < x)) as [Hpos|Hnpos].
  - assert (Hq : 0 <= y / x) by (apply (div_between y x 0 (y / x + 1)); [lra|];
      split; [lra|]; assert (y = y / x * x) by (field; lra); nra).
    destruct Hq as [Hq|<-]; [|rewrite atan_0; lra].
    rewrite <- atan_0. left. apply atan_increasing. exact Hq.
  - settle_cases; lra.
Qed.

Lemma distance_nonneg p q : 0 <= distance p q.
Proof.
  destruct p as [lat1 lon1], q as [lat2 lon2]. unfold distance. cbn zeta.
  match goal with
  | |- 0 <= 6371 * (2 * atan2 (sqrt ?a) (sqrt ?b)) =>
      pose proof (atan2_nonneg (sqrt a) (sqrt b)
                    (sqrt_pos a) (sqrt_pos b))
  end.
  lra.
Qed.

(** Along the equator, eastwards over at most half the circumference,
    the haversine distance is the radius times the difference of
    longitude in radians. *)
Lemma distance_on_equator lon delta :
  0 <= delta <= PI ->
  distance (0, lon) (0, lon + toDegrees delta) = 6371 * delta.
Proof.
  intros Hdelta. pose proof PI_RGT_0 as Hpi.
  unfold distance. cbn zeta.
  replace (toRadians (0 - 0)) with 0 by (unfold toRadians; ring).
  replace (toRadians (lon + toDegrees delta - lon)) with delta
    by (unfold toRadians, toDegrees; field; apply PI_neq0).
  replace (toRadians 0) with 0 by (unfold toRadians; ring).
  replace (0 / 2) with 0 by field. rewrite sin_0, cos_0.
  set (t := delta / 2).
  assert (Ht : 0 <= t <= PI / 2) by (unfold t; lra).
  assert (Hs : 0 <= sin t) by (apply sin_ge_0; lra).
  assert (Hc : 0 <= cos t) by (apply cos_ge_0; lra).
  pose proof (sin2_cos2 t) as Hsc. unfold Rsqr in Hsc.
  replace (0 * 0 + 1 * 1 * sin t * sin t) with ((sin t)²)
    by (unfold Rsqr; ring).
  replace (1 - (sin t)²) with ((cos t)²) by (unfold Rsqr; lra).
  rewrite !sqrt_Rsqr by assumption.
  replace (atan2 (sin t) (cos t)) with (atan2 (1 * sin t) (1 * cos t))
    by (f_equal; ring).
  rewrite atan2_polar by lra.
  unfold t. field.
Qed.

Lemma atan2_le_PI2 y x : 0 <= y -> 0 <= x -> atan2 y x <= PI / 2.
Proof.
  intros Hy Hx. pose proof PI_RGT_0 as Hpi. unfold atan2.
  destruct (decide (0 < x)) as [Hpos|Hnpos].
  - pose proof (atan_bound (y / x)). lra.
  - settle_cases; lra.
Qed.

(** No haversine distance exceeds half the circumference. *)
Lemma distance_le_half_circumference p q : distance p q <= PI * 6371.
Proof.
  destruct p as [lat1 lon1], q as [lat2 lon2]. unfold distance. cbn zeta.
  match goal with
  | |- 6371 * (2 * atan2 (sqrt ?a) (sqrt ?b)) <= _ =>
      pose proof (atan2_le_PI2 (sqrt a) (sqrt b)
                    (sqrt_pos a) (sqrt_pos b))
  end.
  lra.
Qed.

(** [sin^2 (x / 2) = (1 - cos x) / 2] *)
Lemma sin_half_sqr x : sin (x / 2) * sin (x / 2) = (1 - cos x) / 2.
Proof.
  replace x with (2 * (x / 2)) at 3 by field.
  rewrite cos_2a_sin. field.
Qed.

(** The angle of the haversine formula, from its [a]. *)
Lemma haversine_angle t :
  0 <= t <= PI ->
  2 * atan2 (sqrt ((1 - cos t) / 2)) (sqrt (1 - (1 - cos t) / 2)) = t.
Proof.
  intros Ht. pose proof PI_RGT_0 as Hpi.
  rewrite <- (sin_half_sqr t).
  set (h := t / 2). assert (Hh : 0 <= h <= PI / 2) by (unfold h; lra).
  assert (Hs : 0 <= sin h) by (apply sin_ge_0; lra).
  assert (Hc : 0 <= cos h) by (apply cos_ge_0; lra).
  pose proof (sin2_cos2 h) as Hsc. unfold Rsqr in Hsc.
  replace (sin h * sin h) with ((sin h)²) by reflexivity.
  replace (1 - (sin h)²) with ((cos h)²) by (unfold Rsqr; lra).
  rewrite !sqrt_Rsqr by assumption.
  replace (atan2 (sin h) (cos h)) with (atan2 (1 * sin h) (1 * cos h))
    by (f_equal; ring).
  rewrite atan2_polar by lra. unfold h. field.
Qed.

Section AlongOneGreatCircle.
Variables (lat lon b : R).
Hypothesis not_a_pole : -90 < lat < 90.

(** Two points projected from the same origin along the same bearing
    are as far apart as the difference of their distances. *)
Lemma distance_between_projections d1 d2 :
  0 <= d1 <= d2 -> d2 <= PI * 6371 ->
  distance (calculateDestinationPoint (lat, lon) b d1)
           (calculateDestinationPoint (lat, lon) b d2) = d2 - d1.
Proof.
  intros Hd1 Hd2. pose proof PI_RGT_0 as Hpi.
  unfold calculateDestinationPoint, distance. cbn [fst snd]. cbn zeta.
  set (phi := toRadians lat). set (theta := toRadians b).
  set (delta1 := d1 / 6371). set (delta2 := d2 / 6371).
  assert (Hphi : - (PI / 2) < phi < PI / 2)
    by (unfold phi, toRadians; split; nra).
  assert (Hc1 : 0 < cos phi) by (apply cos_gt_0; lra).
  pose proof (sin2_cos2 phi) as H1. unfold Rsqr in H1.
  pose proof (sin2_cos2 theta) as H2. unfold Rsqr in H2.
  pose proof (sin2_cos2 delta1) as H3. unfold Rsqr in H3.
  pose proof (sin2_cos2 delta2) as H4. unfold Rsqr in H4.
  set (s1 := sin phi) in *. set (c1 := cos phi) in *.
  set (st := sin theta) in *. set (ct := cos theta) in *.
  set (sa := sin delta1) in *. set (ca := cos delta1) in *.
  set (sb := sin delta2) in *. set (cb := cos delta2) in *.
  set (Sa := s1 * ca + c1 * sa * ct). set (Sb := s1 * cb + c1 * sb * ct).
  set (Aa := sa * st). set (Ba := c1 * ca - s1 * sa * ct).
  set (Ab := sb * st). set (Bb := c1 * cb - s1 * sb * ct).
  assert (Hida : Aa * Aa + Ba * Ba = 1 - Sa * Sa).
  { assert (E : Aa * Aa + Ba * Ba - (1 - Sa * Sa)
                = (s1 * s1 + c1 * c1 - 1) * (ca * ca + sa * sa * ct * ct)
                  + (st * st + ct * ct - 1) * (sa * sa)
                  + (sa * sa + ca * ca - 1))
      by (unfold Aa, Ba, Sa; ring).
    rewrite H1, H2, H3 in E. lra. }
  assert (Hidb : Ab * Ab + Bb * Bb = 1 - Sb * Sb).
  { assert (E : Ab * Ab + Bb * Bb - (1 - Sb * Sb)
                = (s1 * s1 + c1 * c1 - 1) * (cb * cb + sb * sb * ct * ct)
                  + (st * st + ct * ct - 1) * (sb * sb)
                  + (sb * sb + cb * cb - 1))
      by (unfold Ab, Bb, Sb; ring).
    rewrite H1, H2, H4 in E. lra. }
  assert (HSa : -1 <= Sa <= 1).
  { assert (0 <= Aa * Aa + Ba * Ba) by nra. split; nra. }
  assert (HSb : -1 <= Sb <= 1).
  { assert (0 <= Ab * Ab + Bb * Bb) by nra. split; nra. }
  rewrite !(sin_asin Sa), !(sin_asin Sb) by assumption.
  replace (st * sa * c1) with (c1 * Aa) by (unfold Aa; ring).
  replace (st * sb * c1) with (c1 * Ab) by (unfold Ab; ring).
  replace (ca - s1 * Sa) with (c1 * Ba).
  2:{ assert (E : ca - s1 * Sa - c1 * Ba = ca * (1 - (s1 * s1 + c1 * c1)))
        by (unfold Ba, Sa; ring).
      rewrite H1 in E. lra. }
  replace (cb - s1 * Sb) with (c1 * Bb).
  2:{ assert (E : cb - s1 * Sb - c1 * Bb = cb * (1 - (s1 * s1 + c1 * c1)))
        by (unfold Bb, Sb; ring).
      rewrite H1 in E. lra. }
  rewrite !atan2_scale by exact Hc1.
  rewrite !toRadians_toDegrees.
  replace (toRadians (toDegrees (asin Sb) - toDegrees (asin Sa)))
    with (asin Sb - asin Sa)
    by (unfold toRadians, toDegrees; field; apply PI_neq0).
  replace (toRadians (toDegrees (toRadians lon + atan2 Ab Bb)
                      - toDegrees (toRadians lon + atan2 Aa Ba)))
    with (atan2 Ab Bb - atan2 Aa Ba)
    by (unfold toRadians, toDegrees; field; apply PI_neq0).
  rewrite !cos_asin by assumption.
  set (Ca := sqrt (1 - Sa²)). set (Cb := sqrt (1 - Sb²)).
  destruct (radius_sin_cos_atan2 Aa Ba) as [Hsina Hcosa].
  destruct (radius_sin_cos_atan2 Ab Bb) as [Hsinb Hcosb].
  replace (Ba * Ba + Aa * Aa) with (1 - Sa²) in Hsina, Hcosa
    by (unfold Rsqr; lra).
  replace (Bb * Bb + Ab * Ab) with (1 - Sb²) in Hsinb, Hcosb
    by (unfold Rsqr; lra).
  fold Ca in Hsina, Hcosa. fold Cb in Hsinb, Hcosb.
  set (la := atan2 Aa Ba) in *. set (lb := atan2 Ab Bb) in *.
  assert (HCa : Ca * Ca = 1 - Sa * Sa).
  { unfold Ca. rewrite sqrt_sqrt; unfold Rsqr; nra. }
  assert (HCb : Cb * Cb = 1 - Sb * Sb).
  { unfold Cb. rewrite sqrt_sqrt; unfold Rsqr; nra. }
  assert (Ha :
    sin ((asin Sb - asin Sa) / 2) * sin ((asin Sb - asin Sa) / 2)
    + Ca * Cb * sin ((lb - la) / 2) * sin ((lb - la) / 2)
    = (1 - cos (delta2 - delta1)) / 2).
  { rewrite sin_half_sqr.
    replace (Ca * Cb * sin ((lb - la) / 2) * sin ((lb - la) / 2))
      with (Ca * Cb * (sin ((lb - la) / 2) * sin ((lb - la) / 2)))
      by ring.
    rewrite sin_half_sqr.
    rewrite !cos_minus.
    rewrite !(sin_asin Sa), !(sin_asin Sb) by assumption.
    rewrite !cos_asin by assumption. fold Ca Cb.
    fold sa ca sb cb.
    assert (E1 : Ca * Cb * (cos lb * cos la + sin lb * sin la)
                 = (Cb * cos lb) * (Ca * cos la)
                   + (Cb * sin lb) * (Ca * sin la)) by ring.
    rewrite Hsina, Hcosa, Hsinb, Hcosb in E1.
    assert (E2 : Sb * Sa + Bb * Ba + Ab * Aa
                 - (cb * ca + sb * sa)
                 = (s1 * s1 + c1 * c1 - 1) * (cb * ca + sb * sa * ct * ct)
                   + (st * st + ct * ct - 1) * (sb * sa))
      by (unfold Sa, Sb, Aa, Ab, Ba, Bb; ring).
    rewrite H1, H2 in E2.
    lra. }
  rewrite Ha.
  assert (Hrange : 0 <= delta2 - delta1 <= PI)
    by (unfold delta1, delta2; split; lra).
  rewrite (haversine_angle _ Hrange).
  unfold delta1, delta2. field.
Qed.

(** Projecting by distance 0 gives the point itself. *)
Lemma projection_by_zero :
  calculateDestinationPoint (lat, lon) b 0 = (lat, lon).
Proof.
  pose proof PI_RGT_0 as Hpi.
  unfold calculateDestinationPoint. cbn [fst snd].
  replace (0 / 6371) with 0 by field. rewrite sin_0, cos_0.
  assert (Hphi : - (PI / 2) < toRadians lat < PI / 2)
    by (unfold toRadians; split; nra).
  assert (Hc1 : 0 < cos (toRadians lat)) by (apply cos_gt_0; lra).
  replace (sin (toRadians lat) * 1 + cos (toRadians lat) * 0
           * cos (toRadians b)) with (sin (toRadians lat)) by ring.
  rewrite asin_sin by lra.
  replace (sin (toRadians b) * 0 * cos (toRadians lat)) with 0 by ring.
  pose proof (sin2_cos2 (toRadians lat)) as H1. unfold Rsqr in H1.
  assert (Hpos : 0 < 1 - sin (toRadians lat) * sin (toRadians lat)) by nra.
  assert (Hzero : atan2 0 (1 - sin (toRadians lat) * sin (toRadians lat))
                  = 0).
  { unfold atan2. settle_cases.
    replace (0 / _) with 0 by (field; lra). apply atan_0. }
  rewrite Hzero. rewrite Rplus_0_r, !toDegrees_toRadians. reflexivity.
Qed.
End AlongOneGreatCircle.

Lemma projections_apart p b d1 d2 :
  -90 < fst p < 90 -> 0 <= d1 <= d2 -> d2 <= PI * 6371 ->
  distance (calculateDestinationPoint p b d1)
           (calculateDestinationPoint p b d2) = d2 - d1.
Proof.
  destruct p as [lat lon]. cbn [fst]. intros Hlat Hd1 Hd2.
  exact (distance_between_projections lat lon b Hlat d1 d2 Hd1 Hd2).
Qed.

Lemma projection_of_nothing p b :
  -90 < fst p < 90 -> calculateDestinationPoint p b 0 = p.
Proof.
  destruct p as [lat lon]. cbn [fst]. intros Hlat.
  exact (projection_by_zero lat lon b Hlat).
Qed.

End GeodesyFacts.

(** ** Routes along one great circle *)

Module GreatCircleFacts.
Import JsMath Geodesy TrigFacts GeodesyFacts.
#[local] Open Scope R_scope.

(** Vectors of three-dimensional space. *)
Definition Vec : Type := (R * R * R)%type.

Definition dot (v w : Vec) : R :=
  let '(v1, v2, v3) := v in
  let '(w1, w2, w3) := w in
  v1 * w1 + v2 * w2 + v3 * w3.

(** [s v + t w] *)
Definition combine (s : R) (v : Vec) (t : R) (w : Vec) : Vec :=
  let '(v1, v2, v3) := v in
  let '(w1, w2, w3) := w in
  (s * v1 + t * w1, s * v2 + t * w2, s * v3 + t * w3).

(** The point of the unit sphere at latitude and longitude [p], and the
    unit vectors that point north and east from it. *)
Definition unitVector (p : Point) : Vec :=
  let phi := toRadians (fst p) in
  let lam := toRadians (snd p) in
  (cos phi * cos lam, cos phi * sin lam, sin phi).

Definition northAt (p : Point) : Vec :=
  let phi := toRadians (fst p) in
  let lam := toRadians (snd p) in
  (- sin phi * cos lam, - sin phi * sin lam, cos phi).

Definition eastAt (p : Point) : Vec :=
  let lam := toRadians (snd p) in
  (- sin lam, cos lam, 0).

(** The unit vector that leaves [p] in the compass direction [b]. *)
Definition headingAt (p : Point) (b : R) : Vec :=
  combine (cos (toRadians b)) (northAt p) (sin (toRadians b)) (eastAt p).

Lemma vec_eq (a b c a' b' c' : R) :
  a = a' -> b = b' -> c = c' -> (a, b, c) = (a', b', c').
Proof. intros -> -> ->. reflexivity. Qed.

(** *** The haversine distance is the angle between the vectors *)

Lemma distance_of_angle p q sigma :
  dot (unitVector p) (unitVector q) = cos sigma ->
  0 <= sigma <= PI ->
  distance p q = 6371 * sigma.
Proof.
  destruct p as [lat1 lon1], q as [lat2 lon2].
  unfold unitVector, dot. cbn [fst snd]. intros Hdot Hsigma.
  unfold distance. cbn zeta.
  replace (toRadians (lat2 - lat1)) with (toRadians lat2 - toRadians lat1)
    by (unfold toRadians; ring).
  replace (toRadians (lon2 - lon1)) with (toRadians lon2 - toRadians lon1)
    by (unfold toRadians; ring).
  set (p1 := toRadians lat1) in *. set (p2 := toRadians lat2) in *.
  set (l1 := toRadians lon1) in *. set (l2 := toRadians lon2) in *.
  assert (Ha :
    sin ((p2 - p1) / 2) * sin ((p2 - p1) / 2)
    + cos p1 * cos p2 * sin ((l2 - l1) / 2) * sin ((l2 - l1) / 2)
    = (1 - cos sigma) / 2).
  { replace (cos p1 * cos p2 * sin ((l2 - l1) / 2) * sin ((l2 - l1) / 2))
      with (cos p1 * cos p2 * (sin ((l2 - l1) / 2) * sin ((l2 - l1) / 2)))
      by ring.
    rewrite !sin_half_sqr, !cos_minus, <- Hdot. field. }
  rewrite Ha, (haversine_angle sigma Hsigma). ring.
Qed.

(** *** The frame at a point *)

Section Frame.
Variable p : Point.

#[local] Abbreviation V := (unitVector p).
#[local] Abbreviation N := (northAt p).
#[local] Abbreviation E := (eastAt p).

Lemma north_is_tangent : dot N V = 0.
Proof.
  unfold dot, northAt, unitVector.
  pose proof (sin2_cos2 (toRadians (snd p))) as H. unfold Rsqr in H.
  set (sl := sin (toRadians (snd p))) in *.
  set (cl := cos (toRadians (snd p))) in *.
  set (sp := sin (toRadians (fst p))). set (cp := cos (toRadians (fst p))).
  assert (E0 : - sp * cl * (cp * cl) + - sp * sl * (cp * sl) + cp * sp
               = - (sp * cp) * (sl * sl + cl * cl - 1)) by ring.
  rewrite E0, H. ring.
Qed.

Lemma east_is_tangent : dot E V = 0.
Proof. unfold dot, eastAt, unitVector. ring. Qed.

(** A unit vector tangent at [p] is the combination of north and east
    by its own components, whose squares add up to 1. *)
Lemma tangent_components w :
  dot w V = 0 -> dot w w = 1 ->
  combine (dot N w) N (dot E w) E = w /\
  dot N w * dot N w + dot E w * dot E w = 1.
Proof.
  destruct w as [[w1 w2] w3].
  unfold dot, combine, northAt, eastAt, unitVector.
  pose proof (sin2_cos2 (toRadians (snd p))) as Hl. unfold Rsqr in Hl.
  pose proof (sin2_cos2 (toRadians (fst p))) as Hp. unfold Rsqr in Hp.
  set (sl := sin (toRadians (snd p))) in *.
  set (cl := cos (toRadians (snd p))) in *.
  set (sp := sin (toRadians (fst p))) in *.
  set (cp := cos (toRadians (fst p))) in *.
  intros Hperp Hunit.
  set (a := w1 * cl + w2 * sl).
  set (r := w1 * (cp * cl) + w2 * (cp * sl) + w3 * sp) in *.
  set (n := - sp * cl * w1 + - sp * sl * w2 + cp * w3).
  set (e := - sl * w1 + cl * w2 + 0 * w3).
  split.
  - apply vec_eq.
    + assert (E1 : n * (- sp * cl) + e * - sl - w1
                   = (sp * sp + cp * cp - 1) * (a * cl)
                     + (sl * sl + cl * cl - 1) * w1
                     - r * (cp * cl)) by (unfold n, e, a, r; ring).
      rewrite Hp, Hl, Hperp in E1. lra.
    + assert (E1 : n * (- sp * sl) + e * cl - w2
                   = (sp * sp + cp * cp - 1) * (a * sl)
                     + (sl * sl + cl * cl - 1) * w2
                     - r * (cp * sl)) by (unfold n, e, a, r; ring).
      rewrite Hp, Hl, Hperp in E1. lra.
    + assert (E1 : n * cp + e * 0 - w3
                   = (sp * sp + cp * cp - 1) * w3 - r * sp)
        by (unfold n, e, a, r; ring).
      rewrite Hp, Hperp in E1. lra.
  - assert (E1 : n * n + e * e + r * r
                 - (w1 * w1 + w2 * w2 + w3 * w3)
                 = (sp * sp + cp * cp - 1) * (a * a + w3 * w3)
                   + (sl * sl + cl * cl - 1) * (w1 * w1 + w2 * w2))
      by (unfold n, e, a, r; ring).
    rewrite Hp, Hl, Hperp, Hunit in E1. lra.
Qed.

End Frame.

(** *** The vector of a projected point *)

Lemma unitVector_of_projection a b t :
  -90 < fst a < 90 ->
  unitVector (calculateDestinationPoint a b t)
  = combine (cos (t / 6371)) (unitVector a)
            (sin (t / 6371)) (headingAt a b).
Proof.
  destruct a as [lat lon]. cbn [fst]. intros Hlat.
  pose proof PI_RGT_0 as Hpi.
  unfold calculateDestinationPoint, unitVector, headingAt, northAt, eastAt,
    combine.
  cbn [fst snd]. rewrite !toRadians_toDegrees.
  set (phi := toRadians lat). set (theta := toRadians b).
  set (lam := toRadians lon). set (delta := t / 6371).
  assert (Hphi : - (PI / 2) < phi < PI / 2)
    by (unfold phi, toRadians; split; nra).
  assert (Hc1 : 0 < cos phi) by (apply cos_gt_0; lra).
  pose proof (sin2_cos2 phi) as H1. unfold Rsqr in H1.
  pose proof (sin2_cos2 theta) as H2. unfold Rsqr in H2.
  pose proof (sin2_cos2 delta) as H3. unfold Rsqr in H3.
  set (s1 := sin phi) in *. set (c1 := cos phi) in *.
  set (st := sin theta) in *. set (ct := cos theta) in *.
  set (sd := sin delta) in *. set (cd := cos delta) in *.
  set (sl := sin lam). set (cl := cos lam).
  set (s2 := s1 * cd + c1 * sd * ct).
  set (A' := sd * st). set (B' := c1 * cd - s1 * sd * ct).
  assert (Hid : A' * A' + B' * B' = 1 - s2 * s2).
  { assert (E : A' * A' + B' * B' - (1 - s2 * s2)
                = (s1 * s1 + c1 * c1 - 1) * (cd * cd + sd * sd * ct * ct)
                  + (st * st + ct * ct - 1) * (sd * sd)
                  + (sd * sd + cd * cd - 1))
      by (unfold A', B', s2; ring).
    rewrite H1, H2, H3 in E. lra. }
  assert (Hs2 : -1 <= s2 <= 1).
  { assert (0 <= A' * A' + B' * B') by nra. split; nra. }
  rewrite !sin_asin by exact Hs2. rewrite !cos_asin by exact Hs2.
  replace (st * sd * c1) with (c1 * A') by (unfold A'; ring).
  replace (cd - s1 * s2) with (c1 * B').
  2:{ assert (E : cd - s1 * s2 - c1 * B'
                  = cd * (1 - (s1 * s1 + c1 * c1)))
        by (unfold B', s2; ring).
      rewrite H1 in E. lra. }
  rewrite atan2_scale by exact Hc1.
  replace (1 - s2²) with (B' * B' + A' * A') by (unfold Rsqr; lra).
  destruct (radius_sin_cos_atan2 A' B') as [Hsin Hcos].
  set (rho := sqrt (B' * B' + A' * A')) in *.
  set (mu := atan2 A' B') in *.
  rewrite cos_plus, sin_plus. fold sl cl.
  apply vec_eq.
  - replace (rho * (cl * cos mu - sl * sin mu))
      with (cl * (rho * cos mu) - sl * (rho * sin mu)) by ring.
    rewrite Hsin, Hcos. unfold A', B'. ring.
  - replace (rho * (sl * cos mu + cl * sin mu))
      with (sl * (rho * cos mu) + cl * (rho * sin mu)) by ring.
    rewrite Hsin, Hcos. unfold A', B'. ring.
  - unfold s2. ring.
Qed.

(** *** The direction of the initial bearing *)

(** The two arguments of [Math.atan2] in
    [calculateInitialCompassBearing] are the east and north components
    of the target. *)
Lemma bearing_arguments a c :
  let lat1 := toRadians (fst a) in
  let lat2 := toRadians (fst c) in
  let diffLong := toRadians (snd c - snd a) in
  sin diffLong * cos lat2 = dot (eastAt a) (unitVector c) /\
  cos lat1 * sin lat2 - sin lat1 * cos lat2 * cos diffLong
  = dot (northAt a) (unitVector c).
Proof.
  cbn zeta. unfold dot, eastAt, northAt, unitVector.
  replace (toRadians (snd c - snd a))
    with (toRadians (snd c) - toRadians (snd a))
    by (unfold toRadians; ring).
  rewrite sin_minus, cos_minus. split; ring.
Qed.

(** Sine and cosine of the bearing, for a target that is neither the
    point itself nor its antipode. *)
Lemma sin_cos_of_bearing a c e n :
  dot (eastAt a) (unitVector c) = e ->
  dot (northAt a) (unitVector c) = n ->
  0 < n * n + e * e ->
  sin (toRadians (calculateInitialCompassBearing a c))
  = e / sqrt (n * n + e * e) /\
  cos (toRadians (calculateInitialCompassBearing a c))
  = n / sqrt (n * n + e * e).
Proof.
  intros He Hn Hpos. pose proof PI_RGT_0 as Hpi.
  destruct (bearing_arguments a c) as [Hx Hy]. cbn zeta in Hx, Hy.
  unfold calculateInitialCompassBearing. cbn zeta.
  rewrite Hx, Hy, He, Hn.
  destruct (sin_cos_atan2 e n Hpos) as (Hsin & Hcos & Hrange).
  set (t := atan2 e n) in *.
  assert (Hdeg : -180 < toDegrees t <= 180).
  { unfold toDegrees.
    assert (E : t * (180 / PI) = t / PI * 180) by (field; lra).
    rewrite E.
    assert (Hq : t = t / PI * PI) by (field; lra).
    remember (t / PI) as q eqn:Heq. clear Heq E. split; nra. }
  destruct (Rlt_le_dec (toDegrees t + 360) 360) as [Hlt|Hge].
  - rewrite rem_small by lra.
    replace (toRadians (toDegrees t + 360)) with (t + 2 * PI)
      by (unfold toRadians, toDegrees; field; lra).
    rewrite sin_plus, cos_plus, sin_2PI, cos_2PI. split; lra.
  - rewrite rem_once by lra.
    replace (toRadians (toDegrees t + 360 - 360)) with t
      by (unfold toRadians, toDegrees; field; lra).
    split; assumption.
Qed.

Lemma dot_combine u s v t w :
  dot u (combine s v t w) = s * dot u v + t * dot u w.
Proof.
  destruct u as [[u1 u2] u3], v as [[v1 v2] v3], w as [[w1 w2] w3].
  unfold dot, combine. ring.
Qed.

Lemma dot_comm v w : dot v w = dot w v.
Proof.
  destruct v as [[v1 v2] v3], w as [[w1 w2] w3]. unfold dot. ring.
Qed.

(** Towards a target that lies in the direction [w], at an angle
    strictly between 0 and PI, the initial bearing is the compass
    direction of [w]. *)
Lemma heading_towards a c w angle :
  dot w (unitVector a) = 0 -> dot w w = 1 -> 0 < angle < PI ->
  unitVector c = combine (cos angle) (unitVector a) (sin angle) w ->
  headingAt a (calculateInitialCompassBearing a c) = w.
Proof.
  intros Hperp Hunit Hangle Hc.
  assert (Hs : 0 < sin angle) by (apply sin_gt_0; lra).
  destruct (tangent_components a w Hperp Hunit) as [Hw Hone].
  set (n := dot (northAt a) w) in *. set (e := dot (eastAt a) w) in *.
  assert (He : dot (eastAt a) (unitVector c) = sin angle * e).
  { rewrite Hc, dot_combine, east_is_tangent. fold e. ring. }
  assert (Hn : dot (northAt a) (unitVector c) = sin angle * n).
  { rewrite Hc, dot_combine, north_is_tangent. fold n. ring. }
  assert (Hsq : sin angle * n * (sin angle * n)
                + sin angle * e * (sin angle * e)
                = (sin angle)²).
  { unfold Rsqr.
    replace (sin angle * n * (sin angle * n)
             + sin angle * e * (sin angle * e))
      with (sin angle * sin angle * (n * n + e * e)) by ring.
    rewrite Hone. ring. }
  destruct (sin_cos_of_bearing a c _ _ He Hn) as [Hsin Hcos].
  { rewrite Hsq. unfold Rsqr. nra. }
  rewrite Hsq, sqrt_Rsqr in Hsin, Hcos by lra.
  unfold headingAt. rewrite Hsin, Hcos.
  replace (sin angle * n / sin angle) with n by (field; lra).
  replace (sin angle * e / sin angle) with e by (field; lra).
  exact Hw.
Qed.

(** *** A great circle *)

(** The point at angle [theta] on the great circle through the unit
    vector [v0] that leaves it in the direction of [u0], and the
    direction in which the circle runs on there. *)
Definition along (v0 u0 : Vec) (theta : R) : Vec :=
  combine (cos theta) v0 (sin theta) u0.

Definition ahead (v0 u0 : Vec) (theta : R) : Vec :=
  combine (- sin theta) v0 (cos theta) u0.

Section GreatCircle.
Variables v0 u0 : Vec.
Hypothesis v0_unit : dot v0 v0 = 1.
Hypothesis u0_unit : dot u0 u0 = 1.
Hypothesis perpendicular : dot v0 u0 = 0.

Lemma along_plus theta angle :
  along v0 u0 (theta + angle)
  = combine (cos angle) (along v0 u0 theta)
            (sin angle) (ahead v0 u0 theta).
Proof.
  destruct v0 as [[a1 a2] a3], u0 as [[b1 b2] b3].
  unfold along, ahead, combine. rewrite cos_plus, sin_plus.
  pose proof (sin2_cos2 theta) as H. unfold Rsqr in H.
  apply vec_eq; ring.
Qed.

Lemma dot_expand s v t w s' t' :
  dot (combine s v t w) (combine s' v t' w)
  = s * s' * dot v v + (s * t' + t * s') * dot v w + t * t' * dot w w.
Proof.
  destruct v as [[v1 v2] v3], w as [[w1 w2] w3].
  unfold dot, combine. ring.
Qed.

Lemma ahead_is_tangent theta :
  dot (ahead v0 u0 theta) (along v0 u0 theta) = 0.
Proof.
  unfold ahead, along.
  rewrite dot_expand, v0_unit, u0_unit, perpendicular. ring.
Qed.

Lemma ahead_is_unit theta :
  dot (ahead v0 u0 theta) (ahead v0 u0 theta) = 1.
Proof.
  unfold ahead.
  rewrite dot_expand, v0_unit, u0_unit, perpendicular.
  pose proof (sin2_cos2 theta) as H. unfold Rsqr in H. lra.
Qed.

Lemma dot_along alpha beta :
  dot (along v0 u0 alpha) (along v0 u0 beta) = cos (beta - alpha).
Proof.
  unfold along.
  rewrite dot_expand, v0_unit, u0_unit, perpendicular, cos_minus. ring.
Qed.

(** Two points of the circle, the second ahead of the first by at most
    half a turn, are as far apart as the radius times the angle between
    them. *)
Lemma distance_along p q alpha beta :
  unitVector p = along v0 u0 alpha -> unitVector q = along v0 u0 beta ->
  0 <= beta - alpha <= PI ->
  distance p q = 6371 * (beta - alpha).
Proof.
  intros Hp Hq Hrange. apply distance_of_angle; [|exact Hrange].
  rewrite Hp, Hq. apply dot_along.
Qed.

(** Projecting from a point of the circle that is not a pole, along the
    bearing to a point further ahead by less than half a turn, runs
    along the circle. *)
Lemma continue_along a c theta1 theta2 t :
  -90 < fst a < 90 ->
  unitVector a = along v0 u0 theta1 -> unitVector c = along v0 u0 theta2 ->
  0 < theta2 - theta1 < PI ->
  unitVector (calculateDestinationPoint a
                (calculateInitialCompassBearing a c) t)
  = along v0 u0 (theta1 + t / 6371).
Proof.
  intros Hpole Ha Hc Hstep.
  rewrite unitVector_of_projection by exact Hpole.
  rewrite (heading_towards a c (ahead v0 u0 theta1) (theta2 - theta1)).
  - rewrite Ha. symmetry. apply along_plus.
  - rewrite Ha. apply ahead_is_tangent.
  - apply ahead_is_unit.
  - exact Hstep.
  - rewrite Hc, Ha.
    replace theta2 with (theta1 + (theta2 - theta1)) at 1 by ring.
    apply along_plus.
Qed.

End GreatCircle.

(** *** Straight routes *)

(** The route runs straight: its points lie, in the order of the
    route, on one great circle -- point [i] at the angle [angles !! i]
    -- none of them is a pole, and from each point to the next the
    angle does not decrease and grows by less than half a turn. *)
Definition straight (v0 u0 : Vec) (angles : list R)
    (routeCoords : list Point) : Prop :=
  dot v0 v0 = 1 /\ dot u0 u0 = 1 /\ dot v0 u0 = 0 /\
  Forall2 (fun theta p =>
             -90 < fst p < 90 /\ unitVector p = along v0 u0 theta)
          angles routeCoords /\
  (forall i theta theta',
      angles !! i = Some theta -> angles !! S i = Some theta' ->
      0 <= theta' - theta < PI).

(** A route along the equator, eastwards, is straight. *)
Lemma equator_is_straight (longitudes : list R) :
  (forall i lon lon',
      longitudes !! i = Some lon -> longitudes !! S i = Some lon' ->
      0 <= lon' - lon < 180) ->
  straight (1, 0, 0) (0, 1, 0) (toRadians <$> longitudes)
    ((fun lon => (0, lon)) <$> longitudes).
Proof.
  intros Hsorted. pose proof PI_RGT_0 as Hpi.
  unfold straight, dot.
  split; [ring|]. split; [ring|]. split; [ring|]. split.
  - apply Forall2_fmap. apply Forall_Forall2_diag. apply Forall_forall.
    intros lon _. cbn [fst snd]. split; [lra|].
    unfold unitVector, along, combine. cbn [fst snd].
    replace (toRadians 0) with 0 by (unfold toRadians; ring).
    rewrite sin_0, cos_0. apply vec_eq; ring.
  - intros i theta theta' Hi Hi'.
    rewrite list_lookup_fmap in Hi, Hi'.
    destruct (longitudes !! i) as [lon|] eqn:Hlon; [|discriminate Hi].
    destruct (longitudes !! S i) as [lon'|] eqn:Hlon'; [|discriminate Hi'].
    cbn in Hi, Hi'. injection Hi as <-. injection Hi' as <-.
    specialize (Hsorted i lon lon' Hlon Hlon').
    unfold toRadians. split; nra.
Qed.

End GreatCircleFacts.

(** ** Properties of the lookup and of the batch orchestration *)

Module OrchestratorFacts.
Import Geodesy Selector Orchestrator.
#[local] Open Scope R_scope.

(** *** A lookup never raises *)

Lemma getMapillaryImage_returns fetch coord heading :
  exists r, getMapillaryImage fetch coord heading = Returns r.
Proof.
  unfold getMapillaryImage, lookupBody. destruct coord as [lat lon].
  destruct (fetch (bboxOf (lat, lon))) as [response|e]; cbn;
    [|eexists; reflexivity].
  destruct (ok response); cbn; [|eexists; reflexivity].
  destruct (json response) as [body|e]; cbn; [|eexists; reflexivity].
  destruct (data body) as [[|c candidates]|]; cbn [tryCatch];
    try (eexists; reflexivity).
  destruct (selectBestImage lat lon heading (c :: candidates));
    eexists; reflexivity.
Qed.

Lemma failed_lookup_is_none fetch coord heading :
  lookupFails fetch coord ->
  getMapillaryImage fetch coord heading = Returns None.
Proof.
  unfold lookupFails, getMapillaryImage, lookupBody.
  destruct coord as [lat lon].
  destruct (fetch (bboxOf (lat, lon))) as [response|e]; cbn;
    [|reflexivity].
  intros [Hok|[e He]].
  - rewrite Hok. reflexivity.
  - destruct (ok response); cbn; [|reflexivity]. rewrite He. reflexivity.
Qed.

(** The value a lookup resolves to. *)
Definition lookupResult (fetch : Provider) (point : LookupPoint)
  : option MapillaryImage :=
  match getMapillaryImage fetch (point_coord point) (point_heading point)
  with
  | Returns r => r
  | _ => None
  end.

Lemma getMapillaryImage_lookupResult fetch point :
  getMapillaryImage fetch (point_coord point) (point_heading point)
  = Returns (lookupResult fetch point).
Proof.
  unfold lookupResult.
  destruct (getMapillaryImage_returns fetch (point_coord point)
              (point_heading point)) as [r ->].
  reflexivity.
Qed.

Lemma promiseAll_lookups fetch batch :
  promiseAll (fun point =>
    getMapillaryImage fetch (point_coord point) (point_heading point)) batch
  = Returns (lookupResult fetch <$> batch).
Proof.
  induction batch as [|point batch IH]; cbn [promiseAll].
  - reflexivity.
  - rewrite getMapillaryImage_lookupResult. cbn [mbind outcome_bind].
    rewrite IH. reflexivity.
Qed.

Lemma slice_then_rest {A} (l : list A) i n :
  slice l i (i + n) ++ drop (i + n) l = drop i l.
Proof.
  unfold slice. replace (i + n - i)%nat with n by lia.
  rewrite <- drop_drop. apply take_drop.
Qed.

Lemma batchesFrom_returns fetch points size :
  (0 < size)%nat ->
  forall fuel i results,
    (List.length points <= i + fuel)%nat ->
    batchesFrom (S fuel) fetch points size i results
    = Returns (results ++ (lookupResult fetch <$> drop i points)).
Proof.
  intros Hsize.
  induction fuel as [|fuel IH]; intros i results Hlen.
  - cbn [batchesFrom].
    destruct (Nat.ltb_spec i (List.length points)) as [Hlt|Hge]; [lia|].
    rewrite drop_ge by exact Hge. cbn. rewrite app_nil_r. reflexivity.
  - remember (S fuel) as fuel1. cbn [batchesFrom]. subst fuel1.
    destruct (Nat.ltb_spec i (List.length points)) as [Hlt|Hge].
    + rewrite promiseAll_lookups. cbn [mbind outcome_bind].
      rewrite IH by lia.
      rewrite <- app_assoc, <- fmap_app, slice_then_rest. reflexivity.
    + rewrite drop_ge by exact Hge. cbn. rewrite app_nil_r. reflexivity.
Qed.

Lemma getMapillaryImagesBatch_returns fetch points size :
  (0 < size)%nat ->
  getMapillaryImagesBatch fetch points size
  = Returns (lookupResult fetch <$> points).
Proof.
  intros Hsize. unfold getMapillaryImagesBatch.
  rewrite (batchesFrom_returns fetch points size Hsize) by lia.
  reflexivity.
Qed.

(** *** The de-duplication invariant *)

(** The capture coordinate [[imgLat, imgLon]] of an image, when its
    geometry is present. *)
Definition captureCoord (img : MapillaryImage) : option Point :=
  '(imgLon, imgLat) ← (g ← image_geometry img; coordinates g);
  Some (imgLat, imgLon).

(** Any two different entries are at least [minImageDistanceKm] apart. *)
Definition separated (coords : list Point) : Prop :=
  forall i j ci cj,
    i <> j -> coords !! i = Some ci -> coords !! j = Some cj ->
    minImageDistanceKm <= distance ci cj.

(** The accumulators hold exactly the images [accepted], in order. *)
Definition holds (acc : Accumulators) (accepted : list MapillaryImage)
  : Prop :=
  fetchedImages acc = thumbUrl <$> accepted /\
  Some <$> fetchedCoordinates acc = captureCoord <$> accepted /\
  usedImageLocations acc = fetchedCoordinates acc /\
  (forall x, x ∈ usedImageIds acc <-> x ∈ image_id <$> accepted) /\
  NoDup (image_id <$> accepted) /\
  separated (fetchedCoordinates acc).

Lemma holds_empty : holds emptyAccumulators [].
Proof.
  unfold holds, emptyAccumulators; cbn.
  repeat split; try set_solver.
  - constructor.
  - intros i j ci cj _ Hi. rewrite lookup_nil in Hi. discriminate Hi.
Qed.

Lemma tooClose_false imageCoord : forall usedLocations,
  tooClose imageCoord usedLocations = false ->
  forall k u, usedLocations !! k = Some u ->
    minImageDistanceKm <= distance imageCoord u.
Proof.
  induction usedLocations as [|v rest IH]; intros Hfar k u Hk.
  - rewrite lookup_nil in Hk. discriminate Hk.
  - unfold tooClose in Hfar. cbn [existsb] in Hfar.
    apply orb_false_iff in Hfar as [Hv Hrest].
    destruct k as [|k]; cbn in Hk.
    + injection Hk as <-. apply bool_decide_eq_false in Hv. lra.
    + exact (IH Hrest k u Hk).
Qed.

Lemma separated_snoc coords c :
  separated coords ->
  (forall k u, coords !! k = Some u -> minImageDistanceKm <= distance c u) ->
  separated (coords ++ [c]).
Proof.
  intros Hsep Hfar i j ci cj Hij Hi Hj.
  apply lookup_snoc_Some in Hi as [[Hil Hi]|[Hil <-]];
  apply lookup_snoc_Some in Hj as [[Hjl Hj]|[Hjl <-]].
  - exact (Hsep i j ci cj Hij Hi Hj).
  - rewrite GeodesyFacts.distance_sym. exact (Hfar i ci Hi).
  - exact (Hfar j cj Hj).
  - lia.
Qed.

(** One result either leaves the accepted images as they are or
    appends the returned image. *)
Lemma processResult_holds acc accepted imageData acc' :
  holds acc accepted ->
  processResult acc imageData = Returns acc' ->
  holds acc' accepted \/
  exists img, imageData = Some img /\ holds acc' (accepted ++ [img]).
Proof.
  intros Hholds Hrun.
  destruct imageData as [img|]; cbn [processResult] in Hrun;
    [|injection Hrun as <-; left; exact Hholds].
  case_bool_decide as Hused; [injection Hrun as <-; left; exact Hholds|].
  destruct (g ← image_geometry img; coordinates g) as [[imgLon imgLat]|]
    eqn:Hgeo; [|discriminate Hrun].
  destruct (tooClose (imgLat, imgLon) (usedImageLocations acc)) eqn:Hclose;
    cbn [negb] in Hrun; injection Hrun as <-; [left; exact Hholds|].
  right. exists img. split; [reflexivity|].
  destruct Hholds as (Himgs & Hcoords & Hlocs & Hids & Hnodup & Hsep).
  unfold holds. cbn.
  rewrite !fmap_app. cbn.
  repeat split.
  - rewrite Himgs. reflexivity.
  - rewrite Hcoords. do 2 f_equal. unfold captureCoord.
    rewrite Hgeo. reflexivity.
  - rewrite Hlocs. reflexivity.
  - intros Hin. apply elem_of_union in Hin as [Hin|Hin].
    + apply elem_of_app. left. apply (proj1 (Hids x)). exact Hin.
    + apply elem_of_app. right. apply elem_of_singleton in Hin as ->.
      apply list_elem_of_singleton. reflexivity.
  - intros Hin. apply elem_of_app in Hin as [Hin|Hin].
    + apply elem_of_union. left. apply (proj2 (Hids x)). exact Hin.
    + apply elem_of_union. right. apply list_elem_of_singleton in Hin as ->.
      apply elem_of_singleton. reflexivity.
  - apply NoDup_app. split; [exact Hnodup|]. split.
    + intros x Hx Hx'. apply list_elem_of_singleton in Hx' as ->.
      apply Hused. apply (proj2 (Hids (image_id img))). exact Hx.
    + apply NoDup_singleton.
  - apply separated_snoc; [exact Hsep|].
    rewrite <- Hlocs. apply tooClose_false, Hclose.
Qed.

Lemma processBatch_holds : forall batchResults acc accepted acc',
  holds acc accepted ->
  processBatch acc batchResults = Returns acc' ->
  exists more,
    holds acc' (accepted ++ more) /\
    forall img, img ∈ more -> Some img ∈ batchResults.
Proof.
  induction batchResults as [|imageData rest IH];
    intros acc accepted acc' Hholds Hrun; cbn [processBatch] in Hrun.
  - injection Hrun as <-. exists []. rewrite app_nil_r.
    split; [exact Hholds|]. intros img Hin.
    apply elem_of_nil in Hin. contradiction.
  - destruct (processResult acc imageData) as [acc1| |] eqn:Hone;
      cbn in Hrun; try discriminate Hrun.
    destruct (processResult_holds _ _ _ _ Hholds Hone)
      as [Hsame|(img & -> & Hmore)].
    + destruct (IH _ _ _ Hsame Hrun) as (more & Hh & Hfrom).
      exists more. split; [exact Hh|].
      intros x Hx. apply elem_of_cons. right. exact (Hfrom x Hx).
    + destruct (IH _ _ _ Hmore Hrun) as (more & Hh & Hfrom).
      exists (img :: more). split.
      * rewrite <- app_assoc in Hh. exact Hh.
      * intros x Hx. apply elem_of_cons in Hx as [->|Hx].
        -- apply elem_of_cons. left. reflexivity.
        -- apply elem_of_cons. right. exact (Hfrom x Hx).
Qed.

Lemma captureCoord_none img :
  (g ← image_geometry img; coordinates g) = None ->
  captureCoord img = None.
Proof. unfold captureCoord. intros ->. reflexivity. Qed.

(** Processing a batch either completes or stops at an image that was
    returned without geometry coordinates. *)
Lemma processBatch_outcome : forall batchResults acc,
  (exists acc', processBatch acc batchResults = Returns acc') \/
  (processBatch acc batchResults = Throws "TypeError" /\
   exists img, Some img ∈ batchResults /\ captureCoord img = None).
Proof.
  induction batchResults as [|imageData rest IH]; intros acc;
    cbn [processBatch].
  - left. eexists. reflexivity.
  - assert (Hone :
      (exists acc1, processResult acc imageData = Returns acc1) \/
      (processResult acc imageData = Throws "TypeError" /\
       exists img, imageData = Some img /\ captureCoord img = None)).
    { destruct imageData as [img|]; cbn [processResult];
        [|left; eexists; reflexivity].
      case_bool_decide; [left; eexists; reflexivity|].
      destruct (g ← image_geometry img; coordinates g)
        as [[imgLon imgLat]|] eqn:Hgeo.
      - left. destruct (negb _); eexists; reflexivity.
      - right. split; [reflexivity|]. exists img.
        split; [reflexivity | exact (captureCoord_none img Hgeo)]. }
    destruct Hone as [[acc1 ->]|[-> (img & -> & Hnone)]];
      cbn [mbind outcome_bind].
    + destruct (IH acc1) as [Hok|[Hthrow (img & Hin & Hnone)]].
      * left. exact Hok.
      * right. split; [exact Hthrow|]. exists img.
        split; [apply elem_of_cons; right; exact Hin | exact Hnone].
    + right. split; [reflexivity|]. exists img.
      split; [apply elem_of_cons; left; reflexivity | exact Hnone].
Qed.

Lemma elem_of_slice {A} (l : list A) i j x : x ∈ slice l i j -> x ∈ l.
Proof.
  unfold slice. intros Hin.
  apply list_elem_of_lookup in Hin as [k Hk].
  apply lookup_take_Some in Hk as [Hk _].
  rewrite lookup_drop in Hk.
  apply list_elem_of_lookup. exists (i + k)%nat. exact Hk.
Qed.

Section BatchLoop.
Variables (fetch : Provider) (cancelled : nat -> bool).
Variable pointsToFetch : list LookupPoint.

(** Every accepted image is what the lookup of one of the points
    resolved to. *)
Definition fromLookups (accepted : list MapillaryImage) : Prop :=
  forall img, img ∈ accepted ->
    exists point, point ∈ pointsToFetch /\
                  lookupResult fetch point = Some img.

(** The snapshot shows the accumulators of some state that holds
    images returned by lookups. *)
Definition shows (shown : Snapshot) : Prop :=
  exists acc accepted,
    shown = publish acc /\ holds acc accepted /\ fromLookups accepted.

Lemma batchLoop_shows : forall fuel i acc shown accepted,
  holds acc accepted -> fromLookups accepted -> shows shown ->
  shows (fst (batchLoop fuel fetch cancelled pointsToFetch i acc shown)).
Proof.
  induction fuel as [|fuel IH]; intros i acc shown accepted Hacc Hfrom Hshown;
    cbn [batchLoop].
  - exact Hshown.
  - destruct (i <? List.length pointsToFetch)%nat; [|exact Hshown].
    destruct (cancelled i); [exact Hshown|].
    rewrite getMapillaryImagesBatch_returns by (unfold batchSize; lia).
    cbn [mbind outcome_bind].
    destruct (processBatch acc _) as [acc'| |] eqn:Hbatch;
      [|exact Hshown|exact Hshown].
    destruct (processBatch_holds _ _ _ _ Hacc Hbatch)
      as (more & Hacc' & Hmore).
    assert (Hfrom' : fromLookups (accepted ++ more)).
    { intros img Hin. apply elem_of_app in Hin as [Hin|Hin].
      - exact (Hfrom img Hin).
      - apply Hmore in Hin.
        apply list_elem_of_fmap in Hin as (point & Hres & Hpoint).
        exists point. split; [|symmetry; exact Hres].
        exact (elem_of_slice _ _ _ _ Hpoint). }
    apply (IH _ acc' (publish acc') (accepted ++ more) Hacc' Hfrom').
    exists acc', (accepted ++ more).
    split; [reflexivity|]. split; assumption.
Qed.

(** With [pointsToFetch.length + 1] iterations the loop runs to its
    end; it is left by an exception only when a lookup returned an
    image without geometry coordinates. *)
Lemma batchLoop_outcome : forall fuel i acc shown,
  (List.length pointsToFetch <= i + fuel)%nat ->
  let run := batchLoop (S fuel) fetch cancelled pointsToFetch i acc shown in
  snd run = Returns tt \/
  (snd run = Throws "TypeError" /\
   exists point img,
     point ∈ pointsToFetch /\ lookupResult fetch point = Some img /\
     captureCoord img = None).
Proof.
  induction fuel as [|fuel IH]; intros i acc shown Hlen; cbn zeta.
  - cbn [batchLoop].
    destruct (Nat.ltb_spec i (List.length pointsToFetch)); [lia|].
    left. reflexivity.
  - remember (S fuel) as fuel1. cbn [batchLoop]. subst fuel1.
    destruct (Nat.ltb_spec i (List.length pointsToFetch));
      [|left; reflexivity].
    destruct (cancelled i); [left; reflexivity|].
    rewrite getMapillaryImagesBatch_returns by (unfold batchSize; lia).
    cbn [mbind outcome_bind].
    destruct (processBatch_outcome
                (lookupResult fetch
                   <$> slice pointsToFetch i (i + batchSize)) acc)
      as [[acc' ->]|[-> (img & Hin & Hnone)]].
    + apply IH. unfold batchSize. lia.
    + right. split; [reflexivity|].
      apply list_elem_of_fmap in Hin as (point & Hres & Hpoint).
      exists point, img. repeat split.
      * exact (elem_of_slice _ _ _ _ Hpoint).
      * symmetry. exact Hres.
      * exact Hnone.
Qed.

End BatchLoop.

(** A provider that cannot be reached: every request is rejected. *)
Definition offline : Provider := fun _ => Rejected "Failed to fetch".

Example offline_lookup_fails coord : lookupFails offline coord.
Proof. unfold lookupFails, offline. exact I. Qed.

Example offline_lookup_is_none point : lookupResult offline point = None.
Proof.
  unfold lookupResult, getMapillaryImage, lookupBody.
  destruct (point_coord point) as [lat lon]. reflexivity.
Qed.

(** With the provider unreachable every lookup fails, and the image
    phase still runs to its end. *)
Example offline_run_completes cancelled pointsToFetch :
  snd (batchLoop (S (List.length pointsToFetch)) offline cancelled
         pointsToFetch 0 emptyAccumulators (publish emptyAccumulators))
  = Returns tt.
Proof.
  destruct (batchLoop_outcome offline cancelled pointsToFetch
              (List.length pointsToFetch) 0 emptyAccumulators
              (publish emptyAccumulators))
    as [Hok|[_ (point & img & _ & Hres & _)]]; [lia | exact Hok |].
  rewrite offline_lookup_is_none in Hres. discriminate Hres.
Qed.

Definition toLookupPoint (w : Sampler.Waypoint) : LookupPoint :=
  {| point_coord := Sampler.coord w; point_heading := Sampler.bearing w |}.

(** C3: in the sequence of accepted images the orchestrator shows
    (after any number of batches, also after a cancellation or an
    abort), the entries are the thumbnails and capture coordinates of a
    list of images returned by lookups in which no identifier occurs
    twice, and any two different entries are at least
    [minImageDistanceKm] = 0.03 km apart in haversine distance.  Since
    the list is in order of acceptance, each image was new and that far
    from every image accepted before it. *)
Theorem C3_accepted_images_are_separated_and_unique :
  forall fetch cancelled spacedPoints,
    let shown := fst (fetchImages fetch cancelled spacedPoints) in
    exists accepted : list MapillaryImage,
      images shown = thumbUrl <$> accepted /\
      Some <$> coordinates_shown shown = captureCoord <$> accepted /\
      NoDup (image_id <$> accepted) /\
      (forall i j ci cj,
          i <> j ->
          coordinates_shown shown !! i = Some ci ->
          coordinates_shown shown !! j = Some cj ->
          0.03 <= distance ci cj) /\
      (forall img, img ∈ accepted ->
         exists w, w ∈ spacedPoints /\
           getMapillaryImage fetch (Sampler.coord w) (Sampler.bearing w)
           = Returns (Some img)).
Proof.
  intros fetch cancelled spacedPoints. cbn zeta. unfold fetchImages.
  fold toLookupPoint.
  set (points := toLookupPoint <$> spacedPoints).
  assert (Hstart : shows fetch points (publish emptyAccumulators)).
  { exists emptyAccumulators, []. split; [reflexivity|].
    split; [exact holds_empty|].
    intros img Hin. apply elem_of_nil in Hin. contradiction. }
  destruct (batchLoop_shows fetch cancelled points
              (S (List.length points)) 0 emptyAccumulators
              (publish emptyAccumulators) [] holds_empty)
    as (acc & accepted & Hshown & Hholds & Hfrom);
    [intros img Hin; apply elem_of_nil in Hin; contradiction
    | exact Hstart |].
  rewrite Hshown.
  destruct Hholds as (Himgs & Hcoords & _ & _ & Hnodup & Hsep).
  exists accepted. cbn [images coordinates_shown publish].
  repeat split; [exact Himgs | exact Hcoords | exact Hnodup | |].
  - intros i j ci cj Hij Hi Hj.
    exact (Hsep i j ci cj Hij Hi Hj).
  - intros img Hin. destruct (Hfrom img Hin) as (point & Hpoint & Hres).
    apply list_elem_of_fmap in Hpoint as (w & -> & Hw).
    exists w. split; [exact Hw|].
    rewrite <- Hres.
    exact (getMapillaryImage_lookupResult fetch (toLookupPoint w)).
Qed.

(** C6: a lookup never raises -- whatever the provider does, it
    returns -- and it returns none when the request is rejected, the
    response is not [ok] or the body cannot be read.  The orchestrator
    skips a none result, and the image phase is never left by an
    exception on account of a failed lookup: it runs to its end unless
    a lookup that did not fail returned an image without geometry
    coordinates. *)
Theorem C6_failed_lookup_is_contained :
  forall fetch,
    (forall coord heading,
        exists r, getMapillaryImage fetch coord heading = Returns r) /\
    (forall coord heading,
        lookupFails fetch coord ->
        getMapillaryImage fetch coord heading = Returns None) /\
    (forall acc, processResult acc None = Returns acc) /\
    (forall cancelled spacedPoints,
        snd (fetchImages fetch cancelled spacedPoints) = Returns tt \/
        exists w img,
          w ∈ spacedPoints /\
          ~ lookupFails fetch (Sampler.coord w) /\
          getMapillaryImage fetch (Sampler.coord w) (Sampler.bearing w)
          = Returns (Some img) /\
          captureCoord img = None).
Proof.
  intros fetch. split; [|split; [|split]].
  - intros coord heading. apply getMapillaryImage_returns.
  - intros coord heading. apply failed_lookup_is_none.
  - reflexivity.
  - intros cancelled spacedPoints. unfold fetchImages.
    fold toLookupPoint.
    set (points := toLookupPoint <$> spacedPoints).
    destruct (batchLoop_outcome fetch cancelled points
                (List.length points) 0 emptyAccumulators
                (publish emptyAccumulators))
      as [Hok|[_ (point & img & Hpoint & Hres & Hnone)]]; [lia | | ].
    + left. exact Hok.
    + right.
      apply list_elem_of_fmap in Hpoint as (w & -> & Hw).
      assert (Hrun : getMapillaryImage fetch (Sampler.coord w)
                       (Sampler.bearing w) = Returns (Some img)).
      { rewrite <- Hres.
        exact (getMapillaryImage_lookupResult fetch (toLookupPoint w)). }
      exists w, img. repeat split; [exact Hw | | exact Hrun | exact Hnone].
      intros Hfail.
      rewrite (failed_lookup_is_none fetch _ (Sampler.bearing w) Hfail)
        in Hrun.
      discriminate Hrun.
Qed.

End OrchestratorFacts.

(** ** Properties of the route sampler *)

Module SamplerFacts.
Import Geodesy Sampler.
#[local] Open Scope R_scope.

Lemma length_segmentLengthsOf : forall routeCoords,
  List.length (segmentLengthsOf routeCoords)
  = (List.length routeCoords - 1)%nat.
Proof.
  induction routeCoords as [|p rest IH]; [reflexivity|].
  destruct rest as [|q rest]; [reflexivity|].
  change (segmentLengthsOf (p :: q :: rest))
    with (distance p q :: segmentLengthsOf (q :: rest)).
  cbn [List.length] in *. rewrite IH. lia.
Qed.

(** Entry [i] of [segmentLengths] is the distance between route points
    [i] and [i + 1]. *)
Lemma lookup_segmentLengthsOf : forall routeCoords i len,
  segmentLengthsOf routeCoords !! i = Some len ->
  exists a b, routeCoords !! i = Some a /\ routeCoords !! S i = Some b /\
              len = distance a b.
Proof.
  induction routeCoords as [|p rest IH]; intros i len Hi;
    [cbn in Hi; rewrite lookup_nil in Hi; discriminate Hi|].
  destruct rest as [|q rest];
    [cbn in Hi; rewrite lookup_nil in Hi; discriminate Hi|].
  change (segmentLengthsOf (p :: q :: rest))
    with (distance p q :: segmentLengthsOf (q :: rest)) in Hi.
  destruct i as [|i].
  - injection Hi as <-. exists p, q. repeat split.
  - destruct (IH i len Hi) as (a & b & Ha & Hb & Hlen).
    exists a, b. repeat split; assumption.
Qed.

Lemma sumFrom_snoc start lengths x :
  sumFrom start (lengths ++ [x]) = sumFrom start lengths + x.
Proof. unfold sumFrom. rewrite fold_left_app. reflexivity. Qed.

(** The length of the route before segment [i]. *)
Definition lengthBefore (segmentLengths : list R) (i : nat) : R :=
  sumFrom 0 (take i segmentLengths).

Lemma lengthBefore_S segmentLengths i len :
  segmentLengths !! i = Some len ->
  lengthBefore segmentLengths (S i) = lengthBefore segmentLengths i + len.
Proof.
  intros Hi. unfold lengthBefore.
  rewrite (take_S_r _ _ _ Hi). apply sumFrom_snoc.
Qed.

Lemma lengthBefore_all segmentLengths i :
  (List.length segmentLengths <= i)%nat ->
  lengthBefore segmentLengths i = sumFrom 0 segmentLengths.
Proof. intros Hi. unfold lengthBefore. rewrite take_ge by exact Hi. done. Qed.

(** [up] drops by one when its argument does. *)
Lemma up_minus_1 x : up (x - 1) = (up x - 1)%Z.
Proof.
  symmetry. apply tech_up; destruct (archimed x) as [Hgt Hle];
    rewrite minus_IZR; lra.
Qed.

Lemma up_pos x : 0 < x -> (1 <= up x)%Z.
Proof.
  intros Hx. destruct (archimed x) as [Hgt _].
  assert (H0 : (0 < up x)%Z) by (apply lt_IZR; lra). lia.
Qed.

Section LoopFacts.
Variables (p0 p1 : Point) (rest : list Point).
Variable spacing : R.
Hypothesis spacing_pos : 0 < spacing.

#[local] Abbreviation route := (p0 :: p1 :: rest).
#[local] Abbreviation segs := (segmentLengthsOf (p0 :: p1 :: rest)).
#[local] Abbreviation total := (sumFrom 0 (segmentLengthsOf (p0 :: p1 :: rest))).
#[local] Abbreviation guard := (loopGuard route total).
#[local] Abbreviation body := (loopBody route segs spacing).
#[local] Abbreviation first :=
  {| coord := p0; bearing := calculateInitialCompassBearing p0 p1 |}.

(** Interior waypoint number [k] (counted from 0) stands for the
    multiple [(k + 1) * spacing], which lies before the end of the
    route; it is the projection from the start of the segment that
    contains that cumulative distance, along that segment's bearing,
    by what remains of the distance inside the segment. *)
Definition placed (k : nat) (w : Waypoint) : Prop :=
  INR (S k) * spacing < total /\
  exists i a b,
    route !! i = Some a /\ route !! S i = Some b /\
    lengthBefore segs i < INR (S k) * spacing <= lengthBefore segs (S i) /\
    bearing w = calculateInitialCompassBearing a b /\
    coord w = calculateDestinationPoint a
                (calculateInitialCompassBearing a b)
                (INR (S k) * spacing - lengthBefore segs i).

Record invariant (st : LoopState) : Prop := {
  inv_into : distanceIntoSegment st = 0;
  inv_index : (currentSegmentIndex st <= List.length segs)%nat;
  inv_before :
    accumulatedDistance st = lengthBefore segs (currentSegmentIndex st);
  inv_ahead : accumulatedDistance st < nextPointDistance st;
  inv_result :
    exists ws,
      result st = first :: ws /\
      nextPointDistance st = INR (S (List.length ws)) * spacing /\
      forall k w, ws !! k = Some w -> placed k w
}.

Lemma invariant_initial : invariant (initialState p0 p1 spacing).
Proof.
  split; cbn.
  - reflexivity.
  - lia.
  - reflexivity.
  - exact spacing_pos.
  - exists []. split; [reflexivity|]. split; [cbn; lra|].
    intros k w Hk. rewrite lookup_nil in Hk. discriminate Hk.
Qed.

(** The variant of the loop: segments still ahead plus multiples of
    the spacing still below the total length. *)
Definition variant (st : LoopState) : nat :=
  (List.length segs - currentSegmentIndex st)
  + Z.to_nat (up ((total - nextPointDistance st) / spacing)).

Lemma guard_true st :
  guard st = true ->
  nextPointDistance st < total /\
  (currentSegmentIndex st < List.length segs)%nat.
Proof.
  unfold loopGuard. intros Hg. apply andb_true_iff in Hg as [Hnext Hidx].
  apply bool_decide_eq_true in Hnext. apply Nat.ltb_lt in Hidx.
  rewrite length_segmentLengthsOf. split; assumption.
Qed.

Lemma guard_false st :
  invariant st -> guard st = false -> total <= nextPointDistance st.
Proof.
  intros Hinv Hg. unfold loopGuard in Hg.
  apply andb_false_iff in Hg as [Hnext|Hidx].
  - apply bool_decide_eq_false in Hnext. lra.
  - apply Nat.ltb_ge in Hidx.
    rewrite <- length_segmentLengthsOf in Hidx.
    pose proof (inv_before st Hinv) as Hacc.
    rewrite (lengthBefore_all _ _ Hidx) in Hacc.
    pose proof (inv_ahead st Hinv). lra.
Qed.

(** One iteration entered with the guard true: the body returns, keeps
    the invariant, lowers the variant, and divides -- in its first
    branch -- by a positive segment length. *)
Lemma body_step st :
  invariant st -> guard st = true ->
  exists st' len,
    body st = Returns st' /\ invariant st' /\
    (variant st' < variant st)%nat /\
    segs !! currentSegmentIndex st = Some len /\
    (pointInCurrentSegment st len = true -> 0 < len).
Proof.
  intros Hinv Hg. destruct (guard_true st Hg) as [Hnext Hidx].
  destruct Hinv as [Hinto Hindex Hbefore Hahead (ws & Hres & Hmult & Hws)].
  destruct (lookup_lt_is_Some_2 segs _ Hidx) as [len Hlen].
  destruct (lookup_segmentLengthsOf _ _ _ Hlen) as (a & b & Ha & Hb & Hdist).
  unfold loopBody. rewrite Hlen, Ha, Hb.
  destruct (pointInCurrentSegment st len) eqn:Hin.
  - (* the point is in the current segment *)
    eexists _, len. split; [reflexivity|].
    unfold pointInCurrentSegment in Hin.
    apply bool_decide_eq_true in Hin. rewrite Hinto in Hin.
    split; [|split; [|split; [reflexivity | intros _; lra]]].
    + split; cbn [distanceIntoSegment currentSegmentIndex
                    accumulatedDistance nextPointDistance result].
      * exact Hinto.
      * exact Hindex.
      * exact Hbefore.
      * lra.
      * exists (ws ++ [{| coord := calculateDestinationPoint a
                           (calculateInitialCompassBearing a b)
                           (distanceIntoSegment st
                            + (nextPointDistance st
                               - accumulatedDistance st));
                         bearing := calculateInitialCompassBearing a b |}]).
        split; [rewrite Hres; reflexivity|].
        split.
        -- rewrite length_app. cbn [List.length].
           replace (List.length ws + 1)%nat with (S (List.length ws))
             by lia.
           rewrite Hmult, !S_INR. lra.
        -- intros k w Hk.
           apply lookup_snoc_Some in Hk as [[_ Hk]|[-> <-]];
             [exact (Hws k w Hk)|].
           split; [rewrite <- Hmult; exact Hnext|].
           exists (currentSegmentIndex st), a, b.
           rewrite (lengthBefore_S _ _ _ Hlen), <- Hbefore, <- Hmult.
           repeat split; [exact Ha | exact Hb | lra | lra |].
           cbn [coord]. rewrite Hinto. f_equal. lra.
    + unfold variant. cbn [nextPointDistance currentSegmentIndex].
      replace ((total - (nextPointDistance st + spacing)) / spacing)
        with ((total - nextPointDistance st) / spacing - 1)
        by (field; lra).
      rewrite up_minus_1.
      assert (Hpos : 0 < (total - nextPointDistance st) / spacing).
      { apply Rdiv_lt_0_compat; lra. }
      pose proof (up_pos _ Hpos). lia.
  - (* move to the next segment *)
    eexists _, len. split; [reflexivity|].
    assert (Hno : pointInCurrentSegment st len = true -> 0 < len)
      by (intros Hc; rewrite Hin in Hc; discriminate Hc).
    unfold pointInCurrentSegment in Hin.
    apply bool_decide_eq_false in Hin. rewrite Hinto in Hin.
    split; [|split; [|split; [reflexivity | exact Hno]]].
    + split; cbn [distanceIntoSegment currentSegmentIndex
                    accumulatedDistance nextPointDistance result].
      * reflexivity.
      * lia.
      * rewrite (lengthBefore_S _ _ _ Hlen), Hinto, Hbefore. lra.
      * rewrite Hinto. lra.
      * exists ws. split; [exact Hres|]. split; [exact Hmult | exact Hws].
    + unfold variant. cbn [nextPointDistance currentSegmentIndex]. lia.
Qed.

Lemma whileLoop_returns : forall n st,
  invariant st -> (variant st <= n)%nat ->
  exists st',
    whileLoop route segs total spacing (S n) st = Returns st' /\
    invariant st' /\ guard st' = false.
Proof.
  induction n as [|n IH]; intros st Hinv Hvar; cbn [whileLoop].
  - destruct (guard st) eqn:Hg.
    + destruct (body_step st Hinv Hg) as (st' & _ & _ & _ & Hlt & _). lia.
    + exists st. split; [reflexivity|]. split; assumption.
  - destruct (guard st) eqn:Hg.
    + destruct (body_step st Hinv Hg) as (st1 & _ & -> & Hinv1 & Hlt & _).
      cbn [mbind outcome_bind].
      apply (IH st1 Hinv1). lia.
    + exists st. split; [reflexivity|]. split; assumption.
Qed.

Lemma whileLoop_more_fuel : forall n st st',
  whileLoop route segs total spacing n st = Returns st' ->
  forall n', (n <= n')%nat ->
    whileLoop route segs total spacing n' st = Returns st'.
Proof.
  induction n as [|n IH]; intros st st' Hrun n' Hle;
    cbn [whileLoop] in Hrun; [discriminate Hrun|].
  destruct n' as [|n']; [lia|]. cbn [whileLoop].
  destruct (guard st); [|exact Hrun].
  destruct (body st) as [st1| |]; cbn [mbind outcome_bind] in *;
    try discriminate Hrun.
  apply (IH st1 st' Hrun). lia.
Qed.

(** Every state reached by iterating the body satisfies the
    invariant. *)
Lemma iterations_invariant : forall k st st',
  invariant st ->
  iterations route segs total spacing k st = Returns st' ->
  invariant st'.
Proof.
  induction k as [|k IH]; intros st st' Hinv Hrun; cbn [iterations] in Hrun.
  - injection Hrun as <-. exact Hinv.
  - destruct (guard st) eqn:Hg; [|discriminate Hrun].
    destruct (body_step st Hinv Hg) as (st1 & _ & Hbody & Hinv1 & _).
    rewrite Hbody in Hrun. cbn [mbind outcome_bind] in Hrun.
    exact (IH st1 st' Hinv1 Hrun).
Qed.

End LoopFacts.

(** *** The result of the sampler *)

(** [L] is a whole number of spacings. *)
Definition isMultiple (L spacing : R) : Prop :=
  exists n : Z, L = IZR n * spacing.

Lemma sumFrom_nonneg : forall lengths start,
  Forall (fun x => 0 <= x) lengths -> start <= sumFrom start lengths.
Proof.
  induction lengths as [|x lengths IH]; intros start Hall; cbn.
  - lra.
  - apply Forall_cons in Hall as [Hx Hall].
    specialize (IH (start + x) Hall). unfold sumFrom in IH. lra.
Qed.

Lemma segmentLengthsOf_nonneg : forall routeCoords,
  Forall (fun x => 0 <= x) (segmentLengthsOf routeCoords).
Proof.
  induction routeCoords as [|p rest IH]; [constructor|].
  destruct rest as [|q rest]; [constructor|].
  change (segmentLengthsOf (p :: q :: rest))
    with (distance p q :: segmentLengthsOf (q :: rest)).
  constructor; [apply GeodesyFacts.distance_nonneg | exact IH].
Qed.

Lemma routeLength_nonneg routeCoords : 0 <= routeLength routeCoords.
Proof. apply sumFrom_nonneg, segmentLengthsOf_nonneg. Qed.

(** The sampler returns, for any sufficient number of iterations, the
    first route point followed by one waypoint for each positive
    multiple of the spacing strictly below the route length, each
    placed as [placed] says. *)
Lemma sampler_result p0 p1 rest targetSpacingMeters :
  0 < targetSpacingMeters ->
  let routeCoords := p0 :: p1 :: rest in
  let spacing := targetSpacingMeters / 1000 in
  exists fuel interior,
    (forall fuel', (fuel <= fuel')%nat ->
       generateEvenlySpacedPoints fuel' routeCoords targetSpacingMeters
       = Returns ({| coord := p0;
                     bearing := calculateInitialCompassBearing p0 p1 |}
                  :: interior)) /\
    (forall k, (k < List.length interior)%nat <->
               INR (S k) * spacing < routeLength routeCoords) /\
    (forall k w, interior !! k = Some w -> placed p0 p1 rest spacing k w).
Proof.
  intros Hs routeCoords spacing. subst routeCoords.
  assert (Hspacing : 0 < spacing) by (unfold spacing; lra).
  destruct (whileLoop_returns p0 p1 rest spacing Hspacing
              (variant p0 p1 rest spacing (initialState p0 p1 spacing))
              (initialState p0 p1 spacing)
              (invariant_initial p0 p1 rest spacing Hspacing))
    as (st & Hrun & Hinv & Hguard); [lia|].
  pose proof (guard_false p0 p1 rest spacing st Hinv Hguard) as Hend.
  destruct (inv_result p0 p1 rest spacing st Hinv)
    as (interior & Hres & Hnext & Hplaced).
  eexists _, interior. split; [|split].
  - intros fuel' Hfuel. unfold generateEvenlySpacedPoints, samplePoints.
    cbn [List.length Nat.ltb Nat.leb lookup list_lookup].
    fold spacing.
    rewrite (whileLoop_more_fuel p0 p1 rest spacing _ _ _ Hrun fuel' Hfuel).
    cbn [mbind outcome_bind]. rewrite Hres. reflexivity.
  - intros k. split.
    + intros Hk. destruct (lookup_lt_is_Some_2 interior k Hk) as [w Hw].
      exact (proj1 (Hplaced k w Hw)).
    + intros Hbelow. unfold routeLength in Hbelow.
      rewrite Hnext in Hend.
      assert (Hlt : INR (S k) < INR (S (List.length interior))) by nra.
      apply INR_lt in Hlt. lia.
  - exact Hplaced.
Qed.

(** The number of interior waypoints against [floor (L / spacing)]. *)
Lemma interior_count_floor L spacing (m : nat) :
  0 < spacing -> 0 <= L ->
  (forall k, (k < m)%nat <-> INR (S k) * spacing < L) ->
  (0 < L /\ isMultiple L spacing ->
     Z.of_nat (S m) = Int_part (L / spacing)) /\
  (~ (0 < L /\ isMultiple L spacing) ->
     Z.of_nat m = Int_part (L / spacing)).
Proof.
  intros Hs HL Hcount.
  assert (Hupper : L <= INR (S m) * spacing).
  { destruct (Rle_lt_dec L (INR (S m) * spacing)) as [H|H]; [exact H|].
    apply Hcount in H. lia. }
  assert (Hlower : INR m * spacing <= L /\
                   (0 < L -> INR m * spacing < L)).
  { destruct m as [|m'].
    - cbn. split; [lra | intros; lra].
    - assert (H : INR (S m') * spacing < L) by (apply Hcount; lia).
      split; [lra | intros; exact H]. }
  rewrite S_INR in Hupper. rewrite !INR_IZR_INZ in *.
  assert (Hq : L = L / spacing * spacing) by (field; lra).
  split.
  - intros [Hpos [n Hn]].
    replace (L / spacing) with (IZR n) by (rewrite Hn; field; lra).
    assert (Hint : Int_part (IZR n) = n)
      by (symmetry; apply Int_part_spec; lra).
    rewrite Hint. destruct Hlower as [_ Hlow]. specialize (Hlow Hpos).
    rewrite Hn in Hlow, Hupper.
    assert (H1 : IZR (Z.of_nat m) < IZR n) by nra.
    assert (H2 : IZR n <= IZR (Z.of_nat m + 1))
      by (rewrite plus_IZR; nra).
    apply lt_IZR in H1. apply le_IZR in H2. lia.
  - intros Hnot. apply Int_part_spec.
    destruct (Rle_lt_dec L 0) as [Hzero|Hpos].
    + assert (L = 0) by lra. subst L.
      destruct m as [|m'].
      * change (Z.of_nat 0) with 0%Z.
        replace (0 / spacing) with 0 by (field; lra). lra.
      * assert (H : INR 1 * spacing < 0) by (apply Hcount; lia).
        rewrite INR_1 in H. lra.
    + destruct Hlower as [_ Hlow]. specialize (Hlow Hpos).
      assert (Hstrict : L < (IZR (Z.of_nat m) + 1) * spacing).
      { destruct Hupper as [H|H]; [exact H|].
        exfalso. apply Hnot. split; [exact Hpos|].
        exists (Z.of_nat m + 1)%Z. rewrite plus_IZR. exact H. }
      remember (L / spacing) as q eqn:Heq. clear Heq.
      split; nra.
Qed.

(** C9 (amended): in exact real arithmetic, for every route -- also one
    with duplicate consecutive points, whose segments have length 0 --
    and every spacing > 0, the sampler terminates: from some number of
    iterations on it returns one and the same finite waypoint sequence.
    Moreover, whenever an iteration takes the branch that divides by
    the segment length, that length is positive: no division by
    zero. *)
Theorem C9_sampler_terminates_without_dividing_by_zero :
  forall routeCoords targetSpacingMeters,
    0 < targetSpacingMeters ->
    (exists fuel waypoints,
        forall fuel', (fuel <= fuel')%nat ->
          generateEvenlySpacedPoints fuel' routeCoords targetSpacingMeters
          = Returns waypoints) /\
    (forall p0 p1 rest k st segmentLength,
        routeCoords = p0 :: p1 :: rest ->
        iterations routeCoords (segmentLengthsOf routeCoords)
          (routeLength routeCoords) (targetSpacingMeters / 1000) k
          (initialState p0 p1 (targetSpacingMeters / 1000)) = Returns st ->
        loopGuard routeCoords (routeLength routeCoords) st = true ->
        segmentLengthsOf routeCoords !! currentSegmentIndex st
          = Some segmentLength ->
        pointInCurrentSegment st segmentLength = true ->
        0 < segmentLength).
Proof.
  intros routeCoords targetSpacingMeters Hs. split.
  - destruct routeCoords as [|p0 [|p1 rest]].
    + exists 0%nat, []. intros fuel' _. reflexivity.
    + exists 0%nat, []. intros fuel' _. reflexivity.
    + destruct (sampler_result p0 p1 rest targetSpacingMeters Hs)
        as (fuel & interior & Hrun & _).
      exists fuel. eexists. exact Hrun.
  - intros p0 p1 rest k st segmentLength -> Hiter Hguard Hlen Hin.
    assert (Hspacing : 0 < targetSpacingMeters / 1000) by lra.
    pose proof (iterations_invariant p0 p1 rest _ Hspacing k _ st
                  (invariant_initial p0 p1 rest _ Hspacing) Hiter) as Hinv.
    destruct (body_step p0 p1 rest _ Hspacing st Hinv Hguard)
      as (st' & len & _ & _ & _ & Hlen' & Hpos).
    rewrite Hlen in Hlen'. injection Hlen' as <-.
    exact (Hpos Hin).
Qed.

(** A route with a duplicated point: its first segment has length 0. *)
Definition routeWithDuplicate : list Point := [(0, 0); (0, 0); (0, 1)].

Lemma C9_sampler_terminates_without_dividing_by_zero_witness :
  (exists fuel waypoints,
      forall fuel', (fuel <= fuel')%nat ->
        generateEvenlySpacedPoints fuel' routeWithDuplicate 50
        = Returns waypoints) /\
  (forall p0 p1 rest k st segmentLength,
      routeWithDuplicate = p0 :: p1 :: rest ->
      iterations routeWithDuplicate (segmentLengthsOf routeWithDuplicate)
        (routeLength routeWithDuplicate) (50 / 1000) k
        (initialState p0 p1 (50 / 1000)) = Returns st ->
      loopGuard routeWithDuplicate (routeLength routeWithDuplicate) st
        = true ->
      segmentLengthsOf routeWithDuplicate !! currentSegmentIndex st
        = Some segmentLength ->
      pointInCurrentSegment st segmentLength = true ->
      0 < segmentLength).
Proof.
  apply (C9_sampler_terminates_without_dividing_by_zero
           routeWithDuplicate 50).
  lra.
Defined.

Lemma duplicate_segment_length : distance (0, 0) (0, 0) = 0.
Proof.
  replace (0, 0) with (0, 0 + toDegrees 0) at 2
    by (unfold toDegrees; f_equal; ring).
  rewrite GeodesyFacts.distance_on_equator; [ring|].
  pose proof PI_RGT_0. lra.
Qed.

Lemma one_degree_length : distance (0, 0) (0, 1) = 6371 * (PI / 180).
Proof.
  pose proof PI_RGT_0 as Hpi.
  replace (0, 1) with (0, 0 + toDegrees (PI / 180))
    by (unfold toDegrees; f_equal; field; lra).
  rewrite GeodesyFacts.distance_on_equator; [reflexivity|]. lra.
Qed.

(** On the route with the duplicated point the first iteration meets the
    segment of length 0: the next multiple is not inside it, so the
    cursor moves to the next segment and nothing is emitted. *)
Example duplicate_point_is_skipped :
  exists st,
    iterations routeWithDuplicate (segmentLengthsOf routeWithDuplicate)
      (routeLength routeWithDuplicate) (50 / 1000) 1
      (initialState (0, 0) (0, 0) (50 / 1000)) = Returns st /\
    currentSegmentIndex st = 1%nat /\
    accumulatedDistance st = 0 /\
    result st = result (initialState (0, 0) (0, 0) (50 / 1000)).
Proof.
  pose proof PI2_3_2 as Hpi.
  unfold routeWithDuplicate, routeLength.
  cbn [segmentLengthsOf sumFrom fold_left iterations].
  rewrite duplicate_segment_length, one_degree_length.
  unfold loopGuard. cbn [nextPointDistance currentSegmentIndex initialState
    List.length Nat.sub Nat.ltb Nat.leb andb].
  rewrite bool_decide_eq_true_2 by lra. cbn [andb].
  unfold loopBody. cbn [currentSegmentIndex initialState lookup list_lookup].
  unfold pointInCurrentSegment.
  cbn [nextPointDistance accumulatedDistance distanceIntoSegment initialState].
  rewrite bool_decide_eq_false_2 by lra.
  cbn [mbind outcome_bind]. eexists. split; [reflexivity|].
  cbn [currentSegmentIndex accumulatedDistance result].
  repeat split. lra.
Qed.

(** *** Counting the waypoints *)

(** The point (0, 0) and the point 100 m east of it along the equator. *)
Definition equatorOrigin : Point := (0, 0).
Definition hundredMetresEast : Point := (0, toDegrees (0.1 / 6371)).

Lemma hundred_metres : routeLength [equatorOrigin; hundredMetresEast] = 0.1.
Proof.
  unfold routeLength, hundredMetresEast, equatorOrigin.
  cbn [segmentLengthsOf sumFrom fold_left].
  replace (toDegrees (0.1 / 6371)) with (0 + toDegrees (0.1 / 6371)) by ring.
  rewrite GeodesyFacts.distance_on_equator.
  - field.
  - pose proof PI2_3_2. split; lra.
Qed.

(** With a spacing of 0 km, or below, the next multiple never passes
    the first segment of a route of positive length: the loop is never
    left. *)
Lemma nonpositive_spacing_loops fuel routeCoords targetSpacingKm :
  targetSpacingKm <= 0 -> 0 < routeLength routeCoords ->
  samplePoints fuel routeCoords targetSpacingKm = OutOfFuel.
Proof.
  intros Hs Hlen.
  destruct routeCoords as [|p0 [|p1 rest]];
    try (unfold routeLength in Hlen; cbn in Hlen; lra).
  unfold samplePoints.
  cbn [List.length Nat.ltb Nat.leb lookup list_lookup].
  fold (routeLength (p0 :: p1 :: rest)).
  assert (Hloop : forall fuel st,
    currentSegmentIndex st = 0%nat -> accumulatedDistance st = 0 ->
    distanceIntoSegment st = 0 -> nextPointDistance st <= 0 ->
    whileLoop (p0 :: p1 :: rest) (segmentLengthsOf (p0 :: p1 :: rest))
      (routeLength (p0 :: p1 :: rest)) targetSpacingKm fuel st
    = OutOfFuel).
  { clear fuel. induction fuel as [|fuel IH]; intros st Hidx Hacc Hinto Hnext;
      [reflexivity|].
    cbn [whileLoop]. unfold loopGuard. rewrite Hidx.
    rewrite bool_decide_eq_true_2 by lra.
    cbn [List.length Nat.sub Nat.ltb Nat.leb andb].
    unfold loopBody. rewrite Hidx.
    change (segmentLengthsOf (p0 :: p1 :: rest))
      with (distance p0 p1 :: segmentLengthsOf (p1 :: rest)).
    cbn [lookup list_lookup].
    unfold pointInCurrentSegment. rewrite Hacc, Hinto.
    pose proof (GeodesyFacts.distance_nonneg p0 p1).
    rewrite bool_decide_eq_true_2 by lra.
    cbn [mbind outcome_bind].
    apply IH; cbn [currentSegmentIndex accumulatedDistance
                   distanceIntoSegment nextPointDistance];
      first [reflexivity | assumption | lra]. }
  rewrite Hloop; [reflexivity | reflexivity | reflexivity | reflexivity |].
  cbn. lra.
Qed.

(** The smallest positive binary64 number is a spacing above 0 whose
    quotient by 1000 is 0. *)
Lemma smallest_spacing_underflows :
  Binary64.positive Binary64.smallestPositive = true /\
  Binary64.realOf (Binary64.kilometres Binary64.smallestPositive) = Some 0.
Proof. split; reflexivity. Qed.

(** C9, as stated, fails in the code's binary64 arithmetic: not every
    spacing above 0 lets the sampler terminate.  The spacing
    [2 ^ -1074] metres (about 4.9e-324) is positive, but divided by
    1000 it underflows to 0 km; the next multiple then stays at 0 and
    the loop never leaves the first segment of the 100 m route. *)
Lemma C9_positive_spacing_can_underflow_to_zero :
  ~ (forall routeCoords targetSpacingMeters,
        Binary64.positive targetSpacingMeters = true ->
        exists fuel waypoints,
          Binary64.generateEvenlySpacedPoints fuel routeCoords
            targetSpacingMeters
          = Some (Returns waypoints)).
Proof.
  intros Hclaim.
  destruct smallest_spacing_underflows as [Hpos Hzero].
  destruct (Hclaim [equatorOrigin; hundredMetresEast]
              Binary64.smallestPositive Hpos)
    as (fuel & waypoints & Hrun).
  unfold Binary64.generateEvenlySpacedPoints in Hrun. cbn zeta in Hrun.
  rewrite Hzero in Hrun. cbn [mbind option_bind] in Hrun.
  rewrite nonpositive_spacing_loops in Hrun;
    [discriminate Hrun | lra | rewrite hundred_metres; lra].
Qed.

(** On that 100 m route with spacing 50 m the sampler returns two
    waypoints: the initial point and the one at 50 m.  The multiple
    100 m, which lands exactly on the destination, is not emitted,
    because the loop runs while [nextPointDistance < totalDistance]. *)
Lemma two_waypoints_on_hundred_metres :
  exists fuel initial interior,
    generateEvenlySpacedPoints fuel [equatorOrigin; hundredMetresEast] 50
    = Returns [initial; interior].
Proof.
  destruct (sampler_result equatorOrigin hundredMetresEast [] 50)
    as (fuel & interior & Hrun & Hcount & _); [lra|].
  cbn zeta in Hcount. rewrite hundred_metres in Hcount.
  assert (H0 : (0 < List.length interior)%nat).
  { apply Hcount. cbn. lra. }
  assert (H1 : ~ (1 < List.length interior)%nat).
  { intros H. apply Hcount in H. cbn in H. lra. }
  destruct interior as [|w [|w' interior]]; cbn in H0, H1; try lia.
  exists fuel. eexists _, w. apply Hrun. lia.
Qed.

(** C1, as stated, fails: the sampler does not always emit
    [floor (L / s)] interior waypoints.  On a straight route of exactly
    100 m and spacing 50 m, [floor (L / s)] is 2, but the sampler emits
    the initial point and one interior waypoint only. *)
Lemma C1_multiple_at_destination_is_not_emitted :
  ~ (forall p q targetSpacingMeters fuel waypoints,
        0 < targetSpacingMeters ->
        generateEvenlySpacedPoints fuel [p; q] targetSpacingMeters
        = Returns waypoints ->
        Z.of_nat (List.length waypoints)
        = (1 + Int_part (routeLength [p; q]
                         / (targetSpacingMeters / 1000)))%Z).
Proof.
  intros Hclaim.
  destruct two_waypoints_on_hundred_metres
    as (fuel & initial & interior & Hrun).
  assert (H50 : 0 < 50) by lra.
  specialize (Hclaim equatorOrigin hundredMetresEast 50 fuel _ H50 Hrun).
  rewrite hundred_metres in Hclaim.
  replace (0.1 / (50 / 1000)) with 2 in Hclaim by lra.
  rewrite (TrigFacts.Int_part_spec_2) in Hclaim.
  cbn in Hclaim. lia.
Qed.

(** *** Spacing on a route of one great-circle segment *)

Section OneSegment.
Variables (p0 p1 : Point) (spacing : R).
Hypothesis spacing_pos : 0 < spacing.
Hypothesis not_a_pole : -90 < fst p0 < 90.

#[local] Abbreviation heading := (calculateInitialCompassBearing p0 p1).

(** On a two-point route every interior waypoint is projected from
    the first point. *)
Lemma placed_on_one_segment k w :
  placed p0 p1 [] spacing k w ->
  coord w = calculateDestinationPoint p0 heading (INR (S k) * spacing) /\
  INR (S k) * spacing < PI * 6371.
Proof.
  intros (Hbelow & i & a & b & Ha & Hb & _ & _ & Hcoord).
  destruct i as [|[|i]]; cbn in Ha, Hb; try discriminate Hb.
  injection Ha as <-. injection Hb as <-.
  split.
  - rewrite Hcoord. f_equal. unfold lengthBefore, sumFrom. cbn. lra.
  - cbn [segmentLengthsOf sumFrom fold_left] in Hbelow.
    pose proof (GeodesyFacts.distance_le_half_circumference p0 p1). lra.
Qed.

Lemma consecutive_waypoints_spacing interior :
  (forall k w, interior !! k = Some w -> placed p0 p1 [] spacing k w) ->
  forall k w w',
    ({| coord := p0; bearing := heading |} :: interior) !! k = Some w ->
    ({| coord := p0; bearing := heading |} :: interior) !! S k = Some w' ->
    distance (coord w) (coord w') = spacing.
Proof.
  intros Hplaced k w w' Hw Hw'. pose proof PI_RGT_0 as Hpi.
  cbn in Hw'.
  destruct (placed_on_one_segment k w' (Hplaced k w' Hw'))
    as [Hcoord' Hlt']. rewrite Hcoord'.
  pose proof (pos_INR k) as Hk.
  destruct k as [|k]; cbn in Hw.
  - injection Hw as <-. cbn [coord].
    rewrite <- (GeodesyFacts.projection_of_nothing p0 heading
                  not_a_pole) at 1.
    rewrite GeodesyFacts.projections_apart;
      [rewrite INR_1; lra | exact not_a_pole | rewrite INR_1; lra | lra].
  - destruct (placed_on_one_segment k w (Hplaced k w Hw))
      as [Hcoord Hlt]. rewrite Hcoord.
    rewrite GeodesyFacts.projections_apart;
      [ | exact not_a_pole | | lra].
    + rewrite (S_INR (S k)). lra.
    + rewrite (S_INR (S k)). rewrite S_INR in Hk |- *.
      pose proof (pos_INR k). split; nra.
Qed.

End OneSegment.

(** *** Spacing on a straight route of any number of points *)

Import GreatCircleFacts.

Section StraightRoute.
Variables (p0 p1 : Point) (rest : list Point) (spacing : R).
Variables (v0 u0 : Vec) (angles : list R).
Hypothesis spacing_pos : 0 < spacing.
Hypothesis spacing_below : spacing <= PI * 6371.
Hypothesis route_straight : straight v0 u0 angles (p0 :: p1 :: rest).

#[local] Abbreviation route := (p0 :: p1 :: rest).
#[local] Abbreviation segs := (segmentLengthsOf (p0 :: p1 :: rest)).
#[local] Abbreviation heading := (calculateInitialCompassBearing p0 p1).

(** The angle of route point [i]. *)
Lemma angle_of_point i a :
  route !! i = Some a ->
  exists theta,
    angles !! i = Some theta /\ -90 < fst a < 90 /\
    unitVector a = along v0 u0 theta.
Proof.
  intros Ha. destruct route_straight as (_ & _ & _ & Hon & _).
  destruct (Forall2_lookup_r _ _ _ _ _ Hon Ha) as (theta & Hth & Hpole & Hv).
  exists theta. repeat split; assumption || apply Hpole.
Qed.

(** The length of the route before point [i] is the radius times the
    angle from the first point to point [i]. *)
Lemma lengthBefore_straight : forall i a theta theta0,
  route !! i = Some a -> angles !! i = Some theta ->
  angles !! 0%nat = Some theta0 ->
  lengthBefore segs i = 6371 * (theta - theta0).
Proof.
  destruct route_straight as (Hv0 & Hu0 & Hperp & Hon & Hsorted).
  induction i as [|i IH]; intros a theta theta0 Ha Hth Hth0.
  - rewrite Hth in Hth0. injection Hth0 as <-.
    unfold lengthBefore, sumFrom. cbn. ring.
  - assert (Hlt : (S i < List.length route)%nat)
      by (apply lookup_lt_is_Some; eexists; exact Ha).
    destruct (lookup_lt_is_Some_2 route i) as [b Hb]; [lia|].
    destruct (angle_of_point i b Hb) as (thb & Hthb & _ & Hvb).
    destruct (angle_of_point (S i) a Ha) as (tha & Htha & _ & Hva).
    rewrite Hth in Htha. injection Htha as <-.
    destruct (lookup_lt_is_Some_2 segs i) as [len Hlen].
    { rewrite length_segmentLengthsOf. lia. }
    rewrite (lengthBefore_S _ _ _ Hlen), (IH b thb theta0 Hb Hthb Hth0).
    destruct (lookup_segmentLengthsOf _ _ _ Hlen)
      as (b' & a' & Hb' & Ha' & ->).
    rewrite Hb in Hb'. injection Hb' as <-.
    rewrite Ha in Ha'. injection Ha' as <-.
    pose proof (Hsorted i thb theta Hthb Hth) as Hstep.
    rewrite (distance_along v0 u0 Hv0 Hu0 Hperp b a thb theta Hvb Hva)
      by lra.
    ring.
Qed.

(** Interior waypoint [k] lies on the circle, [(k + 1) * spacing]
    beyond the first point. *)
Lemma placed_on_circle k w theta0 :
  angles !! 0%nat = Some theta0 ->
  placed p0 p1 rest spacing k w ->
  unitVector (coord w) = along v0 u0 (theta0 + INR (S k) * spacing / 6371).
Proof.
  intros Hth0 (Hbelow & i & a & b & Ha & Hb & Hrange & _ & Hcoord).
  destruct route_straight as (Hv0 & Hu0 & Hperp & Hon & Hsorted).
  destruct (angle_of_point i a Ha) as (tha & Htha & Hpole & Hva).
  destruct (angle_of_point (S i) b Hb) as (thb & Hthb & _ & Hvb).
  rewrite (lengthBefore_straight i a tha theta0 Ha Htha Hth0) in Hrange, Hcoord.
  rewrite (lengthBefore_straight (S i) b thb theta0 Hb Hthb Hth0) in Hrange.
  pose proof (Hsorted i tha thb Htha Hthb) as Hstep.
  rewrite Hcoord.
  rewrite (continue_along v0 u0 Hv0 Hu0 Hperp a b tha thb _ Hpole Hva Hvb)
    by lra.
  f_equal. field.
Qed.

Lemma straight_route_spacing interior :
  (forall k w, interior !! k = Some w -> placed p0 p1 rest spacing k w) ->
  forall k w w',
    ({| coord := p0; bearing := heading |} :: interior) !! k = Some w ->
    ({| coord := p0; bearing := heading |} :: interior) !! S k = Some w' ->
    distance (coord w) (coord w') = spacing.
Proof.
  intros Hplaced k w w' Hw Hw'. pose proof PI_RGT_0 as Hpi.
  destruct route_straight as (Hv0 & Hu0 & Hperp & Hon & Hsorted).
  destruct (angle_of_point 0 p0 eq_refl) as (theta0 & Hth0 & _ & Hv).
  assert (Hat : forall j x,
    ({| coord := p0; bearing := heading |} :: interior) !! j = Some x ->
    unitVector (coord x) = along v0 u0 (theta0 + INR j * spacing / 6371)).
  { intros [|j] x Hx; cbn in Hx.
    - injection Hx as <-. cbn [coord INR]. rewrite Hv. f_equal. field.
    - exact (placed_on_circle j x theta0 Hth0 (Hplaced j x Hx)). }
  rewrite (distance_along v0 u0 Hv0 Hu0 Hperp _ _ _ _
             (Hat k w Hw) (Hat (S k) w' Hw')).
  - rewrite S_INR. field.
  - rewrite S_INR.
    replace (theta0 + (INR k + 1) * spacing / 6371
             - (theta0 + INR k * spacing / 6371))
      with (spacing / 6371) by field.
    split.
    + apply Rlt_le. apply Rdiv_lt_0_compat; lra.
    + apply (Rmult_le_reg_r 6371); [lra|].
      replace (spacing / 6371 * 6371) with spacing by field. exact spacing_below.
Qed.

End StraightRoute.

(** A straight route of three points, 150 m long: along the equator
    from longitude 0 over the point 75 m east to the point 150 m
    east. *)
Definition threePointLongitudes : list R :=
  [0; toDegrees (0.075 / 6371); toDegrees (0.15 / 6371)].

Definition threePointRoute : list Point :=
  (fun lon => (0, lon)) <$> threePointLongitudes.

Lemma toDegrees_below_half_turn x :
  0 <= x < PI -> 0 <= toDegrees x < 180.
Proof.
  intros Hx. pose proof PI_RGT_0 as Hpi. unfold toDegrees.
  assert (Hpos : 0 < 180 / PI) by (apply Rdiv_lt_0_compat; lra).
  split; [nra|].
  replace 180 with (PI * (180 / PI)) at 2 by (field; lra).
  apply Rmult_lt_compat_r; [exact Hpos | lra].
Qed.

Lemma three_point_route_straight :
  straight (1, 0, 0) (0, 1, 0) (toRadians <$> threePointLongitudes)
    threePointRoute.
Proof.
  apply equator_is_straight. pose proof PI2_3_2 as Hpi.
  intros [|[|i]] lon lon' Hlon Hlon'; cbn in Hlon, Hlon';
    try discriminate Hlon'; injection Hlon as <-; injection Hlon' as <-.
  - rewrite Rminus_0_r. apply toDegrees_below_half_turn. lra.
  - replace (toDegrees (0.15 / 6371) - toDegrees (0.075 / 6371))
      with (toDegrees (0.075 / 6371)) by (unfold toDegrees; lra).
    apply toDegrees_below_half_turn. lra.
Qed.

Lemma three_point_route_length : routeLength threePointRoute = 0.15.
Proof.
  pose proof PI2_3_2 as Hpi.
  unfold routeLength, threePointRoute, threePointLongitudes.
  cbn [fmap list_fmap segmentLengthsOf sumFrom fold_left].
  replace (toDegrees (0.15 / 6371))
    with (toDegrees (0.075 / 6371) + toDegrees (0.075 / 6371))
    by (unfold toDegrees; lra).
  rewrite GeodesyFacts.distance_on_equator by lra.
  replace (toDegrees (0.075 / 6371)) with (0 + toDegrees (0.075 / 6371))
    at 1 by ring.
  rewrite GeodesyFacts.distance_on_equator by lra.
  lra.
Qed.

(** On the three-point route with spacing 50 m the sampler returns
    three waypoints -- the initial point, the 50 m mark on the first
    segment and the 100 m mark on the second; the 150 m mark is the
    destination and is not emitted -- and each is 50 m from the one
    before. *)
Example three_point_route_sampled :
  exists fuel initial w1 w2,
    generateEvenlySpacedPoints fuel threePointRoute 50
    = Returns [initial; w1; w2] /\
    coord initial = equatorOrigin /\
    distance (coord initial) (coord w1) = 0.05 /\
    distance (coord w1) (coord w2) = 0.05.
Proof.
  pose proof PI2_3_2 as Hpi.
  destruct (sampler_result (0, 0) (0, toDegrees (0.075 / 6371))
              [(0, toDegrees (0.15 / 6371))] 50)
    as (fuel & interior & Hrun & Hcount & Hplaced); [lra|].
  cbn zeta in Hcount. fold threePointLongitudes in Hcount.
  change (routeLength _) with (routeLength threePointRoute) in Hcount.
  rewrite three_point_route_length in Hcount.
  assert (H1 : (1 < List.length interior)%nat).
  { apply Hcount. cbn [INR]. lra. }
  assert (H2 : ~ (2 < List.length interior)%nat).
  { intros H. apply Hcount in H. cbn [INR] in H. lra. }
  destruct interior as [|w1 [|w2 [|w3 interior]]]; cbn in H1, H2; try lia.
  pose proof (straight_route_spacing _ _ _ (50 / 1000) _ _ _
                ltac:(lra) ltac:(lra) three_point_route_straight
                [w1; w2] Hplaced) as Hspacing.
  exists fuel. eexists _, w1, w2.
  split; [apply Hrun; lia|]. split; [reflexivity|]. split.
  - rewrite (Hspacing 0%nat _ w1 eq_refl eq_refl). lra.
  - rewrite (Hspacing 1%nat w1 w2 eq_refl eq_refl). lra.
Qed.

(** C1 (amended): in exact real arithmetic.  A route of fewer than two
    points yields no waypoint.  For every route of at least two points,
    of total great-circle length [L], and every spacing [s > 0], the
    sampler returns the initial route point followed by exactly one
    interior waypoint for each positive multiple of [s] that is
    strictly less than [L].  That is [floor (L / s)] interior
    waypoints, except when [L] is a positive whole multiple of [s]:
    then the multiple that lands on the destination is not emitted and
    there are [floor (L / s) - 1].  Interior waypoint [k] is the
    great-circle projection, from the start of the segment containing
    the cumulative distance [(k + 1) * s], along that segment's
    bearing.  On a straight route -- any number of points in order
    along one great circle, none of them a pole, each less than half
    a turn beyond the one before -- with [s] at most half the
    circumference, and on every route of two points the first of which
    is not a pole, any two consecutive waypoints are exactly [s] apart
    in haversine distance. *)
Theorem C1_one_waypoint_per_multiple_below_length :
  forall routeCoords targetSpacingMeters,
    0 < targetSpacingMeters ->
    match routeCoords with
    | p0 :: p1 :: rest =>
        let L := routeLength routeCoords in
        let spacing := targetSpacingMeters / 1000 in
        let initial :=
          {| coord := p0;
             bearing := calculateInitialCompassBearing p0 p1 |} in
        exists fuel interior,
          (forall fuel', (fuel <= fuel')%nat ->
             generateEvenlySpacedPoints fuel' routeCoords
               targetSpacingMeters
             = Returns (initial :: interior)) /\
          (forall k, (k < List.length interior)%nat <->
                     INR (S k) * spacing < L) /\
          (0 < L /\ isMultiple L spacing ->
             Z.of_nat (S (List.length interior))
             = Int_part (L / spacing)) /\
          (~ (0 < L /\ isMultiple L spacing) ->
             Z.of_nat (List.length interior) = Int_part (L / spacing)) /\
          (forall k w, interior !! k = Some w ->
                       placed p0 p1 rest spacing k w) /\
          (forall v0 u0 angles,
              straight v0 u0 angles routeCoords ->
              spacing <= PI * 6371 ->
              forall k w w',
                (initial :: interior) !! k = Some w ->
                (initial :: interior) !! S k = Some w' ->
                distance (coord w) (coord w') = spacing) /\
          (rest = [] -> -90 < fst p0 < 90 ->
           forall k w w',
             (initial :: interior) !! k = Some w ->
             (initial :: interior) !! S k = Some w' ->
             distance (coord w) (coord w') = spacing)
    | _ =>
        forall fuel,
          generateEvenlySpacedPoints fuel routeCoords targetSpacingMeters
          = Returns []
    end.
Proof.
  intros routeCoords targetSpacingMeters Hs.
  destruct routeCoords as [|p0 [|p1 rest]];
    [intros fuel; reflexivity | intros fuel; reflexivity |].
  intros L spacing initial.
  assert (Hspacing : 0 < spacing) by (unfold spacing; lra).
  destruct (sampler_result p0 p1 rest targetSpacingMeters Hs)
    as (fuel & interior & Hrun & Hcount & Hplaced).
  fold spacing initial in Hrun.
  fold spacing L in Hcount. fold spacing in Hplaced.
  destruct (interior_count_floor L spacing (List.length interior) Hspacing
              (routeLength_nonneg (p0 :: p1 :: rest)) Hcount)
    as [Hmult Hother].
  exists fuel, interior.
  split; [exact Hrun|]. split; [exact Hcount|].
  split; [exact Hmult|]. split; [exact Hother|].
  split; [exact Hplaced|]. split.
  - intros v0 u0 angles Hstraight Hbelow.
    exact (straight_route_spacing p0 p1 rest spacing v0 u0 angles
             Hspacing Hbelow Hstraight interior Hplaced).
  - intros -> Hpole.
    exact (consecutive_waypoints_spacing p0 p1 spacing Hspacing Hpole
             interior Hplaced).
Qed.

Lemma C1_one_waypoint_per_multiple_below_length_witness :
  straight (1, 0, 0) (0, 1, 0) (toRadians <$> threePointLongitudes)
    threePointRoute /\
  50 / 1000 <= PI * 6371 /\
  let p0 := equatorOrigin in
  let p1 := (0, toDegrees (0.075 / 6371)) in
  let rest := [(0, toDegrees (0.15 / 6371))] in
  let L := routeLength threePointRoute in
  let spacing := 50 / 1000 in
  let initial :=
    {| coord := p0; bearing := calculateInitialCompassBearing p0 p1 |} in
  exists fuel interior,
    (forall fuel', (fuel <= fuel')%nat ->
       generateEvenlySpacedPoints fuel' threePointRoute 50
       = Returns (initial :: interior)) /\
    (forall k, (k < List.length interior)%nat <->
               INR (S k) * spacing < L) /\
    (0 < L /\ isMultiple L spacing ->
       Z.of_nat (S (List.length interior)) = Int_part (L / spacing)) /\
    (~ (0 < L /\ isMultiple L spacing) ->
       Z.of_nat (List.length interior) = Int_part (L / spacing)) /\
    (forall k w, interior !! k = Some w ->
                 placed p0 p1 rest spacing k w) /\
    (forall v0 u0 angles,
        straight v0 u0 angles threePointRoute ->
        spacing <= PI * 6371 ->
        forall k w w',
          (initial :: interior) !! k = Some w ->
          (initial :: interior) !! S k = Some w' ->
          distance (coord w) (coord w') = spacing) /\
    (rest = [] -> -90 < fst p0 < 90 ->
     forall k w w',
       (initial :: interior) !! k = Some w ->
       (initial :: interior) !! S k = Some w' ->
       distance (coord w) (coord w') = spacing).
Proof.
  split; [exact three_point_route_straight|].
  split; [pose proof PI2_3_2; lra|].
  apply (C1_one_waypoint_per_multiple_below_length threePointRoute 50).
  lra.
Defined.

End SamplerFacts.

(** ** Further properties of the great-circle functions *)

Module GeodesyMore.
Import JsMath Geodesy TrigFacts GeodesyFacts.
#[local] Open Scope R_scope.

Lemma atan_nonneg u : 0 <= u -> 0 <= atan u.
Proof.
  intros [Hu | <-]; [|rewrite atan_0; lra].
  rewrite <- atan_0. left. apply atan_increasing. exact Hu.
Qed.

Lemma atan_nonpos u : u <= 0 -> atan u <= 0.
Proof.
  intros [Hu | ->]; [|rewrite atan_0; lra].
  rewrite <- atan_0. left. apply atan_increasing. exact Hu.
Qed.

Lemma ratio_sign y x : x <> 0 -> y / x * (x * x) = y * x.
Proof. intros Hx. field. exact Hx. Qed.

(** [atan2] always returns an angle in (-PI, PI]. *)
Lemma atan2_range y x : - PI < atan2 y x <= PI.
Proof.
  pose proof PI_RGT_0 as Hpi. unfold atan2.
  destruct (decide (0 < x)) as [Hpos|Hnpos].
  - pose proof (atan_bound (y / x)). lra.
  - destruct (decide (x < 0)) as [Hneg|Hnneg].
    + pose proof (atan_bound (y / x)) as Hb.
      pose proof (ratio_sign y x ltac:(lra)) as Hq.
      assert (Hxx : 0 < x * x) by nra.
      remember (y / x) as q eqn:Heq. clear Heq.
      destruct (decide (0 <= y)) as [Hy|Hy].
      * assert (q <= 0).
        { destruct (Rle_lt_dec q 0) as [Hle|Hgt]; [exact Hle|].
          pose proof (Rmult_lt_0_compat _ _ Hgt Hxx). nra. }
        pose proof (atan_nonpos _ H). lra.
      * assert (0 < q).
        { destruct (Rlt_le_dec 0 q) as [Hlt|Hge]; [exact Hlt|].
          assert (0 <= (- q) * (x * x))
            by (apply Rmult_le_pos; lra).
          nra. }
        pose proof (atan_increasing 0 q H) as Hinc.
        rewrite atan_0 in Hinc. lra.
    + settle_cases; lra.
Qed.

(** X1: the haversine distance does not depend on the order of its two
    points. *)
Theorem X1_distance_symmetric :
  forall p q, distance p q = distance q p.
Proof. intros p q. apply distance_sym. Qed.



Lemma compass_bearing_range pointA pointB :
  0 <= calculateInitialCompassBearing pointA pointB < 360.
Proof.
  pose proof PI_RGT_0 as Hpi.
  unfold calculateInitialCompassBearing. cbn zeta.
  match goal with
  | |- context [atan2 ?y ?x] =>
      pose proof (atan2_range y x) as Hrange; set (t := atan2 y x) in *
  end.
  assert (Hdeg : -180 < toDegrees t <= 180).
  { unfold toDegrees.
    assert (E : t * (180 / PI) = t / PI * 180) by (field; lra).
    rewrite E.
    assert (Hq : t = t / PI * PI) by (field; lra).
    remember (t / PI) as q eqn:Heq. clear Heq E. split; nra. }
  destruct (Rlt_le_dec (toDegrees t + 360) 360) as [Hlt|Hge].
  - rewrite rem_small by lra. lra.
  - rewrite rem_once by lra. lra.
Qed.

(** X3: the initial compass bearing is always a number in [0, 360),
    whatever the two points (also for two equal points, where it is the
    bearing of [atan2 (0, 0)], i.e. 0). *)
Theorem X3_bearing_in_compass_range :
  forall pointA pointB,
    0 <= calculateInitialCompassBearing pointA pointB < 360.
Proof. intros pointA pointB. apply compass_bearing_range. Qed.

(** X4: the projected point is as far from its origin as asked: for an
    origin that is not a pole and a distance of at most half the
    circumference, the haversine distance from the origin to
    [calculateDestinationPoint] of it is that distance, whatever the
    bearing. *)
Theorem X4_distance_to_projected_point :
  forall p b d,
    -90 < fst p < 90 -> 0 <= d <= PI * 6371 ->
    distance p (calculateDestinationPoint p b d) = d.
Proof.
  intros p b d Hlat Hd.
  rewrite <- (projection_of_nothing p b Hlat) at 1.
  rewrite projections_apart by (try assumption; lra). ring.
Qed.

Lemma X4_distance_to_projected_point_witness :
  distance (38.5, -120.2) (calculateDestinationPoint (38.5, -120.2) 45 1) = 1.
Proof.
  apply (X4_distance_to_projected_point (38.5, -120.2) 45 1).
  - cbn. lra.
  - pose proof PI2_3_2. lra.
Defined.



End GeodesyMore.


(** ** Further properties of the route sampler *)

Module SamplerMore.
Import Geodesy Sampler SamplerFacts.
#[local] Open Scope R_scope.

Section AnySpacing.
Variable routeCoords : list Point.
Variable spacing : R.

#[local] Abbreviation lengths := (segmentLengthsOf routeCoords).
#[local] Abbreviation total := (sumFrom 0 (segmentLengthsOf routeCoords)).

(** The loop only ever appends to [result]. *)
Lemma loopBody_appends st st' :
  loopBody routeCoords lengths spacing st = Returns st' ->
  result st' = result st \/
  exists a b,
    result st' = result st ++
      [{| coord := calculateDestinationPoint a
                     (calculateInitialCompassBearing a b)
                     (distanceIntoSegment st
                      + (nextPointDistance st - accumulatedDistance st));
          bearing := calculateInitialCompassBearing a b |}].
Proof.
  unfold loopBody. intros Hbody.
  destruct (lengths !! currentSegmentIndex st) as [len|];
    [|discriminate Hbody].
  destruct (routeCoords !! currentSegmentIndex st) as [a|];
    [|discriminate Hbody].
  destruct (routeCoords !! S (currentSegmentIndex st)) as [b|];
    [|discriminate Hbody].
  destruct (pointInCurrentSegment st len); injection Hbody as <-; cbn.
  - right. exists a, b. reflexivity.
  - left. reflexivity.
Qed.

Lemma whileLoop_appends : forall fuel st st',
  whileLoop routeCoords lengths total spacing fuel st = Returns st' ->
  exists more,
    result st' = result st ++ more /\
    Forall (fun w => 0 <= bearing w < 360) more.
Proof.
  induction fuel as [|fuel IH]; intros st st' Hrun; cbn [whileLoop] in Hrun;
    [discriminate Hrun|].
  destruct (loopGuard routeCoords total st).
  - destruct (loopBody routeCoords lengths spacing st) as [st1| |] eqn:Hbody;
      cbn [mbind outcome_bind] in Hrun; try discriminate Hrun.
    destruct (IH st1 st' Hrun) as (more & Hres & Hall).
    destruct (loopBody_appends st st1 Hbody) as [Hsame|(a & b & Hone)].
    + exists more. rewrite Hres, Hsame. split; [reflexivity | exact Hall].
    + eexists (_ :: more). rewrite Hres, Hone, <- app_assoc.
      split; [reflexivity|]. constructor; [|exact Hall].
      cbn [bearing]. apply GeodesyMore.compass_bearing_range.
  - injection Hrun as <-. exists []. rewrite app_nil_r.
    split; [reflexivity | constructor].
Qed.

End AnySpacing.

(** X7: whatever the spacing (also zero or negative) and however many
    iterations are allowed, a result of the sampler is empty for a route
    of fewer than two points and otherwise starts with the first route
    point, bearing along the first segment; every waypoint in it has a
    bearing in [0, 360). *)
Theorem X7_waypoints_start_at_origin_with_compass_bearings :
  forall fuel routeCoords targetSpacingMeters waypoints,
    generateEvenlySpacedPoints fuel routeCoords targetSpacingMeters
    = Returns waypoints ->
    Forall (fun w => 0 <= bearing w < 360) waypoints /\
    match routeCoords with
    | p0 :: p1 :: _ =>
        exists more,
          waypoints = {| coord := p0;
                         bearing := calculateInitialCompassBearing p0 p1 |}
                      :: more
    | _ => waypoints = []
    end.
Proof.
  intros fuel routeCoords s waypoints Hrun.
  unfold generateEvenlySpacedPoints, samplePoints in Hrun.
  destruct routeCoords as [|p0 [|p1 rest]];
    try (injection Hrun as <-; split; [constructor | reflexivity]).
  cbn [List.length Nat.ltb Nat.leb lookup list_lookup] in Hrun.
  destruct (whileLoop _ _ _ _ fuel _) as [st| |] eqn:Hloop;
    cbn [mbind outcome_bind] in Hrun; try discriminate Hrun.
  injection Hrun as <-.
  destruct (whileLoop_appends _ _ _ _ _ Hloop) as (more & Hres & Hall).
  rewrite Hres. cbn [result initialState app]. split.
  - constructor; [|exact Hall]. cbn [bearing].
    apply GeodesyMore.compass_bearing_range.
  - exists more. reflexivity.
Qed.

(** X8: a spacing that is not positive makes the sampler run forever on
    a route of positive length: the next multiple never passes the first
    segment, so no number of iterations ends the loop. *)
Theorem X8_nonpositive_spacing_never_terminates :
  forall fuel routeCoords targetSpacingMeters,
    targetSpacingMeters <= 0 -> 0 < routeLength routeCoords ->
    generateEvenlySpacedPoints fuel routeCoords targetSpacingMeters
    = OutOfFuel.
Proof.
  intros fuel routeCoords s Hs Hlen.
  unfold generateEvenlySpacedPoints.
  destruct routeCoords as [|p0 [|p1 rest]];
    try (unfold routeLength in Hlen; cbn in Hlen; lra).
  cbn [List.length Nat.ltb Nat.leb]. cbn zeta.
  apply nonpositive_spacing_loops; [lra | exact Hlen].
Qed.

Lemma X8_nonpositive_spacing_never_terminates_witness :
  generateEvenlySpacedPoints 1000 [equatorOrigin; hundredMetresEast] 0
  = OutOfFuel.
Proof.
  apply (X8_nonpositive_spacing_never_terminates 1000
           [equatorOrigin; hundredMetresEast] 0).
  - lra.
  - rewrite hundred_metres. lra.
Defined.

Lemma short_route_result fuel p0 p1 rest s :
  routeLength (p0 :: p1 :: rest) <= s / 1000 ->
  generateEvenlySpacedPoints (S fuel) (p0 :: p1 :: rest) s
  = Returns [{| coord := p0;
                bearing := calculateInitialCompassBearing p0 p1 |}].
Proof.
  intros Hshort.
  unfold generateEvenlySpacedPoints, samplePoints.
  cbn [List.length Nat.ltb Nat.leb lookup list_lookup whileLoop].
  fold (routeLength (p0 :: p1 :: rest)).
  unfold loopGuard. cbn [nextPointDistance initialState].
  rewrite bool_decide_eq_false_2 by lra. reflexivity.
Qed.

(** X9: on a route of at least two points whose total length does not
    exceed the spacing, the sampler returns the initial point alone. *)
Theorem X9_route_within_one_spacing :
  forall fuel p0 p1 rest targetSpacingMeters,
    routeLength (p0 :: p1 :: rest) <= targetSpacingMeters / 1000 ->
    generateEvenlySpacedPoints (S fuel) (p0 :: p1 :: rest) targetSpacingMeters
    = Returns [{| coord := p0;
                  bearing := calculateInitialCompassBearing p0 p1 |}].
Proof. intros fuel p0 p1 rest s. apply short_route_result. Qed.

Lemma X9_route_within_one_spacing_witness :
  generateEvenlySpacedPoints 1 [equatorOrigin; hundredMetresEast] 100
  = Returns [{| coord := equatorOrigin;
                bearing := calculateInitialCompassBearing equatorOrigin
                             hundredMetresEast |}].
Proof.
  apply (X9_route_within_one_spacing 0 equatorOrigin hundredMetresEast [] 100).
  rewrite hundred_metres. lra.
Defined.

Lemma X7_waypoints_start_at_origin_with_compass_bearings_witness :
  Forall (fun w => 0 <= bearing w < 360)
    [{| coord := equatorOrigin;
        bearing := calculateInitialCompassBearing equatorOrigin
                     hundredMetresEast |}] /\
  exists more,
    [{| coord := equatorOrigin;
        bearing := calculateInitialCompassBearing equatorOrigin
                     hundredMetresEast |}]
    = {| coord := equatorOrigin;
         bearing := calculateInitialCompassBearing equatorOrigin
                      hundredMetresEast |} :: more.
Proof.
  apply (X7_waypoints_start_at_origin_with_compass_bearings
           1 [equatorOrigin; hundredMetresEast] 100).
  apply short_route_result. rewrite hundred_metres. lra.
Defined.

End SamplerMore.


(** ** Further properties of the image selector *)

Module SelectorMore.
Import Selector SelectorFacts.
#[local] Open Scope R_scope.

(** What a candidate that reaches the score has passed. *)
Lemma scored_candidate lat lon heading image score :
  candidateScore lat lon heading image = Some score ->
  is_pano image = false /\
  (exists url, thumb_2048_url image = Some url /\ url <> ""%string) /\
  (exists angle,
      computed_compass_angle image = Some angle /\ angle <> 0 /\
      (Rabs (angle - heading) <= 45 \/ 315 <= Rabs (angle - heading))) /\
  (forall imgLon imgLat,
      geometry_coordinates image = Some (imgLon, imgLat) ->
      sqrt ((imgLat - lat) ^ 2 + (imgLon - lon) ^ 2) <= 0.0002).
Proof.
  unfold candidateScore. intros Hscore.
  destruct (is_pano image) eqn:Hpano; [discriminate Hscore|].
  cbn [orb] in Hscore.
  destruct (truthy_string (thumb_2048_url image)) eqn:Hthumb;
    [|discriminate Hscore].
  cbn [negb] in Hscore.
  destruct (distanceStage lat lon image) as [planar|] eqn:Hdist;
    [|discriminate Hscore].
  cbn [mbind option_bind] in Hscore.
  destruct (headingStage heading image) as [diff|] eqn:Hhead;
    [|discriminate Hscore].
  split; [reflexivity|]. split; [|split].
  - unfold truthy_string in Hthumb.
    destruct (thumb_2048_url image) as [url|]; [|discriminate Hthumb].
    exists url. split; [reflexivity|].
    intros ->. discriminate Hthumb.
  - unfold headingStage, rejectedByCompassCheck, truthy_number in Hhead.
    destruct (computed_compass_angle image) as [angle|];
      [|discriminate Hhead].
    case_bool_decide as Hzero; [|discriminate Hhead].
    cbn [negb] in Hhead.
    exists angle. split; [reflexivity|]. split; [exact Hzero|].
    cbv zeta in Hhead.
    destruct (bool_decide (Rabs (angle - heading) > 180)) eqn:Hwide.
    + apply bool_decide_eq_true in Hwide.
      case_bool_decide as Hfar; [discriminate Hhead|]. right. lra.
    + apply bool_decide_eq_false in Hwide.
      case_bool_decide as Hfar; [discriminate Hhead|]. left. lra.
  - intros imgLon imgLat Hgeo. unfold distanceStage in Hdist.
    rewrite Hgeo in Hdist.
    case_bool_decide as Hfar; [discriminate Hdist|]. lra.
Qed.

Lemma selected_is_scored lat lon heading candidates best :
  selectBestImage lat lon heading candidates = Some best ->
  best ∈ candidates /\
  exists score, candidateScore lat lon heading best = Some score.
Proof.
  unfold selectBestImage. intros Hbest.
  pose proof (scanned_all lat lon heading candidates) as Hscan.
  destruct (scanCandidates lat lon heading candidates) as [[b|] bound];
    cbn [fst] in Hbest; [|discriminate Hbest].
  injection Hbest as ->. cbn [scanned] in Hscan.
  destruct Hscan as (pre & post & score & -> & _ & Hscore & _).
  split; [|exists score; exact Hscore].
  apply elem_of_app. right. apply elem_of_cons. left. reflexivity.
Qed.

(** X10: the image the selector returns is one of the candidates and
    has passed every filter of the loop: it is not a panorama, it has a
    non-empty thumbnail URL, its compass angle is present, non-zero and
    within 45 degrees of the heading (measured the short way round), and
    when it has coordinates they are within 0.0002 degrees of the
    target. *)
Theorem X10_selected_image_passed_every_filter :
  forall lat lon heading candidates best,
    selectBestImage lat lon heading candidates = Some best ->
    best ∈ candidates /\
    is_pano best = false /\
    (exists url, thumb_2048_url best = Some url /\ url <> ""%string) /\
    (exists angle,
        computed_compass_angle best = Some angle /\ angle <> 0 /\
        (Rabs (angle - heading) <= 45 \/ 315 <= Rabs (angle - heading))) /\
    (forall imgLon imgLat,
        geometry_coordinates best = Some (imgLon, imgLat) ->
        sqrt ((imgLat - lat) ^ 2 + (imgLon - lon) ^ 2) <= 0.0002).
Proof.
  intros lat lon heading candidates best Hbest.
  destruct (selected_is_scored _ _ _ _ _ Hbest) as [Hin [score Hscore]].
  split; [exact Hin|].
  exact (scored_candidate _ _ _ _ _ Hscore).
Qed.

Definition plainCandidate : ApiImage :=
  {| id := "100"; is_pano := false;
     thumb_2048_url := Some "https://example.org/100.jpg"%string;
     geometry := Some {| coordinates := Some (0, 0) |};
     computed_compass_angle := Some 10 |}.

Lemma plainCandidate_selected :
  selectBestImage 0 0 10 [plainCandidate] = Some plainCandidate.
Proof.
  unfold selectBestImage, scanCandidates. cbn [fold_left scanStep].
  assert (Hscore : candidateScore 0 0 10 plainCandidate
                   = Some (Rabs (10 - 10) * 3
                           + sqrt ((0 - 0) ^ 2 + (0 - 0) ^ 2) * 10000)).
  { unfold candidateScore, plainCandidate, distanceStage, headingStage,
      rejectedByCompassCheck, truthy_number, geometry_coordinates.
    cbn [is_pano thumb_2048_url truthy_string String.eqb orb negb
         geometry coordinates computed_compass_angle mbind option_bind].
    replace ((0 - 0) ^ 2 + (0 - 0) ^ 2) with 0 by ring.
    rewrite sqrt_0.
    replace (10 - 10) with 0 by ring. rewrite Rabs_R0.
    rewrite (bool_decide_eq_false_2 (0 > 0.0002)) by lra.
    rewrite (bool_decide_eq_true_2 (10 <> 0)) by (intros H; lra).
    cbn [negb].
    rewrite (bool_decide_eq_false_2 (0 > 180)) by lra.
    rewrite (bool_decide_eq_false_2 (0 > 45)) by lra.
    cbn [mbind option_bind]. reflexivity. }
  rewrite Hscore. reflexivity.
Qed.

Lemma X10_selected_image_passed_every_filter_witness :
  plainCandidate ∈ [plainCandidate] /\
  is_pano plainCandidate = false /\
  (exists url,
      thumb_2048_url plainCandidate = Some url /\ url <> ""%string) /\
  (exists angle,
      computed_compass_angle plainCandidate = Some angle /\ angle <> 0 /\
      (Rabs (angle - 10) <= 45 \/ 315 <= Rabs (angle - 10))) /\
  (forall imgLon imgLat,
      geometry_coordinates plainCandidate = Some (imgLon, imgLat) ->
      sqrt ((imgLat - 0) ^ 2 + (imgLon - 0) ^ 2) <= 0.0002).
Proof.
  apply (X10_selected_image_passed_every_filter 0 0 10 [plainCandidate]).
  exact plainCandidate_selected.
Defined.

Lemma scanStep_filtered lat lon heading st image :
  candidateScore lat lon heading image = None ->
  scanStep lat lon heading st image = st.
Proof.
  intros Hnone. destruct st as [bestImage bestScore].
  cbn [scanStep]. rewrite Hnone. reflexivity.
Qed.

(** X11: a candidate that one of the [continue]s filters out has no
    influence on the selection, wherever it stands in the response. *)
Theorem X11_filtered_candidate_has_no_influence :
  forall lat lon heading before image after,
    candidateScore lat lon heading image = None ->
    selectBestImage lat lon heading (before ++ image :: after)
    = selectBestImage lat lon heading (before ++ after).
Proof.
  intros lat lon heading before image after Hnone.
  unfold selectBestImage, scanCandidates.
  rewrite !fold_left_app. cbn [fold_left].
  rewrite (scanStep_filtered _ _ _ _ _ Hnone). reflexivity.
Qed.

Definition panorama : ApiImage :=
  {| id := "200"; is_pano := true;
     thumb_2048_url := Some "https://example.org/200.jpg"%string;
     geometry := Some {| coordinates := Some (0, 0) |};
     computed_compass_angle := Some 10 |}.

Lemma X11_filtered_candidate_has_no_influence_witness :
  selectBestImage 0 0 10 ([plainCandidate] ++ panorama :: [])
  = selectBestImage 0 0 10 ([plainCandidate] ++ []).
Proof.
  apply (X11_filtered_candidate_has_no_influence 0 0 10
           [plainCandidate] panorama []).
  reflexivity.
Defined.

(** The lookup resolves to an image only along one path of the body. *)
Lemma lookup_some fetch coord heading img :
  getMapillaryImage fetch coord heading = Returns (Some img) ->
  exists response body candidates best,
    fetch (bboxOf coord) = Fulfilled response /\
    ok response = true /\
    json response = Fulfilled body /\
    data body = Some candidates /\
    selectBestImage (fst coord) (snd coord) heading candidates = Some best /\
    img = toMapillaryImage best.
Proof.
  unfold getMapillaryImage, lookupBody. destruct coord as [lat lon].
  destruct (fetch (bboxOf (lat, lon))) as [response|e]; cbn;
    [|discriminate].
  destruct (ok response) eqn:Hok; cbn; [|discriminate].
  destruct (json response) as [body|e] eqn:Hjson; cbn; [|discriminate].
  destruct (data body) as [[|c candidates]|] eqn:Hdata; cbn [tryCatch];
    try discriminate.
  destruct (selectBestImage lat lon heading (c :: candidates))
    as [best|] eqn:Hbest; [|discriminate].
  intros Hret. injection Hret as <-.
  exists response, body, (c :: candidates), best.
  repeat split; assumption.
Qed.

(** X12: when a lookup resolves to an image, the request was fulfilled
    with an [ok] response whose body could be read, and the image is the
    selector's choice among the [data] of that body, with its [id],
    thumbnail, compass angle and geometry copied; its thumbnail URL is
    present and not empty. *)
Theorem X12_lookup_result_comes_from_the_response :
  forall fetch coord heading img,
    getMapillaryImage fetch coord heading = Returns (Some img) ->
    exists response body candidates best,
      fetch (bboxOf coord) = Fulfilled response /\
      ok response = true /\
      json response = Fulfilled body /\
      data body = Some candidates /\
      best ∈ candidates /\
      selectBestImage (fst coord) (snd coord) heading candidates
      = Some best /\
      image_id img = id best /\
      thumbUrl img = thumb_2048_url best /\
      computedCompassAngle img = computed_compass_angle best /\
      image_geometry img = geometry best /\
      exists url, thumbUrl img = Some url /\ url <> ""%string.
Proof.
  intros fetch coord heading img Hrun.
  destruct (lookup_some _ _ _ _ Hrun)
    as (response & body & candidates & best & Hfetch & Hok & Hjson & Hdata
        & Hbest & ->).
  destruct (selected_is_scored _ _ _ _ _ Hbest) as [Hin [score Hscore]].
  destruct (scored_candidate _ _ _ _ _ Hscore) as (_ & Hurl & _).
  exists response, body, candidates, best.
  split; [exact Hfetch|]. split; [exact Hok|]. split; [exact Hjson|].
  split; [exact Hdata|]. split; [exact Hin|]. split; [exact Hbest|].
  do 4 (split; [reflexivity|]). exact Hurl.
Qed.

(** A provider that answers every request with the one candidate. *)
Definition oneImageProvider : Provider := fun _ =>
  Fulfilled {| ok := true; statusText := "OK";
               json := Fulfilled {| data := Some [plainCandidate] |} |}.

Lemma oneImageProvider_lookup :
  getMapillaryImage oneImageProvider (0, 0) 10
  = Returns (Some (toMapillaryImage plainCandidate)).
Proof.
  unfold getMapillaryImage, lookupBody, oneImageProvider.
  cbn [await mbind outcome_bind ok negb json data].
  rewrite plainCandidate_selected. reflexivity.
Qed.

Lemma X12_lookup_result_comes_from_the_response_witness :
  exists response body candidates best,
    oneImageProvider (bboxOf (0, 0)) = Fulfilled response /\
    ok response = true /\
    json response = Fulfilled body /\
    data body = Some candidates /\
    best ∈ candidates /\
    selectBestImage (fst (0, 0)) (snd (0, 0)) 10 candidates = Some best /\
    image_id (toMapillaryImage plainCandidate) = id best /\
    thumbUrl (toMapillaryImage plainCandidate) = thumb_2048_url best /\
    computedCompassAngle (toMapillaryImage plainCandidate)
    = computed_compass_angle best /\
    image_geometry (toMapillaryImage plainCandidate) = geometry best /\
    exists url,
      thumbUrl (toMapillaryImage plainCandidate) = Some url /\
      url <> ""%string.
Proof.
  apply (X12_lookup_result_comes_from_the_response oneImageProvider
           (0, 0) 10 (toMapillaryImage plainCandidate)).
  exact oneImageProvider_lookup.
Defined.

End SelectorMore.

(** ** Further properties of the batches and of the image phase *)

Module OrchestratorMore.
Import Geodesy Selector Orchestrator OrchestratorFacts.
#[local] Open Scope R_scope.

(** X13: with a positive batch size, [getMapillaryImagesBatch] returns
    one result per point, in the order of the points: the result at
    index [i] is what the lookup of point [i] resolves to. *)
Theorem X13_batch_results_follow_the_points :
  forall fetch points batchSize,
    (0 < batchSize)%nat ->
    exists results,
      getMapillaryImagesBatch fetch points batchSize = Returns results /\
      List.length results = List.length points /\
      forall i point,
        points !! i = Some point ->
        exists r,
          results !! i = Some r /\
          getMapillaryImage fetch (point_coord point) (point_heading point)
          = Returns r.
Proof.
  intros fetch points size Hsize.
  exists (lookupResult fetch <$> points).
  split; [exact (getMapillaryImagesBatch_returns fetch points size Hsize)|].
  split; [apply length_fmap|].
  intros i point Hi. exists (lookupResult fetch point). split.
  - rewrite list_lookup_fmap, Hi. reflexivity.
  - apply getMapillaryImage_lookupResult.
Qed.

Definition twoPoints : list LookupPoint :=
  [ {| point_coord := (0, 0); point_heading := 10 |};
    {| point_coord := (1, 1); point_heading := 20 |} ].

Lemma X13_batch_results_follow_the_points_witness :
  exists results,
    getMapillaryImagesBatch offline twoPoints 1 = Returns results /\
    List.length results = List.length twoPoints /\
    forall i point,
      twoPoints !! i = Some point ->
      exists r,
        results !! i = Some r /\
        getMapillaryImage offline (point_coord point) (point_heading point)
        = Returns r.
Proof.
  apply (X13_batch_results_follow_the_points offline twoPoints 1). lia.
Defined.

Lemma batchesFrom_zero_size fetch points : forall fuel i results,
  (i < List.length points)%nat ->
  batchesFrom fuel fetch points 0 i results = OutOfFuel.
Proof.
  induction fuel as [|fuel IH]; intros i results Hi; cbn [batchesFrom].
  - reflexivity.
  - destruct (Nat.ltb_spec i (List.length points)) as [_|Hge]; [|lia].
    rewrite promiseAll_lookups. cbn [mbind outcome_bind].
    rewrite Nat.add_0_r. apply IH. exact Hi.
Qed.

(** X14: with batch size 0 and at least one point the loop of
    [getMapillaryImagesBatch] makes no progress: no number of iterations
    brings it to its end. *)
Theorem X14_zero_batch_size_never_finishes :
  forall fuel fetch points,
    points <> [] ->
    batchesFrom fuel fetch points 0 0 [] = OutOfFuel /\
    getMapillaryImagesBatch fetch points 0 = OutOfFuel.
Proof.
  intros fuel fetch points Hne.
  assert (Hlen : (0 < List.length points)%nat).
  { destruct points; [contradiction|cbn; lia]. }
  split; [|unfold getMapillaryImagesBatch];
    apply batchesFrom_zero_size; exact Hlen.
Qed.

Lemma X14_zero_batch_size_never_finishes_witness :
  batchesFrom 1000 offline twoPoints 0 0 [] = OutOfFuel /\
  getMapillaryImagesBatch offline twoPoints 0 = OutOfFuel.
Proof.
  apply (X14_zero_batch_size_never_finishes 1000 offline twoPoints).
  discriminate.
Defined.

Lemma lookupResult_thumbnail fetch point img :
  lookupResult fetch point = Some img ->
  exists url, thumbUrl img = Some url /\ url <> ""%string.
Proof.
  intros Hres.
  pose proof (getMapillaryImage_lookupResult fetch point) as Hrun.
  rewrite Hres in Hrun.
  destruct (SelectorMore.lookup_some _ _ _ _ Hrun)
    as (_ & _ & candidates & best & _ & _ & _ & _ & Hbest & ->).
  destruct (SelectorMore.selected_is_scored _ _ _ _ _ Hbest)
    as [_ [score Hscore]].
  destruct (SelectorMore.scored_candidate _ _ _ _ _ Hscore) as (_ & Hurl & _).
  exact Hurl.
Qed.

(** The published state is aligned and holds thumbnails only. *)
Lemma shown_aligned :
  forall fetch cancelled spacedPoints,
    let shown := fst (fetchImages fetch cancelled spacedPoints) in
    List.length (images shown) = List.length (coordinates_shown shown) /\
    forall i entry,
      images shown !! i = Some entry ->
      exists url, entry = Some url /\ url <> ""%string.
Proof.
  intros fetch cancelled spacedPoints. cbn zeta. unfold fetchImages.
  fold toLookupPoint.
  set (points := toLookupPoint <$> spacedPoints).
  assert (Hstart : shows fetch points (publish emptyAccumulators)).
  { exists emptyAccumulators, []. split; [reflexivity|].
    split; [exact holds_empty|].
    intros img Hin. apply elem_of_nil in Hin. contradiction. }
  destruct (batchLoop_shows fetch cancelled points
              (S (List.length points)) 0 emptyAccumulators
              (publish emptyAccumulators) [] holds_empty)
    as (acc & accepted & Hshown & Hholds & Hfrom);
    [intros img Hin; apply elem_of_nil in Hin; contradiction
    | exact Hstart |].
  rewrite Hshown.
  destruct Hholds as (Himgs & Hcoords & _).
  cbn [images coordinates_shown publish]. split.
  - rewrite Himgs, length_fmap.
    rewrite <- (length_fmap captureCoord accepted), <- Hcoords.
    apply length_fmap.
  - intros i entry Hi. rewrite Himgs, list_lookup_fmap in Hi.
    destruct (accepted !! i) as [img|] eqn:Himg; [|discriminate Hi].
    cbn in Hi. injection Hi as <-.
    destruct (Hfrom img) as (point & _ & Hres).
    { apply list_elem_of_lookup. exists i. exact Himg. }
    exact (lookupResult_thumbnail fetch point img Hres).
Qed.

(** X15: whatever the provider answers and whenever the run is
    cancelled or aborted, the state the slideshow reads is aligned --
    [images] and [coordinates] have the same length -- and every entry
    of [images] is a thumbnail URL that is present and not empty. *)
Theorem X15_shown_images_and_coordinates_are_aligned :
  forall fetch cancelled spacedPoints,
    let shown := fst (fetchImages fetch cancelled spacedPoints) in
    List.length (images shown) = List.length (coordinates_shown shown) /\
    forall i entry,
      images shown !! i = Some entry ->
      exists url, entry = Some url /\ url <> ""%string.
Proof.
  intros fetch cancelled spacedPoints.
  apply shown_aligned.
Qed.

(** *** Cancellation *)

Lemma slice_take {A} (l : list A) i n :
  (i + batchSize <= n)%nat ->
  slice (take n l) i (i + batchSize) = slice l i (i + batchSize).
Proof.
  intros Hle. unfold slice.
  replace (i + batchSize - i)%nat with batchSize by lia.
  rewrite skipn_firstn_comm, take_take. f_equal. lia.
Qed.

Section Cancelled.
Variables (fetch : Provider) (cancelled : nat -> bool).
Variable pointsToFetch : list LookupPoint.
Variable k : nat.
Hypothesis cancelled_at : cancelled (batchSize * k) = true.

Lemma batchLoop_take : forall fuel1 fuel2 j acc shown,
  (j <= k)%nat ->
  (List.length pointsToFetch <= batchSize * j + fuel1)%nat ->
  (List.length (take (batchSize * k) pointsToFetch)
   <= batchSize * j + fuel2)%nat ->
  batchLoop (S fuel1) fetch cancelled pointsToFetch (batchSize * j) acc shown
  = batchLoop (S fuel2) fetch cancelled (take (batchSize * k) pointsToFetch)
      (batchSize * j) acc shown.
Proof.
  induction fuel1 as [|fuel1 IH]; intros fuel2 j acc shown Hj Hlen1 Hlen2.
  - cbn [batchLoop].
    destruct (Nat.ltb_spec (batchSize * j) (List.length pointsToFetch));
      [lia|].
    destruct (Nat.ltb_spec (batchSize * j)
                (List.length (take (batchSize * k) pointsToFetch)))
      as [Hlt|_]; [|reflexivity].
    rewrite length_take in Hlt. lia.
  - remember (S fuel1) as f1. cbn [batchLoop]. subst f1.
    rewrite length_take in *.
    destruct (Nat.ltb_spec (batchSize * j) (List.length pointsToFetch))
      as [Hlt1|Hge1].
    + destruct (Nat.eq_dec j k) as [->|Hne].
      * rewrite cancelled_at.
        destruct (Nat.ltb_spec (batchSize * k)
                    ((batchSize * k) `min` List.length pointsToFetch));
          [lia | reflexivity].
      * destruct (Nat.ltb_spec (batchSize * j)
                    ((batchSize * k) `min` List.length pointsToFetch))
          as [_|Hge2]; [|unfold batchSize in *; lia].
        destruct (cancelled (batchSize * j)); [reflexivity|].
        rewrite slice_take by (unfold batchSize; lia).
        destruct (batchResults ←
                    getMapillaryImagesBatch fetch
                      (slice pointsToFetch (batchSize * j)
                         (batchSize * j + batchSize)) batchSize;
                  processBatch acc batchResults) as [acc'|e|];
          [|reflexivity|reflexivity].
        destruct fuel2 as [|fuel2]; [unfold batchSize in *; lia|].
        replace (batchSize * j + batchSize)%nat with (batchSize * S j)%nat
          by lia.
        apply IH; unfold batchSize in *; lia.
    + destruct (Nat.ltb_spec (batchSize * j)
                  ((batchSize * k) `min` List.length pointsToFetch));
        [lia | reflexivity].
Qed.

End Cancelled.

(** X16: when the slideshow is closed before the batch that starts at
    waypoint [10 * k], the image phase ends exactly as a run over the
    first [10 * k] waypoints alone: the same images and coordinates are
    shown and the phase is left the same way. *)
Theorem X16_cancelled_run_is_run_on_prefix :
  forall fetch cancelled spacedPoints k,
    cancelled (10 * k)%nat = true ->
    fetchImages fetch cancelled spacedPoints
    = fetchImages fetch cancelled (take (10 * k) spacedPoints).
Proof.
  intros fetch cancelled spacedPoints k Hcancel. unfold fetchImages.
  rewrite fmap_take.
  set (points := _ <$> spacedPoints).
  change 0%nat with (batchSize * 0)%nat at 1 3.
  change (10 * k)%nat with (batchSize * k)%nat.
  apply batchLoop_take; [exact Hcancel | lia | lia | lia].
Qed.

Definition threeWaypoints : list Sampler.Waypoint :=
  [ {| Sampler.coord := (0, 0); Sampler.bearing := 90 |};
    {| Sampler.coord := (0, 1); Sampler.bearing := 90 |};
    {| Sampler.coord := (0, 2); Sampler.bearing := 90 |} ].

Lemma X16_cancelled_run_is_run_on_prefix_witness :
  fetchImages offline (fun _ => true) threeWaypoints
  = fetchImages offline (fun _ => true) (take (10 * 0) threeWaypoints).
Proof.
  apply (X16_cancelled_run_is_run_on_prefix offline (fun _ => true)
           threeWaypoints 0).
  reflexivity.
Defined.

(** *** At most one image for each waypoint *)

Lemma processResult_length acc imageData acc' :
  processResult acc imageData = Returns acc' ->
  (List.length (fetchedImages acc') <= S (List.length (fetchedImages acc)))%nat.
Proof.
  intros Hrun.
  destruct imageData as [img|]; cbn [processResult] in Hrun;
    [|injection Hrun as <-; lia].
  case_bool_decide; [injection Hrun as <-; lia|].
  destruct (g ← image_geometry img; coordinates g) as [[imgLon imgLat]|];
    [|discriminate Hrun].
  destruct (negb _); injection Hrun as <-; [|lia].
  cbn [fetchedImages]. rewrite length_app. cbn. lia.
Qed.

Lemma processBatch_length : forall batchResults acc acc',
  processBatch acc batchResults = Returns acc' ->
  (List.length (fetchedImages acc')
   <= List.length (fetchedImages acc) + List.length batchResults)%nat.
Proof.
  induction batchResults as [|imageData rest IH]; intros acc acc' Hrun;
    cbn [processBatch] in Hrun.
  - injection Hrun as <-. lia.
  - destruct (processResult acc imageData) as [acc1| |] eqn:Hone;
      cbn [mbind outcome_bind] in Hrun; try discriminate Hrun.
    apply processResult_length in Hone. apply IH in Hrun.
    cbn [List.length]. lia.
Qed.

Lemma length_slice {A} (l : list A) i j :
  List.length (slice l i j) = ((j - i) `min` (List.length l - i))%nat.
Proof. unfold slice. rewrite length_take, length_drop. reflexivity. Qed.

Lemma batchLoop_length fetch cancelled pointsToFetch :
  forall fuel i acc shown,
    (List.length (fetchedImages acc) <= i `min` List.length pointsToFetch)%nat ->
    (List.length (images shown) <= List.length pointsToFetch)%nat ->
    (List.length
       (images (fst (batchLoop fuel fetch cancelled pointsToFetch i acc
                       shown)))
     <= List.length pointsToFetch)%nat.
Proof.
  induction fuel as [|fuel IH]; intros i acc shown Hacc Hshown;
    cbn [batchLoop]; [exact Hshown|].
  destruct (Nat.ltb_spec i (List.length pointsToFetch)) as [Hlt|Hge];
    [|exact Hshown].
  destruct (cancelled i); [exact Hshown|].
  rewrite getMapillaryImagesBatch_returns by (unfold batchSize; lia).
  cbn [mbind outcome_bind].
  destruct (processBatch acc _) as [acc'| |] eqn:Hbatch;
    [|exact Hshown|exact Hshown].
  apply processBatch_length in Hbatch.
  rewrite length_fmap, length_slice in Hbatch.
  apply IH; cbn [publish images]; lia.
Qed.

(** X29: the image phase never shows more images than the route has
    waypoints -- each lookup contributes at most one -- whatever the
    provider answers and however the phase ends. *)
Theorem X29_at_most_one_image_for_each_waypoint :
  forall fetch cancelled spacedPoints,
    let shown := fst (fetchImages fetch cancelled spacedPoints) in
    (List.length (images shown) <= List.length spacedPoints)%nat /\
    (List.length (coordinates_shown shown) <= List.length spacedPoints)%nat.
Proof.
  intros fetch cancelled spacedPoints. cbn zeta.
  assert (Hlen : (List.length
                    (images (fst (fetchImages fetch cancelled spacedPoints)))
                  <= List.length spacedPoints)%nat).
  { unfold fetchImages.
    rewrite <- (length_fmap toLookupPoint spacedPoints).
    apply batchLoop_length; cbn; lia. }
  split; [exact Hlen|].
  destruct (shown_aligned fetch cancelled spacedPoints)
    as [Heq _].
  lia.
Qed.

End OrchestratorMore.


(** ** Further properties of the coordinate input *)

Module CoordInputMore.
Import CoordInput CoordInputFacts.
#[local] Open Scope Q_scope.

Lemma inLatLonRange_numbers lat lon :
  inLatLonRange lat lon = true ->
  exists qlat qlon,
    lat = Num qlat /\ lon = Num qlon /\
    -90 <= qlat /\ qlat <= 90 /\ -180 <= qlon /\ qlon <= 180.
Proof.
  unfold inLatLonRange. intros Hrange.
  apply andb_prop in Hrange as [Hrange Hlon2].
  apply andb_prop in Hrange as [Hrange Hlon1].
  apply andb_prop in Hrange as [Hlat1 Hlat2].
  destruct lat as [|qlat|[|]]; try discriminate.
  destruct lon as [|qlon|[|]]; try discriminate.
  cbn [geq leq] in *.
  exists qlat, qlon.
  repeat split; try reflexivity; apply Qle_bool_iff; assumption.
Qed.

(** The parts the two functions look at. *)
Lemma parse_cases input :
  (exists part0 part1,
      splitComma (trim input) = [part0; part1] /\
      let first := parseFloat (trim part0) in
      let second := parseFloat (trim part1) in
      isNaN first = false /\ isNaN second = false /\
      parseCoordinateInput input
      = if inLatLonRange first second then Returns (LonLat second first)
        else Throws "Invalid coordinates: lat must be -90 to 90, lon must be -180 to 180")
  \/
  (parseCoordinateInput input = Returns (Unchanged input) /\
   forall part0 part1,
     splitComma (trim input) = [part0; part1] ->
     isNaN (parseFloat (trim part0)) = true \/
     isNaN (parseFloat (trim part1)) = true).
Proof.
  unfold parseCoordinateInput.
  destruct (includesComma (trim input)) eqn:Hcomma.
  - destruct (splitComma (trim input)) as [|part0 [|part1 [|? ?]]] eqn:Hsplit;
      cbn [map];
      try (right; split; [reflexivity|]; intros p0 p1 Heq; discriminate Heq).
    destruct (isNaN (parseFloat (trim part0))) eqn:Hn0.
    { right. split; [reflexivity|].
      intros p0 p1 Heq. injection Heq as <- <-. left. exact Hn0. }
    destruct (isNaN (parseFloat (trim part1))) eqn:Hn1.
    { right. split; [reflexivity|].
      intros p0 p1 Heq. injection Heq as <- <-. right. exact Hn1. }
    left. exists part0, part1. split; [reflexivity|]. cbn zeta.
    rewrite Hn0, Hn1. split; [reflexivity|]. split; [reflexivity|].
    reflexivity.
  - right. split; [reflexivity|].
    intros part0 part1 Hsplit.
    rewrite (two_parts_include_comma _ _ _ Hsplit) in Hcomma.
    discriminate Hcomma.
Qed.

(** X17: whatever [parseCoordinateInput] turns into the [lon,lat]
    template are two finite numbers in range: the latitude in
    [-90, 90], the longitude in [-180, 180] -- never [NaN] and never an
    infinity. *)
Theorem X17_parsed_coordinates_are_in_range :
  forall input lon lat,
    parseCoordinateInput input = Returns (LonLat lon lat) ->
    exists qlon qlat,
      lon = Num qlon /\ lat = Num qlat /\
      -90 <= qlat /\ qlat <= 90 /\ -180 <= qlon /\ qlon <= 180.
Proof.
  intros input lon lat Hparse.
  destruct (parse_cases input)
    as [(part0 & part1 & _ & _ & _ & Hrun)|[Hrun _]];
    rewrite Hrun in Hparse; [|discriminate Hparse].
  destruct (inLatLonRange _ _) eqn:Hrange; [|discriminate Hparse].
  injection Hparse as <- <-.
  destruct (inLatLonRange_numbers _ _ Hrange)
    as (qlat & qlon & -> & -> & H1 & H2 & H3 & H4).
  exists qlon, qlat. repeat split; assumption.
Qed.

Lemma X17_parsed_coordinates_are_in_range_witness :
  exists qlon qlat,
    Num (-1202 # 10) = Num qlon /\ Num (385 # 10) = Num qlat /\
    -90 <= qlat /\ qlat <= 90 /\ -180 <= qlon /\ qlon <= 180.
Proof.
  apply (X17_parsed_coordinates_are_in_range "38.5,-120.2"%string).
  vm_compute. reflexivity.
Defined.

(** X18: [parseCoordinateInput] raises exactly when the trimmed input
    splits at commas into two parts that both parse as numbers and the
    numbers are not in range as lat,lon.  Whenever it returns without
    producing the template -- no comma, another number of parts, a part
    that is not a number -- it returns the input itself, untrimmed. *)
Theorem X18_parse_raises_only_for_numbers_out_of_range :
  forall input,
    ((exists e, parseCoordinateInput input = Throws e) <->
     (exists part0 part1,
         splitComma (trim input) = [part0; part1] /\
         isNaN (parseFloat (trim part0)) = false /\
         isNaN (parseFloat (trim part1)) = false /\
         inLatLonRange (parseFloat (trim part0)) (parseFloat (trim part1))
         = false)) /\
    (forall text,
        parseCoordinateInput input = Returns (Unchanged text) ->
        text = input) /\
    parseCoordinateInput input <> OutOfFuel.
Proof.
  intros input.
  destruct (parse_cases input)
    as [(part0 & part1 & Hsplit & Hn0 & Hn1 & Hrun)|[Hrun Hnot]];
    cbn zeta in *; rewrite Hrun.
  - destruct (inLatLonRange _ _) eqn:Hrange.
    + split; [split|split].
      * intros [e He]. discriminate He.
      * intros (p0 & p1 & Heq & _ & _ & Hout).
        rewrite Hsplit in Heq. injection Heq as <- <-.
        rewrite Hrange in Hout. discriminate Hout.
      * intros text Heq. discriminate Heq.
      * discriminate.
    + split; [split|split].
      * intros _. exists part0, part1. repeat split; assumption.
      * intros _. eexists. reflexivity.
      * intros text Heq. discriminate Heq.
      * discriminate.
  - split; [split|split].
    + intros [e He]. discriminate He.
    + intros (p0 & p1 & Heq & H0 & H1 & _).
      destruct (Hnot p0 p1 Heq) as [Hn|Hn]; congruence.
    + intros text Heq. injection Heq as <-. reflexivity.
    + discriminate.
Qed.

End CoordInputMore.

(** ** Further properties of the polyline decoder *)

Module PolylineMore.
Import Polyline PolylineFacts.

Lemma decodeLoop_count str factor : forall fuel index lat lng coords cs,
  decodeLoop fuel str factor index lat lng coords = Returns cs ->
  (List.length coords <= List.length cs)%nat /\
  (2 * (List.length cs - List.length coords)
   <= String.length str - index + 1)%nat /\
  ((String.length str <= index)%nat -> cs = coords).
Proof.
  induction fuel as [|fuel IH]; intros index lat lng coords cs Hrun;
    cbn [decodeLoop] in Hrun; [discriminate Hrun|].
  destruct (Nat.ltb_spec index (String.length str)) as [Hlt|Hge].
  - destruct (readGroup_returns str (String.length str) index 0 0)
      as (i1 & r1 & Hrun1 & Hlt1); [lia|].
    rewrite Hrun1 in Hrun. cbn [mbind outcome_bind] in Hrun.
    destruct (readGroup_returns str (String.length str) i1 0 0)
      as (i2 & r2 & Hrun2 & Hlt2); [lia|].
    rewrite Hrun2 in Hrun. cbn [mbind outcome_bind] in Hrun.
    apply IH in Hrun as (Hle & Hcount & Hend).
    rewrite length_app in Hle, Hcount. cbn [List.length] in Hle, Hcount.
    split; [lia|]. split; [|lia].
    destruct (Nat.le_gt_cases (String.length str) i2) as [Hpast|Hin].
    + rewrite (Hend Hpast), length_app. cbn [List.length]. lia.
    + lia.
  - injection Hrun as <-. split; [lia|]. split; [lia|]. reflexivity.
Qed.

(** X19: [decode] produces at most one point for every two characters
    of its input (rounded up), and at least one point for a non-empty
    input: each pass of the outer loop reads two groups of at least one
    character each -- the last one possibly past the end of the
    string. *)
Theorem X19_decode_point_count :
  forall str precision,
    exists cs,
      decode str precision = Returns cs /\
      (2 * List.length cs <= String.length str + 1)%nat /\
      (str <> ""%string -> (1 <= List.length cs)%nat).
Proof.
  intros str precision. unfold decode.
  destruct (decodeLoop_returns str (Qpower (10 # 1) precision)
              (String.length str) 0%nat 0 0 [])
    as (cs & Hrun & _ & Hgrow); [lia|].
  exists cs. split; [exact Hrun|].
  apply decodeLoop_count in Hrun as (_ & Hcount & _).
  cbn [List.length] in *. split; [lia|].
  intros Hne. destruct str as [|a str]; [contradiction|].
  cbn [String.length] in Hgrow. lia.
Qed.

End PolylineMore.


Module PolylinePrefix.
Import Polyline PolylineFacts.
#[local] Open Scope Z_scope.

(** *** Appending to a complete polyline *)

(** A character ends its group when the chunk it carries is below
    [0x20]. *)
Definition endsGroup (c : ascii) : bool :=
  negb (32 <=? Z.of_nat (nat_of_ascii c) - 63).

(** A group: characters that continue, then one that ends it. *)
Inductive group : string -> Prop :=
| group_end c : endsGroup c = true -> group (String c "")
| group_more c g : endsGroup c = false -> group g -> group (String c g).

(** A complete polyline: pairs of groups, one pair for each point. *)
Inductive pairs : string -> Prop :=
| pairs_nil : pairs ""
| pairs_cons g1 g2 rest :
    group g1 -> group g2 -> pairs rest -> pairs (g1 +:+ g2 +:+ rest).

(** The number a group accumulates. *)
Fixpoint groupValue (g : string) (shift result : Z) : Z :=
  match g with
  | EmptyString => result
  | String c g' =>
      groupValue g' (shift + 5)
        (jsOr result
           (jsShl (jsAnd (toInt32 (Z.of_nat (nat_of_ascii c) - 63)) 31)
              shift))
  end.

(** [str] holds [s] from position [index] on. *)
Definition holdsAt (str : string) (index : nat) (s : string) : Prop :=
  forall k, (k < String.length s)%nat ->
    String.get (index + k) str = String.get k s.

Lemma length_append s1 s2 :
  String.length (s1 +:+ s2) = (String.length s1 + String.length s2)%nat.
Proof.
  induction s1 as [|c s1 IH]; simpl; [reflexivity|].
  rewrite IH. reflexivity.
Qed.

Lemma holdsAt_append str index s1 s2 :
  holdsAt str index (s1 +:+ s2) ->
  holdsAt str index s1 /\ holdsAt str (index + String.length s1) s2.
Proof.
  intros Hholds. split; intros k Hk.
  - rewrite Hholds by (rewrite length_append; lia).
    symmetry. apply append_correct1. exact Hk.
  - replace (index + String.length s1 + k)%nat
      with (index + (k + String.length s1))%nat by lia.
    rewrite Hholds by (rewrite length_append; lia).
    symmetry. apply append_correct2.
Qed.

Lemma group_nonempty g : group g -> g <> ""%string.
Proof. intros [c Hc|c g' Hc Hg]; discriminate. Qed.

(** Reading a group that the string holds: the index moves to its end
    and the result depends on the group alone. *)
Lemma readGroup_group str : forall g, group g ->
  forall index fuel shift result,
    holdsAt str index g -> (String.length g <= fuel)%nat ->
    readGroup fuel str index shift result
    = Returns ((index + String.length g)%nat, groupValue g shift result).
Proof.
  induction 1 as [c Hc|c g Hc Hg IH];
    intros index fuel shift result Hholds Hfuel;
    (destruct fuel as [|fuel]; [cbn in Hfuel; lia|]);
    cbn [readGroup];
    pose proof (Hholds 0%nat ltac:(cbn; lia)) as Hfirst;
    rewrite Nat.add_0_r in Hfirst; cbn [String.get] in Hfirst;
    unfold charCodeAt; rewrite Hfirst;
    cbn [fmap option_fmap option_map geNum toInt32_num];
    unfold endsGroup in Hc.
  - apply negb_true_iff in Hc. rewrite Hc.
    cbn [String.length groupValue]. do 2 f_equal. lia.
  - apply negb_false_iff in Hc. rewrite Hc.
    fold (charCodeAt str).
    rewrite IH.
    + cbn [String.length groupValue]. do 2 f_equal. lia.
    + intros k Hk.
      replace (S index + k)%nat with (index + S k)%nat by lia.
      rewrite Hholds by (cbn; lia). reflexivity.
    + cbn in Hfuel. lia.
Qed.

(** Running the loop over a complete polyline that the string holds:
    one pass for each pair, after which the index stands at its end;
    the points added depend on the polyline alone. *)
Lemma decodeLoop_pairs factor : forall s, pairs s ->
  forall lat lng,
  exists lat' lng' new n,
    (n <= String.length s)%nat /\
    forall str index fuel coords,
      holdsAt str index s ->
      (index + String.length s <= String.length str)%nat ->
      decodeLoop (n + fuel) str factor index lat lng coords
      = decodeLoop fuel str factor (index + String.length s) lat' lng'
          (coords ++ new).
Proof.
  induction 1 as [|g1 g2 rest Hg1 Hg2 Hrest IH]; intros lat lng.
  - exists lat, lng, [], 0%nat. split; [cbn; lia|].
    intros str index fuel coords _ _.
    cbn [String.length]. rewrite Nat.add_0_r, app_nil_r. reflexivity.
  - set (lat1 := lat + unfold_sign (groupValue g1 0 0)).
    set (lng1 := lng + unfold_sign (groupValue g2 0 0)).
    destruct (IH lat1 lng1) as (lat' & lng' & new & n & Hn & Hrun).
    exists lat', lng',
      (((inject_Z lat1 / factor)%Q, (inject_Z lng1 / factor)%Q) :: new),
      (S n).
    pose proof (group_nonempty _ Hg1) as Hne1.
    pose proof (group_nonempty _ Hg2) as Hne2.
    assert (Hl1 : (1 <= String.length g1)%nat)
      by (destruct g1; [contradiction | cbn; lia]).
    rewrite !length_append.
    split; [lia|].
    intros str index fuel coords Hholds Hbound.
    apply holdsAt_append in Hholds as [Hh1 Hh2].
    apply holdsAt_append in Hh2 as [Hh2 Hh3].
    cbn [Nat.add decodeLoop].
    destruct (Nat.ltb_spec index (String.length str)) as [_|Hge]; [|lia].
    rewrite (readGroup_group str g1 Hg1) by (assumption || lia).
    cbn [mbind outcome_bind].
    rewrite (readGroup_group str g2 Hg2) by (assumption || lia).
    cbn [mbind outcome_bind].
    fold lat1 lng1.
    rewrite Hrun by (assumption || lia).
    rewrite <- app_assoc. cbn [app]. f_equal. lia.
Qed.

(** The loop only ever appends to the coordinates it was given. *)
Lemma decodeLoop_extends str factor : forall fuel index lat lng coords cs,
  decodeLoop fuel str factor index lat lng coords = Returns cs ->
  exists more, cs = coords ++ more.
Proof.
  induction fuel as [|fuel IH]; intros index lat lng coords cs Hrun;
    cbn [decodeLoop] in Hrun; [discriminate Hrun|].
  destruct (index <? String.length str)%nat.
  - destruct (readGroup _ str index 0 0) as [[i1 r1]| |];
      cbn [mbind outcome_bind] in Hrun; try discriminate Hrun.
    destruct (readGroup _ str i1 0 0) as [[i2 r2]| |];
      cbn [mbind outcome_bind] in Hrun; try discriminate Hrun.
    apply IH in Hrun as [more ->].
    eexists. rewrite <- app_assoc. reflexivity.
  - injection Hrun as <-. exists []. rewrite app_nil_r. reflexivity.
Qed.

(** X28: appending to a complete polyline -- one made of pairs of
    groups -- keeps the points decoded so far: the points of the longer
    string begin with the points of the complete one. *)
Theorem X28_decode_of_extended_polyline :
  forall s1 s2 precision,
    pairs s1 ->
    exists cs1 more,
      decode s1 precision = Returns cs1 /\
      decode (s1 +:+ s2) precision = Returns (cs1 ++ more).
Proof.
  intros s1 s2 precision Hpairs. unfold decode.
  set (factor := Qpower (10 # 1) precision).
  destruct (decodeLoop_pairs factor s1 Hpairs 0 0)
    as (lat' & lng' & new & n & Hn & Hrun).
  assert (Hself : forall post, holdsAt (s1 +:+ post) 0 s1).
  { intros post k Hk. cbn [Nat.add]. symmetry.
    apply append_correct1. exact Hk. }
  exists new.
  (* the longer string *)
  pose proof (Hrun (s1 +:+ s2) 0%nat (S (String.length (s1 +:+ s2)) - n)%nat
                [] (Hself s2)) as Hlong.
  rewrite length_append in Hlong.
  replace (n + (S (String.length s1 + String.length s2) - n))%nat
    with (S (String.length s1 + String.length s2)) in Hlong by lia.
  specialize (Hlong ltac:(lia)).
  cbn [Nat.add app] in Hlong.
  replace (S (String.length s1 + String.length s2) - n)%nat
    with (S (String.length s1 + String.length s2 - n)) in Hlong by lia.
  destruct (decodeLoop_returns (s1 +:+ s2) factor
              (String.length s1 + String.length s2 - n)
              (String.length s1) lat' lng' new)
    as (cs & Hcs & _); [rewrite length_append; lia|].
  destruct (decodeLoop_extends _ _ _ _ _ _ _ _ Hcs) as [more ->].
  exists more. split.
  - (* the complete polyline itself *)
    pose proof (Hrun s1 0%nat (S (String.length s1) - n)%nat []) as Hshort.
    replace (n + (S (String.length s1) - n))%nat
      with (S (String.length s1)) in Hshort by lia.
    rewrite Hshort.
    + replace (S (String.length s1) - n)%nat
        with (S (String.length s1 - n)) by lia.
      cbn [Nat.add app decodeLoop].
      rewrite Nat.ltb_irrefl. reflexivity.
    + intros k Hk. reflexivity.
    + lia.
  - rewrite length_append, Hlong. exact Hcs.
Qed.

(** The first point of the reference vector: two groups of five
    characters. *)
Lemma first_point_pairs : pairs "_p~iF~ps|U".
Proof.
  apply (pairs_cons "_p~iF" "~ps|U" "");
    repeat first [ exact pairs_nil
                 | apply group_end; reflexivity
                 | apply group_more; [reflexivity|] ].
Qed.

Lemma X28_decode_of_extended_polyline_witness :
  exists cs1 more,
    decode "_p~iF~ps|U" 5 = Returns cs1 /\
    decode ("_p~iF~ps|U" +:+ "_ulLnnqC") 5 = Returns (cs1 ++ more).
Proof.
  apply (X28_decode_of_extended_polyline "_p~iF~ps|U" "_ulLnnqC" 5).
  exact first_point_pairs.
Defined.

End PolylinePrefix.


(** ** Properties of the slideshow index *)

Module SlideshowFacts.
Import Slideshow.
#[local] Open Scope Z_scope.

(** The index shows an image exactly when it is a number within the
    array. *)
Lemma imageAt_is_Some {A} (images : list A) currentIndex :
  is_Some (imageAt images currentIndex) <->
  exists i, currentIndex = Some i /\ 0 <= i < Z.of_nat (List.length images).
Proof.
  unfold imageAt. split.
  - destruct currentIndex as [i|]; [|intros [v Hv]; discriminate Hv].
    destruct (Z.leb_spec 0 i) as [Hi|Hi]; [|intros [v Hv]; discriminate Hv].
    intros Hsome. apply lookup_lt_is_Some in Hsome.
    exists i. split; [reflexivity|]. lia.
  - intros (i & -> & Hi).
    destruct (Z.leb_spec 0 i) as [_|Hneg]; [|lia].
    apply lookup_lt_is_Some. lia.
Qed.

Lemma rem_next n i : 0 <= i < n ->
  Z.rem (i + 1) n = if i + 1 =? n then 0 else i + 1.
Proof.
  intros Hi. rewrite Z.rem_mod_nonneg by lia.
  destruct (Z.eqb_spec (i + 1) n) as [->|Hne].
  - apply Z_mod_same_full.
  - apply Z.mod_small. lia.
Qed.

Lemma rem_previous n i : 0 <= i < n ->
  Z.rem (i - 1 + n) n = if i =? 0 then n - 1 else i - 1.
Proof.
  intros Hi. rewrite Z.rem_mod_nonneg by lia.
  destruct (Z.eqb_spec i 0) as [->|Hne].
  - replace (0 - 1 + n) with (n - 1) by lia. apply Z.mod_small. lia.
  - replace (i - 1 + n) with (i - 1 + 1 * n) by lia.
    rewrite Z_mod_plus_full. apply Z.mod_small. lia.
Qed.

Lemma handleNext_in_range n i : 0 <= i < n ->
  handleNext n (Some i) = Some (if i + 1 =? n then 0 else i + 1).
Proof.
  intros Hi. unfold handleNext, jsRem. cbn [fmap option_fmap option_map].
  destruct (Z.eqb_spec n 0) as [Hz|_]; [lia|].
  rewrite rem_next by exact Hi. reflexivity.
Qed.

Lemma handlePrevious_in_range n i : 0 <= i < n ->
  handlePrevious n (Some i) = Some (if i =? 0 then n - 1 else i - 1).
Proof.
  intros Hi. unfold handlePrevious, jsRem.
  cbn [fmap option_fmap option_map].
  destruct (Z.eqb_spec n 0) as [Hz|_]; [lia|].
  rewrite rem_previous by exact Hi. reflexivity.
Qed.

Lemma playbackTick_in_range n isLoading i : 0 <= i < n ->
  playbackTick n isLoading (Some i)
  = Some (if i + 1 =? n then (if isLoading then i else 0) else i + 1).
Proof.
  intros Hi. unfold playbackTick. cbn [fmap option_fmap option_map].
  destruct (Z.eqb_spec n 0) as [Hz|_]; [lia|].
  cbn [Polyline.geNum].
  destruct (Z.eqb_spec (i + 1) n) as [Heq|Hne].
  - destruct (Z.leb_spec n (i + 1)) as [_|Hlt]; [|lia].
    destruct isLoading; reflexivity.
  - destruct (Z.leb_spec n (i + 1)) as [Hle|_]; [lia|]. reflexivity.
Qed.

(** X20: when the current index shows an image, it still does after a
    tick of the playback interval, after Next and after Previous; the
    bounds effect leaves it alone, and it shows the same image when more
    images have been appended. *)
Theorem X20_index_stays_on_an_image :
  forall (images more : list string) isLoading currentIndex,
    is_Some (imageAt images currentIndex) ->
    let imagesLength := Z.of_nat (List.length images) in
    is_Some (imageAt images
               (playbackTick imagesLength isLoading currentIndex)) /\
    is_Some (imageAt images (handleNext imagesLength currentIndex)) /\
    is_Some (imageAt images (handlePrevious imagesLength currentIndex)) /\
    keepInBounds imagesLength currentIndex = currentIndex /\
    imageAt (images ++ more) currentIndex = imageAt images currentIndex.
Proof.
  intros images more isLoading currentIndex Hshown. cbn zeta.
  pose proof (proj1 (imageAt_is_Some images currentIndex) Hshown)
    as (i & -> & Hi).
  split; [|split; [|split; [|split]]].
  - apply imageAt_is_Some. rewrite playbackTick_in_range by exact Hi.
    eexists. split; [reflexivity|].
    destruct (Z.eqb_spec (i + 1) (Z.of_nat (List.length images)));
      [destruct isLoading|]; lia.
  - apply imageAt_is_Some. rewrite handleNext_in_range by exact Hi.
    eexists. split; [reflexivity|].
    destruct (Z.eqb_spec (i + 1) (Z.of_nat (List.length images))); lia.
  - apply imageAt_is_Some. rewrite handlePrevious_in_range by exact Hi.
    eexists. split; [reflexivity|].
    destruct (Z.eqb_spec i 0); lia.
  - unfold keepInBounds. cbn [Polyline.geNum].
    destruct (Z.leb_spec (Z.of_nat (List.length images)) i) as [Hle|_];
      [lia|].
    rewrite andb_false_r. reflexivity.
  - unfold imageAt. destruct (0 <=? i); [|reflexivity].
    apply lookup_app_l. lia.
Qed.

Lemma X20_index_stays_on_an_image_witness :
  let images := ["a.jpg"; "b.jpg"]%string in
  let imagesLength := Z.of_nat (List.length images) in
  is_Some (imageAt images (playbackTick imagesLength true (Some 1))) /\
  is_Some (imageAt images (handleNext imagesLength (Some 1))) /\
  is_Some (imageAt images (handlePrevious imagesLength (Some 1))) /\
  keepInBounds imagesLength (Some 1) = Some 1 /\
  imageAt (images ++ ["c.jpg"%string]) (Some 1) = imageAt images (Some 1).
Proof.
  apply (X20_index_stays_on_an_image ["a.jpg"; "b.jpg"]%string
           ["c.jpg"%string] true (Some 1)).
  eexists. reflexivity.
Defined.

(** X21: on an index that shows an image, Next and Previous undo each
    other. *)
Theorem X21_next_and_previous_are_inverse :
  forall (images : list string) currentIndex,
    is_Some (imageAt images currentIndex) ->
    let imagesLength := Z.of_nat (List.length images) in
    handlePrevious imagesLength (handleNext imagesLength currentIndex)
    = currentIndex /\
    handleNext imagesLength (handlePrevious imagesLength currentIndex)
    = currentIndex.
Proof.
  intros images currentIndex Hshown. cbn zeta.
  pose proof (proj1 (imageAt_is_Some images currentIndex) Hshown)
    as (i & -> & Hi).
  set (n := Z.of_nat (List.length images)) in *.
  split.
  - rewrite handleNext_in_range by exact Hi.
    destruct (Z.eqb_spec (i + 1) n) as [Heq|Hne].
    + rewrite handlePrevious_in_range by lia. cbn. f_equal. lia.
    + rewrite handlePrevious_in_range by lia.
      destruct (Z.eqb_spec (i + 1) 0); [lia|]. f_equal. lia.
  - rewrite handlePrevious_in_range by exact Hi.
    destruct (Z.eqb_spec i 0) as [->|Hne].
    + rewrite handleNext_in_range by lia.
      destruct (Z.eqb_spec (n - 1 + 1) n); [reflexivity|lia].
    + rewrite handleNext_in_range by lia.
      destruct (Z.eqb_spec (i - 1 + 1) n); [lia|]. f_equal. lia.
Qed.

Lemma X21_next_and_previous_are_inverse_witness :
  let imagesLength := Z.of_nat (List.length ["a.jpg"; "b.jpg"]%string) in
  handlePrevious imagesLength (handleNext imagesLength (Some 1)) = Some 1 /\
  handleNext imagesLength (handlePrevious imagesLength (Some 1)) = Some 1.
Proof.
  apply (X21_next_and_previous_are_inverse ["a.jpg"; "b.jpg"]%string
           (Some 1)).
  eexists. reflexivity.
Defined.

(** X22: once loading is complete, a tick of the playback interval
    moves the index exactly as Next does, wrapping from the last image
    to the first; while loading, it moves forward but stays on the last
    image instead of wrapping. *)
Theorem X22_tick_wraps_only_when_loaded :
  forall (images : list string) i,
    let imagesLength := Z.of_nat (List.length images) in
    0 <= i < imagesLength ->
    playbackTick imagesLength false (Some i)
    = handleNext imagesLength (Some i) /\
    playbackTick imagesLength true (Some i)
    = Some (Z.min (i + 1) (imagesLength - 1)).
Proof.
  intros images i n Hi. subst n.
  rewrite !playbackTick_in_range, handleNext_in_range by exact Hi.
  split; [reflexivity|].
  destruct (Z.eqb_spec (i + 1) (Z.of_nat (List.length images)));
    f_equal; lia.
Qed.

Lemma X22_tick_wraps_only_when_loaded_witness :
  let imagesLength := Z.of_nat (List.length ["a.jpg"; "b.jpg"]%string) in
  playbackTick imagesLength false (Some 1) = handleNext imagesLength (Some 1)
  /\ playbackTick imagesLength true (Some 1)
     = Some (Z.min (1 + 1) (imagesLength - 1)).
Proof.
  apply (X22_tick_wraps_only_when_loaded ["a.jpg"; "b.jpg"]%string 1).
  cbn. lia.
Defined.

(** X23: with no images, Next and Previous -- reachable through the
    arrow keys, whose handler is registered whatever the number of
    images -- turn any index into [NaN]; and [NaN] stays: for every
    number of images, a tick, Next, Previous and the bounds effect all
    leave it [NaN], and it shows no image. *)
Theorem X23_index_lost_without_images_is_never_restored :
  (forall i, handleNext 0 (Some i) = None /\
             handlePrevious 0 (Some i) = None) /\
  (forall imagesLength isLoading,
      playbackTick imagesLength isLoading None = None /\
      handleNext imagesLength None = None /\
      handlePrevious imagesLength None = None /\
      keepInBounds imagesLength None = None) /\
  (forall images : list string, imageAt images None = None).
Proof.
  split; [|split].
  - intros i. split; reflexivity.
  - intros n isLoading. unfold playbackTick, keepInBounds.
    cbn [fmap option_fmap option_map Polyline.geNum].
    rewrite andb_false_r.
    destruct (n =? 0); repeat split; reflexivity.
  - reflexivity.
Qed.

End SlideshowFacts.

(** ** Properties of the map tiles *)

Module MapTileFacts.
Import MapTile.
#[local] Open Scope R_scope.









End MapTileFacts.


(** ** Properties of the submit handler *)

Module PipelineFacts.
Import Selector CoordInput Orchestrator Pipeline.

(** A call has finished: it returned or threw. *)
Definition settles {A} (o : outcome A) : Prop :=
  (exists a, o = Returns a) \/ (exists e, o = Throws e).

Lemma settles_returns {A} (a : A) : settles (Returns a).
Proof. left. exists a. reflexivity. Qed.

Lemma settles_throws {A} e : settles (@Throws A e).
Proof. right. exists e. reflexivity. Qed.

Lemma parseCoordinateInput_settles input :
  settles (parseCoordinateInput input).
Proof.
  unfold parseCoordinateInput.
  destruct (includesComma (trim input)); [|apply settles_returns].
  destruct (map trim (splitComma (trim input))) as [|p0 [|p1 [|? ?]]];
    try apply settles_returns.
  destruct (negb _ && negb _); [|apply settles_returns].
  destruct (_ && _); [apply settles_returns | apply settles_throws].
Qed.

Lemma geocodeAddress_settles fetch address :
  settles (geocodeAddress fetch address).
Proof.
  unfold geocodeAddress.
  destruct (fetch address) as [response|e]; cbn; [|apply settles_throws].
  destruct (geocode_ok response); cbn; [|apply settles_throws].
  destruct (geocode_json response) as [[[|hit hits]|]|e]; cbn;
    first [apply settles_returns | apply settles_throws].
Qed.

Lemma resolveLocation_settles fetch input :
  settles (resolveLocation (geocodeAddress fetch) input).
Proof.
  unfold resolveLocation. destruct (isCoordinates input).
  - apply parseCoordinateInput_settles.
  - apply geocodeAddress_settles.
Qed.

Lemma getRouteCoordinates_settles fetch originCoords destCoords :
  settles (getRouteCoordinates fetch originCoords destCoords).
Proof.
  unfold getRouteCoordinates.
  destruct (fetch originCoords destCoords) as [response|e];
    cbn [await mbind outcome_bind]; [|apply settles_throws].
  destruct (route_ok response); cbn [negb].
  - destruct (route_json response) as [[body|]|e];
      cbn [await mbind outcome_bind]; try apply settles_throws.
    destruct (negb _); [apply settles_throws|].
    destruct (routes body) as [[|[geometry|] more]|];
      try apply settles_returns; try apply settles_throws.
    destruct (PolylineFacts.decode_total geometry 5) as [cs ->].
    apply settles_returns.
  - destruct (route_text response); cbn [await mbind outcome_bind];
      apply settles_throws.
Qed.

Lemma routePhase_settles geocoder router formData :
  settles (routePhase geocoder router formData).
Proof.
  unfold routePhase.
  destruct (resolveLocation_settles geocoder (origin formData))
    as [[originCoords ->]|[e ->]]; cbn; [|apply settles_throws].
  destruct (resolveLocation_settles geocoder (destination formData))
    as [[destCoords ->]|[e ->]]; cbn; [|apply settles_throws].
  apply getRouteCoordinates_settles.
Qed.

(** A loop that has finished finishes the same way with more fuel. *)
Lemma whileLoop_settled_more_fuel routeCoords segmentLengths totalDistance
    spacing : forall n st r,
  Sampler.whileLoop routeCoords segmentLengths totalDistance spacing n st = r ->
  r <> OutOfFuel ->
  forall n', (n <= n')%nat ->
    Sampler.whileLoop routeCoords segmentLengths totalDistance spacing n' st
    = r.
Proof.
  induction n as [|n IH]; intros st r Hrun Hr n' Hle;
    cbn [Sampler.whileLoop] in Hrun; [congruence|].
  destruct n' as [|n']; [lia|]. cbn [Sampler.whileLoop].
  destruct (Sampler.loopGuard _ _ st); [|exact Hrun].
  destruct (Sampler.loopBody _ _ _ st) as [st1| |];
    cbn [mbind outcome_bind] in *; try exact Hrun.
  apply (IH st1 r Hrun Hr). lia.
Qed.

Lemma sampler_settled_more_fuel routeCoords spacingMeters n n' r :
  Sampler.generateEvenlySpacedPoints n routeCoords spacingMeters = r ->
  r <> OutOfFuel -> (n <= n')%nat ->
  Sampler.generateEvenlySpacedPoints n' routeCoords spacingMeters = r.
Proof.
  unfold Sampler.generateEvenlySpacedPoints, Sampler.samplePoints. intros Hrun Hr Hle.
  destruct (_ <? 2)%nat; [exact Hrun|].
  destruct (routeCoords !! 0%nat) as [p0|]; [|exact Hrun].
  destruct (routeCoords !! 1%nat) as [p1|]; [|exact Hrun].
  destruct (Sampler.whileLoop _ _ _ _ n _) as [st| |] eqn:Hloop;
    cbn [mbind outcome_bind] in Hrun.
  - rewrite (whileLoop_settled_more_fuel _ _ _ _ _ _ _ Hloop) by
      (discriminate || exact Hle).
    exact Hrun.
  - rewrite (whileLoop_settled_more_fuel _ _ _ _ _ _ _ Hloop) by
      (discriminate || exact Hle).
    exact Hrun.
  - congruence.
Qed.

(** With a positive spacing the sampler returns for any sufficient
    number of iterations. *)
Lemma sampler_returns routeCoords spacingMeters :
  (0 < spacingMeters)%R ->
  exists fuel waypoints,
    forall fuel', (fuel <= fuel')%nat ->
      Sampler.generateEvenlySpacedPoints fuel' routeCoords spacingMeters
      = Returns waypoints.
Proof.
  intros Hpos.
  destruct routeCoords as [|p0 [|p1 rest]];
    try (exists 0%nat, []; intros fuel' _; reflexivity).
  destruct (SamplerFacts.sampler_result p0 p1 rest spacingMeters Hpos)
    as (fuel & interior & Hrun & _).
  eexists fuel, _. exact Hrun.
Qed.

Lemma sampler_never_throws routeCoords spacingMeters fuel e :
  (0 < spacingMeters)%R ->
  Sampler.generateEvenlySpacedPoints fuel routeCoords spacingMeters
  <> Throws e.
Proof.
  intros Hpos Hthrow.
  destruct (sampler_returns routeCoords spacingMeters Hpos)
    as (fuel0 & waypoints & Hrun).
  specialize (Hrun (Nat.max fuel fuel0) (Nat.le_max_r _ _)).
  rewrite (sampler_settled_more_fuel _ _ fuel _ _ Hthrow) in Hrun
    by (discriminate || apply Nat.le_max_l).
  discriminate Hrun.
Qed.

Lemma fetchImages_settles provider cancelled spacedPoints :
  settles (snd (fetchImages provider cancelled spacedPoints)).
Proof.
  unfold fetchImages.
  set (points := _ <$> spacedPoints).
  destruct (OrchestratorFacts.batchLoop_outcome provider cancelled points
              (List.length points) 0 emptyAccumulators
              (publish emptyAccumulators)) as [Hok|[Hthrow _]]; [lia | |].
  - rewrite Hok. apply settles_returns.
  - rewrite Hthrow. apply settles_throws.
Qed.

(** X26: when [handleFormSubmit] has run, it has opened the slideshow
    exactly if the route phase returned a non-empty route.  In every
    other case -- a location that cannot be parsed or geocoded, a
    routing failure, an empty route -- it leaves the slideshow closed,
    no image and no coordinate is shown, and the user has got an
    alert. *)
Theorem X26_slideshow_opens_exactly_for_a_route :
  forall geocoder router provider cancelled fuel formData st,
    handleFormSubmit geocoder router provider cancelled fuel formData
    = Returns st ->
    (showSlideshow st = true <->
     exists routeCoords,
       routePhase geocoder router formData = Returns routeCoords /\
       routeCoords <> []) /\
    (showSlideshow st = false ->
     images (shown st) = [] /\ coordinates_shown (shown st) = [] /\
     exists msg, alert st = Some msg).
Proof.
  intros geocoder router provider cancelled fuel formData st.
  unfold handleFormSubmit.
  destruct (routePhase geocoder router formData) as [routeCoords|e|] eqn:Hroute;
    [| |discriminate].
  - destruct routeCoords as [|c routeCoords]; cbn [List.length Nat.eqb].
    + intros Hrun. injection Hrun as <-. cbn. split; [split|].
      * discriminate.
      * intros (r & Heq & Hne). congruence.
      * intros _. repeat split; eexists; reflexivity.
    + destruct (Sampler.generateEvenlySpacedPoints fuel _ 50)
        as [spacedPoints|e|] eqn:Hsample; [| |discriminate].
      * destruct (fetchImages provider cancelled spacedPoints)
          as [snapshot [[]|e|]]; [| |discriminate];
          intros Hrun; injection Hrun as <-; cbn;
          (split; [split|discriminate]);
          try (intros _; exists (c :: routeCoords);
               split; [reflexivity | discriminate]);
          reflexivity.
      * exfalso. revert Hsample. apply sampler_never_throws. lra.
  - intros Hrun. injection Hrun as <-. cbn. split; [split|].
    + discriminate.
    + intros (r & Heq & _). discriminate Heq.
    + intros _. repeat split; eexists; reflexivity.
Qed.

(** A routing service that knows no route, whatever the request. *)
Definition noRoute : Router := fun _ _ =>
  Fulfilled {| route_ok := true; route_statusText := "OK";
               route_text := Fulfilled ""%string;
               route_json :=
                 Fulfilled (Some {| code := Some "Ok"%string;
                                    message := None;
                                    routes := Some [] |}) |}.

Definition unreachableGeocoder : Geocoder :=
  fun _ => Rejected "Failed to fetch".

Definition coordinateForm : RouteFormData :=
  {| origin := "38.5,-120.2"; destination := "38.6,-120.3" |}.

Lemma noRoute_run :
  handleFormSubmit unreachableGeocoder noRoute OrchestratorFacts.offline
    (fun _ => false) 0 coordinateForm
  = Returns {| shown := publish emptyAccumulators; showSlideshow := false;
               alert := Some "No route found between these locations"%string |}.
Proof. vm_compute. reflexivity. Qed.

Lemma X26_slideshow_opens_exactly_for_a_route_witness :
  let st := {| shown := publish emptyAccumulators; showSlideshow := false;
               alert := Some "No route found between these locations"%string |}
  in
  (showSlideshow st = true <->
   exists routeCoords,
     routePhase unreachableGeocoder noRoute coordinateForm
     = Returns routeCoords /\ routeCoords <> []) /\
  (showSlideshow st = false ->
   images (shown st) = [] /\ coordinates_shown (shown st) = [] /\
   exists msg, alert st = Some msg).
Proof.
  apply (X26_slideshow_opens_exactly_for_a_route unreachableGeocoder noRoute
           OrchestratorFacts.offline (fun _ => false) 0 coordinateForm).
  exact noRoute_run.
Defined.

(** X27: [handleFormSubmit] always runs to its end: whatever the three
    services answer, whatever the form holds and whenever the user
    cancels, the handler finishes -- having opened the slideshow or
    raised an alert -- once the sampler is given enough iterations.  No
    exception escapes it. *)
Theorem X27_submit_handler_always_finishes :
  forall geocoder router provider cancelled formData,
    exists fuel,
      forall fuel', (fuel <= fuel')%nat ->
        exists st,
          handleFormSubmit geocoder router provider cancelled fuel' formData
          = Returns st /\
          (showSlideshow st = true \/ exists msg, alert st = Some msg).
Proof.
  intros geocoder router provider cancelled formData.
  unfold handleFormSubmit.
  destruct (routePhase_settles geocoder router formData)
    as [[routeCoords ->]|[e ->]].
  - destruct routeCoords as [|c routeCoords]; cbn [List.length Nat.eqb].
    + exists 0%nat. intros fuel' _. eexists. split; [reflexivity|].
      right. eexists. reflexivity.
    + destruct (sampler_returns (toPoint <$> c :: routeCoords) 50)
        as (fuel & spacedPoints & Hrun); [lra|].
      exists fuel. intros fuel' Hfuel. rewrite (Hrun fuel' Hfuel).
      pose proof (fetchImages_settles provider cancelled spacedPoints)
        as Hsettles.
      destruct (fetchImages provider cancelled spacedPoints)
        as [snapshot out]. cbn [snd] in Hsettles.
      destruct Hsettles as [[[] ->]|[e ->]];
        (eexists; split; [reflexivity|]; left; reflexivity).
  - exists 0%nat. intros fuel' _. eexists. split; [reflexivity|].
    right. eexists. reflexivity.
Qed.

(** X30: a route of a single point is not "no route": the handler
    opens the slideshow, the sampler yields no waypoint for it, the
    image phase ends at once, and the slideshow is left open with no
    image and without an alert. *)
Theorem X30_single_point_route_opens_an_empty_slideshow :
  forall geocoder router provider cancelled fuel formData c,
    routePhase geocoder router formData = Returns [c] ->
    handleFormSubmit geocoder router provider cancelled fuel formData
    = Returns {| shown := publish emptyAccumulators; showSlideshow := true;
                 alert := None |}.
Proof.
  intros geocoder router provider cancelled fuel formData c Hroute.
  unfold handleFormSubmit. rewrite Hroute.
  cbn [List.length Nat.eqb].
  unfold Sampler.generateEvenlySpacedPoints, Sampler.samplePoints.
  cbn [fmap list_fmap List.length Nat.ltb Nat.leb].
  unfold fetchImages. cbn [fmap list_fmap List.length batchLoop Nat.ltb Nat.leb].
  reflexivity.
Qed.

(** A routing service that answers with a geometry of one point. *)
Definition onePointRoute : Router := fun _ _ =>
  Fulfilled {| route_ok := true; route_statusText := "OK";
               route_text := Fulfilled ""%string;
               route_json :=
                 Fulfilled (Some {| code := Some "Ok"%string;
                                    message := None;
                                    routes := Some [Some "??"%string] |}) |}.

Lemma X30_single_point_route_opens_an_empty_slideshow_witness :
  handleFormSubmit unreachableGeocoder onePointRoute OrchestratorFacts.offline
    (fun _ => false) 0 coordinateForm
  = Returns {| shown := publish emptyAccumulators; showSlideshow := true;
               alert := None |}.
Proof.
  eapply (X30_single_point_route_opens_an_empty_slideshow
            unreachableGeocoder onePointRoute OrchestratorFacts.offline
            (fun _ => false) 0 coordinateForm).
  vm_compute. reflexivity.
Defined.

End PipelineFacts.
